(** * A shallow embedding of the chat server (server.c, storage.c)

    The development follows the C sources function by function:
    - C strings and the string helpers of server.c ([trim_newline], the
      uses of [strlen], [strncmp], [strchr]);
    - [read_line], over the byte stream of one connection;
    - the SQLite backend of storage.c, the [messages] table as a list of rows;
    - the shared server state (session heap, the [clients_head] list, the
      store), the server functions as small programs over it, their
      sequential runs and their interleavings under the mutexes. *)

From Stdlib Require Import ZArith Ascii String DecimalString List Permutation Sorted Lia.
From stdpp Require Import base decidable option list gmap strings.
Import ListNotations.

Local Open Scope Z_scope.

(** ** C strings *)

Module CStr.

(** A [char] array holds bytes; a C string is the part before the first NUL. *)
Definition char := ascii.
Definition text := list char.

Definition NUL : char := "000"%char.
Definition LF : char := "010"%char.
Definition CR : char := "013"%char.
Definition SP : char := " "%char.

Definition lit (s : string) : text := list_ascii_of_string s.

Definition is_nul (c : char) : bool := Ascii.eqb c NUL.

(** The C string stored in a buffer: everything before the first NUL. *)
Fixpoint c_str (buf : text) : text :=
  match buf with
  | [] => []
  | c :: rest => if is_nul c then [] else c :: c_str rest
  end.

Definition strlen (s : text) : Z := Z.of_nat (length (c_str s)).

(** [strncmp a b n == 0]: the first [n] characters agree, comparison
    stopping at a common NUL. Reading past the end of the list reads the
    terminator. *)
Fixpoint strncmp_eq (a b : text) (n : nat) : bool :=
  match n with
  | O => true
  | S n' =>
      let ca := hd NUL a in
      let cb := hd NUL b in
      if Ascii.eqb ca cb
      then (if is_nul ca then true else strncmp_eq (tl a) (tl b) n')
      else false
  end.

(** [strcmp a b == 0]. *)
Fixpoint strcmp_eq (a b : text) : bool :=
  match a, b with
  | [], _ => is_nul (hd NUL b)
  | ca :: a', [] => is_nul ca
  | ca :: a', cb :: b' =>
      if Ascii.eqb ca cb
      then (if is_nul ca then true else strcmp_eq a' b')
      else false
  end.

(** [strchr s c] for a non-NUL [c]: the offset of the first [c] in the C
    string, if any. *)
Fixpoint strchr (s : text) (c : char) : option nat :=
  match s with
  | [] => None
  | x :: rest =>
      if is_nul x then None
      else if Ascii.eqb x c then Some O
      else option_map S (strchr rest c)
  end.

(** The characters [trim_newline] removes. *)
Definition is_trimmed (c : char) : bool :=
  Ascii.eqb c LF || Ascii.eqb c CR || Ascii.eqb c SP.

(** The loop of [trim_newline], walking [end] down from the last character:
    [rev_s] is the string read backwards from [end]. *)
Fixpoint trim_loop (rev_s : text) : text :=
  match rev_s with
  | [] => []
  | c :: before => if is_trimmed c then trim_loop before else rev_s
  end.

(** [trim_newline str]: the C string left in [str]. *)
Definition trim_newline (str : text) : text :=
  let s := c_str str in
  match s with
  | [] => []
  | _ => rev (trim_loop (rev s))
  end.

(** [strncpy(dst, src, n)] into an [n]-byte array: the first [n] characters
    of the C string, NUL-padded. *)
Definition strncpy (src : text) (n : nat) : text :=
  take n (c_str src ++ replicate n NUL).

End CStr.

Import CStr.

(** ** read_line *)

Module ReadLine.

(** How a connection ends: [recv] returns 0 at end of stream and -1 on an
    error. *)
Inductive closed := EndOfStream | RecvError.

Definition recv_code (c : closed) : Z :=
  match c with
  | EndOfStream => 0
  | RecvError => -1
  end.

(** What [recv(fd, &c, 1, 0)] will deliver on one connection: the bytes the
    peer sent, then the end. *)
Record stream := Stream { pending : list char; closing : closed }.

Definition size_max : Z := 2 ^ 64.

(** The loop of [read_line]; [buf] is [buffer[0..offset)]. Returns the
    function's return value, the buffer and the unread bytes. *)
Fixpoint read_line_loop (max_len : Z) (closing : closed) (input : list char)
    (buf : list char) {struct input} : Z * list char * list char :=
  if Z.of_nat (length buf) <? (max_len - 1) mod size_max then
    match input with
    | [] => (recv_code closing, buf, [])
    | c :: rest =>
        if Ascii.eqb c CR then read_line_loop max_len closing rest buf
        else if Ascii.eqb c LF then (Z.of_nat (length buf), buf, rest)
        else read_line_loop max_len closing rest (buf ++ [c])
    end
  else (Z.of_nat (length buf), buf, input).

Definition read_line (fd : stream) (max_len : Z) : Z * list char * stream :=
  let '(n, buf, rest) := read_line_loop max_len (closing fd) (pending fd) [] in
  (n, buf, Stream rest (closing fd)).

(** The same stream with every carriage return removed. *)
Definition strip_cr (input : list char) : list char :=
  List.filter (fun c => negb (Ascii.eqb c CR)) input.

Definition strip_cr_stream (fd : stream) : stream :=
  Stream (strip_cr (pending fd)) (closing fd).

End ReadLine.

(** ** storage.c, SQLite backend *)

Module Storage.

(** One row of the [messages] table. [created_at] is the clock reading
    CURRENT_TIMESTAMP stored at insertion, in whole seconds. *)
Record message := Message {
  id : Z;
  sender : text;
  receiver : text;
  body : text;
  created_at : Z
}.

(** The table in rowid order, and the largest rowid ever handed out
    (AUTOINCREMENT never reuses one). *)
Record db := Db {
  messages : list message;
  sequence : Z
}.

Definition empty_db : db := Db [] 0.

(** What the SQLite library answers to one statement. *)
Inductive engine_status :=
| Healthy
| PrepareError            (* sqlite3_prepare_v2 != SQLITE_OK *)
| StepError (after : nat) (* sqlite3_step fails after yielding [after] rows *).

(** The part of SQLite the queries rely on: ORDER BY created_at ASC yields
    the selected rows sorted by that column (and says nothing more), and
    datetime() renders a timestamp. *)
Class SqlEngine := {
  order_by_created_at : list message -> list message;
  datetime : Z -> text;
  order_by_permutation : forall rows, Permutation (order_by_created_at rows) rows;
  order_by_sorted : forall rows,
    StronglySorted (fun m1 m2 => created_at m1 <= created_at m2) (order_by_created_at rows)
}.

(** WHERE (sender=?1 AND receiver=?2) OR (sender=?3 AND receiver=?4), bound
    to user_a, user_b, user_b, user_a. *)
Definition where_conversation (user_a user_b : text) (m : message) : bool :=
  (bool_decide (sender m = c_str user_a) && bool_decide (receiver m = c_str user_b))
  || (bool_decide (sender m = c_str user_b) && bool_decide (receiver m = c_str user_a)).

(** The largest rowid in the table (0 when it is empty). *)
Definition max_rowid (rows : list message) : Z :=
  fold_right (fun m acc => Z.max (id m) acc) 0 rows.

(** INSERT INTO messages (sender, receiver, body) VALUES (?, ?, ?): the new
    row takes the next rowid and the current time, and lands at the end of
    the table. Text is bound with length -1, up to its NUL. *)
Definition sql_insert (now : Z) (d : db) (s r b : text) : db :=
  let rowid := Z.max (sequence d) (max_rowid (messages d)) + 1 in
  Db (messages d ++ [Message rowid (c_str s) (c_str r) (c_str b) now]) rowid.

(** SELECT datetime(created_at), sender, body FROM messages WHERE ...
    ORDER BY created_at ASC: the rows the statement steps through. *)
Definition sql_select `{SqlEngine} (d : db) (user_a user_b : text) : list message :=
  order_by_created_at (List.filter (where_conversation user_a user_b) (messages d)).

(** DELETE FROM messages WHERE ... *)
Definition sql_delete (d : db) (user_a user_b : text) : db :=
  Db (List.filter (fun m => negb (where_conversation user_a user_b m)) (messages d))
     (sequence d).

(** The store as the server sees it: the table, [last_error], and what the
    environment decides for the next statement (the library's status and
    message, the clock). *)
Record store := Store {
  table : db;
  last_error : text;
  status : engine_status;
  sqlite3_errmsg : text;
  now : Z
}.

Definition MAX_ERROR_LEN : nat := 256.

Definition set_error (fmt_prefix detail : text) (st : store) : store :=
  Store (table st) (take (MAX_ERROR_LEN - 1) (fmt_prefix ++ c_str detail))
        (status st) (sqlite3_errmsg st) (now st).

Definition storage_last_error (st : store) : text :=
  match last_error st with
  | [] => lit "unknown error"
  | _ => last_error st
  end.

Definition with_table (st : store) (d : db) : store :=
  Store d (last_error st) (status st) (sqlite3_errmsg st) (now st).

Definition storage_store_message (st : store) (s r b : text) : Z * store :=
  match status st with
  | PrepareError => (-1, set_error (lit "Failed to prepare insert: ") (sqlite3_errmsg st) st)
  | StepError _ => (-1, set_error (lit "Failed to store message: ") (sqlite3_errmsg st) st)
  | Healthy => (0, with_table st (sql_insert (now st) (table st) s r b))
  end.

(** The row that [storage_store_message] adds to a working store. *)
Definition appended_row (st : store) (a b text : text) : message :=
  Message (Z.max (sequence (table st)) (max_rowid (messages (table st))) + 1)
          (c_str a) (c_str b) (c_str text) (now st).

(** Returns the status code and the rows handed to the callback, in order. *)
Definition storage_fetch_conversation `{SqlEngine} (st : store) (user_a user_b : text)
    : Z * list message * store :=
  match status st with
  | PrepareError =>
      (-1, [], set_error (lit "Failed to query history: ") (sqlite3_errmsg st) st)
  | StepError after => (0, take after (sql_select (table st) user_a user_b), st)
  | Healthy => (0, sql_select (table st) user_a user_b, st)
  end.

Definition storage_delete_conversation (st : store) (user_a user_b : text) : Z * store :=
  match status st with
  | PrepareError => (-1, set_error (lit "Failed to prepare delete: ") (sqlite3_errmsg st) st)
  | StepError _ => (-1, set_error (lit "Failed to delete history: ") (sqlite3_errmsg st) st)
  | Healthy => (0, with_table st (sql_delete (table st) user_a user_b))
  end.

(** Rowids are distinct and the sequence has seen them all: holds of the
    empty table and is kept by every statement. *)
Definition db_wf (d : db) : Prop :=
  NoDup (map id (messages d)) /\ Forall (fun m => id m <= sequence d) (messages d).

(** Insertion of [m] into a list sorted by [created_at], after the rows that
    are not later. *)
Fixpoint insert_after_ties (m : message) (sorted : list message) : list message :=
  match sorted with
  | [] => [m]
  | x :: rest =>
      if created_at x <=? created_at m then x :: insert_after_ties m rest
      else m :: sorted
  end.


(** Two sorts that both answer ORDER BY created_at ASC: one leaves rows of
    equal time in table order, the other reverses them. *)
Definition sort_ties_in_order (rows : list message) : list message :=
  fold_left (fun acc m => insert_after_ties m acc) rows [].


(** A rendering of timestamps for the two sorts: the seconds in decimal. *)
Definition render_seconds (t : Z) : text :=
  lit (NilZero.string_of_int (Z.to_int t)).

End Storage.

(** ** server.c: shared state and the program monad *)

Module Server.

Import Storage.

Definition MAX_USERNAME : nat := 32.
Definition LINE_SIZE : Z := 2048.

(** The address of a [client_session]. *)
Abbreviation ptr := nat.

(** [client_session_t]: [thread] and [send_lock] are not data ([send_lock]
    is the mutex [send_lock p] below); [next] is the order of
    [clients_head]. *)
Record client_session := Session {
  socket_fd : Z;
  username : text;       (* char username[MAX_USERNAME] *)
  authenticated : bool
}.

(** The memory the threads share. *)
Record server := Srv {
  heap : gmap ptr client_session;  (* allocated sessions *)
  clients_head : list ptr;         (* the linked list, head first *)
  storage : store;
  server_running : bool
}.

Definition set_heap (st : server) (h : gmap ptr client_session) : server :=
  Srv h (clients_head st) (storage st) (server_running st).
Definition set_clients (st : server) (l : list ptr) : server :=
  Srv (heap st) l (storage st) (server_running st).
Definition set_storage (st : server) (s : store) : server :=
  Srv (heap st) (clients_head st) s (server_running st).

Inductive mutex :=
| clients_lock
| send_lock (session : ptr)
| storage_lock.

#[export] Instance mutex_eq_dec : EqDecision mutex.
Proof. solve_decision. Defined.

(** What leaves the process. *)
Inductive io :=
| Send (session : ptr) (data : text)   (* send(session->socket_fd, data) *)
| Stderr (msg : text)
| Stdout (msg : text)
| Close (session : ptr).               (* net_close(session->socket_fd) *)

Inductive event :=
| Io (e : io)
| Locked (m : mutex)
| Unlocked (m : mutex).

(** A piece of server code: mutex operations, single accesses to the shared
    memory, and I/O, in program order. *)
Inductive prog (R : Type) : Type :=
| Ret (r : R)
| Acquire (m : mutex) (k : prog R)
| Release (m : mutex) (k : prog R)
| Step {A : Type} (f : server -> A * server) (k : A -> prog R)
| Emit (e : io) (k : prog R).

Arguments Ret {R} r.
Arguments Acquire {R} m k.
Arguments Release {R} m k.
Arguments Step {R A} f k.
Arguments Emit {R} e k.

Fixpoint bind {R S : Type} (p : prog R) (k : R -> prog S) : prog S :=
  match p with
  | Ret r => k r
  | Acquire m p' => Acquire m (bind p' k)
  | Release m p' => Release m (bind p' k)
  | Step f p' => Step f (fun a => bind (p' a) k)
  | Emit e p' => Emit e (bind p' k)
  end.

Notation "x <- p ;; k" := (bind p (fun x => k))
  (at level 90, p at level 89, right associativity, only parsing).
Notation "p ;;; k" := (bind p (fun _ => k))
  (at level 90, right associativity, only parsing).

Definition lock (m : mutex) : prog unit := Acquire m (Ret tt).
Definition unlock (m : mutex) : prog unit := Release m (Ret tt).
Definition read {A : Type} (f : server -> A) : prog A :=
  Step (fun st => (f st, st)) Ret.
Definition write (f : server -> server) : prog unit :=
  Step (fun st => (tt, f st)) Ret.
Definition emit (e : io) : prog unit := Emit e (Ret tt).

Fixpoint for_each {A : Type} (l : list A) (body : A -> prog unit) : prog unit :=
  match l with
  | [] => Ret tt
  | x :: rest => body x ;;; for_each rest body
  end.

(** A thread running alone: the result, the memory afterwards and the
    events in order. *)
Fixpoint run {R : Type} (p : prog R) (st : server) : R * server * list event :=
  match p with
  | Ret r => (r, st, [])
  | Acquire m k => let '(r, st', tr) := run k st in (r, st', Locked m :: tr)
  | Release m k => let '(r, st', tr) := run k st in (r, st', Unlocked m :: tr)
  | Step f k =>
      let '(a, st1) := f st in
      let '(r, st', tr) := run (k a) st1 in (r, st', tr)
  | Emit e k => let '(r, st', tr) := run k st in (r, st', Io e :: tr)
  end.

(** ** server.c: the functions *)

Section Functions.

Context `{SqlEngine}.

(** The session a pointer designates (every pointer the code follows is
    live; a dangling one reads as a zeroed session). *)
Definition deref (st : server) (p : ptr) : client_session :=
  default (Session 0 (replicate MAX_USERNAME NUL) false) (heap st !! p).

Definition update_session (p : ptr) (f : client_session -> client_session)
    (st : server) : server :=
  set_heap st (<[p := f (deref st p)]> (heap st)).

(** What [send_formatted] puts on the wire for the formatted text [msg]:
    vsnprintf cuts at 2047 characters, and the newline is added only when
    there is room. *)
Definition frame (msg : text) : text :=
  let buffer := take 2047 msg in
  if (length buffer <? 2047)%nat then buffer ++ [LF] else buffer.

Definition send_formatted (session : ptr) (msg : text) : prog unit :=
  lock (send_lock session) ;;;
  emit (Send session (frame msg)) ;;;
  unlock (send_lock session).

(** The events of one [send_formatted]. *)
Definition sending (session : ptr) (msg : text) : list event :=
  [Locked (send_lock session); Io (Send session (frame msg)); Unlocked (send_lock session)].

Definition broadcast_shutdown_message : prog unit :=
  lock clients_lock ;;;
  cur <- read clients_head ;;
  for_each cur (fun p =>
    is_auth <- read (fun st => authenticated (deref st p)) ;;
    if is_auth : bool
    then send_formatted p (lit "SHUTDOWN Server shutting down...")
    else Ret tt) ;;;
  unlock clients_lock.

(** The test in the loop of [find_client_by_name]:
    [cur->authenticated && strncmp(cur->username, username, MAX_USERNAME) == 0]
    (a dangling [cur] does not occur and counts as no match). *)
Definition is_named (h : gmap ptr client_session) (name : text) (p : ptr) : bool :=
  match h !! p with
  | Some s => authenticated s && strncmp_eq (username s) name MAX_USERNAME
  | None => false
  end.

(** The traversal of [find_client_by_name], from [cur]. *)
Fixpoint find_from (h : gmap ptr client_session) (cur : list ptr) (name : text)
    : option ptr :=
  match cur with
  | [] => None
  | p :: next => if is_named h name p then Some p else find_from h next name
  end.

Definition find_client_by_name (st : server) (name : text) : option ptr :=
  find_from (heap st) (clients_head st) name.

Definition username_available (st : server) (name : text) : bool :=
  match find_client_by_name st name with
  | None => true
  | Some _ => false
  end.

Definition add_client (session : ptr) : prog unit :=
  lock clients_lock ;;;
  write (fun st => set_clients st (session :: clients_head st)) ;;;
  unlock clients_lock.

(** The loop of [remove_client]: unlink the first node that is [session]. *)
Fixpoint unlink (session : ptr) (cur : list ptr) : list ptr :=
  match cur with
  | [] => []
  | p :: next => if decide (p = session) then next else p :: unlink session next
  end.

Definition remove_client (session : ptr) : prog unit :=
  lock clients_lock ;;;
  write (fun st => set_clients st (unlink session (clients_head st))) ;;;
  unlock clients_lock.

Definition notify_user_list (session : ptr) : prog unit :=
  lock clients_lock ;;;
  cur <- read clients_head ;;
  send_formatted session (lit "USERS_BEGIN") ;;;
  for_each cur (fun p =>
    s <- read (fun st => deref st p) ;;
    if authenticated s
    then send_formatted session (lit "USER " ++ c_str (username s))
    else Ret tt) ;;;
  unlock clients_lock ;;;
  send_formatted session (lit "USERS_END").

(** The calls into storage.c: the statement runs under [storage_lock]. *)
Definition store_message (sender receiver body : text) : prog Z :=
  lock storage_lock ;;;
  rc <- Step (fun st =>
          let '(rc, sto) := storage_store_message (storage st) sender receiver body in
          (rc, set_storage st sto)) Ret ;;
  unlock storage_lock ;;;
  Ret rc.

(** The callback runs for each row inside the stepping loop, before the
    lock is released. *)
Definition fetch_conversation {C : Type} (user_a user_b : text)
    (cb : message -> C -> prog C) (ctx : C) : prog (Z * C) :=
  lock storage_lock ;;;
  res <- Step (fun st =>
           let '(rc, rows, sto) := storage_fetch_conversation (storage st) user_a user_b in
           ((rc, rows), set_storage st sto)) Ret ;;
  ctx' <- fold_left (fun acc row => c <- acc ;; cb row c) (snd res) (Ret ctx) ;;
  unlock storage_lock ;;;
  Ret (fst res, ctx').

Definition delete_conversation (user_a user_b : text) : prog Z :=
  lock storage_lock ;;;
  rc <- Step (fun st =>
          let '(rc, sto) := storage_delete_conversation (storage st) user_a user_b in
          (rc, set_storage st sto)) Ret ;;
  unlock storage_lock ;;;
  Ret rc.

Definition last_error_text : prog text :=
  read (fun st => storage_last_error (storage st)).

(** The line [deliver_message] writes to stderr when the store fails. *)
Definition persist_failure (sender receiver err : text) : text :=
  lit "Failed to persist message from " ++ sender ++ lit " to " ++ receiver
  ++ lit ": " ++ err ++ [LF].

Definition deliver_message (sender receiver body : text) : prog unit :=
  rc <- store_message sender receiver body ;;
  (if rc =? 0 then Ret tt
   else
     err <- last_error_text ;;
     emit (Stderr (persist_failure sender receiver err))) ;;;
  lock clients_lock ;;;
  target <- read (fun st => find_client_by_name st receiver) ;;
  match target with
  | Some t => send_formatted t (lit "MESSAGE " ++ sender ++ lit " " ++ body)
  | None => Ret tt
  end ;;;
  unlock clients_lock.

(** [history_context_t], without the session pointer the closure holds. *)
Record history_context := History { any : bool }.

Definition history_emit (session : ptr) (row : message) (hist : history_context)
    : prog history_context :=
  send_formatted session
    (lit "HISTORY " ++ datetime (created_at row) ++ lit " " ++ sender row
     ++ lit " " ++ body row) ;;;
  Ret (History true).

(** How one iteration of the worker loop ends. *)
Inductive flow := Continue | Break.

Definition my_username (session : ptr) : prog text :=
  read (fun st => c_str (username (deref st session))).

(** The body of the loop of [client_worker] after [read_line], for the C
    string [line]. *)
Definition handle_line (session : ptr) (line : text) : prog flow :=
  is_auth <- read (fun st => authenticated (deref st session)) ;;
  if negb is_auth then
    if strncmp_eq line (lit "AUTH ") 5 then
      let name := trim_newline (drop 5 line) in
      if (strlen name =? 0) || (Z.of_nat MAX_USERNAME <=? strlen name) then
        send_formatted session (lit "ERROR Invalid username length") ;;;
        Ret Continue
      else
        lock clients_lock ;;;
        available <- read (fun st => username_available st name) ;;
        if available : bool then
          write (update_session session (fun s =>
            Session (socket_fd s) (strncpy name MAX_USERNAME) (authenticated s))) ;;;
          write (update_session session (fun s =>
            Session (socket_fd s) (username s) true)) ;;;
          unlock clients_lock ;;;
          me <- my_username session ;;
          send_formatted session (lit "OK Authenticated as " ++ me) ;;;
          Ret Continue
        else
          unlock clients_lock ;;;
          send_formatted session (lit "ERROR Username taken") ;;;
          Ret Continue
    else
      send_formatted session (lit "ERROR Authenticate first using AUTH <username>") ;;;
      Ret Continue
  else if strncmp_eq line (lit "SEND ") 5 then
    let rest := drop 5 line in
    match strchr rest SP with
    | None =>
        send_formatted session (lit "ERROR Usage: SEND <user> <message>") ;;;
        Ret Continue
    | Some space =>
        let target := take space rest in
        let message := drop (S space) rest in
        if strlen message =? 0 then
          send_formatted session (lit "ERROR Message cannot be empty") ;;;
          Ret Continue
        else
          me <- my_username session ;;
          deliver_message me target message ;;;
          send_formatted session (lit "OK Message queued") ;;;
          Ret Continue
    end
  else if strncmp_eq line (lit "GET ") 4 then
    let other := drop 4 line in
    if strlen other =? 0 then
      send_formatted session (lit "ERROR Usage: GET <user>") ;;;
      Ret Continue
    else
      me <- my_username session ;;
      res <- fetch_conversation me other (history_emit session) (History false) ;;
      (if negb (fst res =? 0) then
         err <- last_error_text ;;
         send_formatted session (lit "ERROR Failed to query history: " ++ err)
       else if negb (any (snd res)) then
         send_formatted session (lit "INFO No messages with " ++ other)
       else
         send_formatted session (lit "OK History end")) ;;;
      Ret Continue
  else if strncmp_eq line (lit "DELETE ") 7 then
    let other := drop 7 line in
    if strlen other =? 0 then
      send_formatted session (lit "ERROR Usage: DELETE <user>") ;;;
      Ret Continue
    else
      me <- my_username session ;;
      rc <- delete_conversation me other ;;
      (if negb (rc =? 0) then
         err <- last_error_text ;;
         send_formatted session (lit "ERROR Failed to delete history: " ++ err)
       else
         send_formatted session (lit "OK Deleted history with " ++ other)) ;;;
      Ret Continue
  else if strcmp_eq line (lit "USERS") then
    notify_user_list session ;;;
    Ret Continue
  else if strcmp_eq line (lit "QUIT") then
    send_formatted session (lit "BYE") ;;;
    Ret Break
  else
    send_formatted session (lit "ERROR Unknown command") ;;;
    Ret Continue.

(** The two stores of the AUTH critical section taken together: the name
    copied into the session, then the flag set. *)
Definition register (session : ptr) (name : text) (st : server) : server :=
  update_session session (fun s => Session (socket_fd s) (username s) true)
    (update_session session (fun s =>
       Session (socket_fd s) (strncpy name MAX_USERNAME) (authenticated s)) st).

(** The end of [client_worker], after the loop. *)
Definition worker_exit (session : ptr) : prog unit :=
  emit (Close session) ;;;
  s <- read (fun st => deref st session) ;;
  (if authenticated s
   then emit (Stdout (lit "User " ++ c_str (username s) ++ lit " disconnected" ++ [LF]))
   else Ret tt) ;;;
  remove_client session ;;;
  write (fun st => set_heap st (delete session (heap st))).

(** One accepted connection in [accept_loop]: calloc, the socket, the list;
    the worker thread then starts on the returned session. *)
Definition accept_connection (client_fd : Z) : prog ptr :=
  session <- Step (fun st =>
               let p := fresh (dom (heap st)) in
               (p, set_heap st (<[p := Session client_fd (replicate MAX_USERNAME NUL) false]>
                                  (heap st)))) Ret ;;
  add_client session ;;;
  emit (Stdout (lit "Incoming connection accepted" ++ [LF])) ;;;
  Ret session.

(** The loop of [client_worker] with nothing else running: [fuel] bounds
    the number of lines read. *)
Fixpoint worker_loop (fuel : nat) (session : ptr) (fd : ReadLine.stream)
    (st : server) : server * list event * ReadLine.stream :=
  match fuel with
  | O => (st, [], fd)
  | S fuel' =>
      if server_running st then
        let '(len, buffer, fd') := ReadLine.read_line fd LINE_SIZE in
        if len <=? 0 then (st, [], fd')
        else
          let '(fl, st', tr) := run (handle_line session (c_str buffer)) st in
          match fl with
          | Break => (st', tr, fd')
          | Continue =>
              let '(st'', tr', fd'') := worker_loop fuel' session fd' st' in
              (st'', tr ++ tr', fd'')
          end
      else (st, [], fd)
  end.

(** [client_worker] on a connection that delivers [fd]: every line read
    consumes a byte, so the length of the stream is fuel enough. *)
Definition client_worker (session : ptr) (fd : ReadLine.stream) (st : server)
    : server * list event * ReadLine.stream :=
  let '(_, st0, tr0) := run (send_formatted session (lit "WELCOME Provide AUTH <username>")) st in
  let '(st1, tr1, fd1) := worker_loop (S (length (ReadLine.pending fd))) session fd st0 in
  let '(_, st2, tr2) := run (worker_exit session) st1 in
  (st2, tr0 ++ tr1 ++ tr2, fd1).

End Functions.

(** *** Reading a trace *)

(** The lines put on the wire, with the session they went to. *)
Fixpoint sends (tr : list event) : list (ptr * text) :=
  match tr with
  | [] => []
  | Io (Send p data) :: rest => (p, data) :: sends rest
  | _ :: rest => sends rest
  end.





(** ** Properties of the registry *)

(** The session heap and the client list are the same in both states. *)
Definition same_registry (st st' : server) : Prop :=
  heap st' = heap st /\ clients_head st' = clients_head st.

(** Code none of whose steps touches the heap or the list. *)
Inductive keeps_registry {R : Type} : prog R -> Prop :=
| keeps_ret r : keeps_registry (Ret r)
| keeps_acquire m k : keeps_registry k -> keeps_registry (Acquire m k)
| keeps_release m k : keeps_registry k -> keeps_registry (Release m k)
| keeps_step {A : Type} (f : server -> A * server) k :
    (forall st, same_registry st (f st).2) ->
    (forall a, keeps_registry (k a)) ->
    keeps_registry (Step f k)
| keeps_emit e k : keeps_registry k -> keeps_registry (Emit e k).

(** The list has no repeated node and holds exactly the allocated
    sessions; names of authenticated sessions are pairwise distinct; every
    stored name is NUL-terminated inside its array. *)
Record registry_ok (st : server) : Prop := {
  ok_nodup : NoDup (clients_head st);
  ok_live : forall p, In p (clients_head st) <-> is_Some (heap st !! p);
  ok_unique : forall p q sp sq,
    heap st !! p = Some sp -> heap st !! q = Some sq ->
    authenticated sp = true -> authenticated sq = true ->
    c_str (username sp) = c_str (username sq) -> p = q;
  ok_fits : forall p s,
    heap st !! p = Some s -> (length (c_str (username s)) < MAX_USERNAME)%nat
}.

End Server.

(** ** Threads: interleavings under the mutexes *)

Module Machine.

Import Server.

(** Threads are numbered in the order of the thread list. *)
Abbreviation tid := nat.

(** The threads' remaining code, the shared memory, who holds each mutex,
    and the events so far with the thread that caused them. *)
Record config (R : Type) := Config {
  shared : server;
  owner : mutex -> option tid;
  threads : list (prog R);
  trace : list (tid * event)
}.

Arguments Config {R} _ _ _ _.
Arguments shared {R} _.
Arguments owner {R} _ _.
Arguments threads {R} _.
Arguments trace {R} _.

Definition set_owner (o : mutex -> option tid) (m : mutex) (v : option tid)
    : mutex -> option tid :=
  fun m' => if decide (m' = m) then v else o m'.

(** Thread [t] performs its next operation, if it has one and is not
    waiting for a mutex. *)
Definition exec {R : Type} (t : tid) (c : config R) : option (config R) :=
  match threads c !! t with
  | None => None
  | Some (Ret _) => None
  | Some (Acquire m k) =>
      match owner c m with
      | Some _ => None
      | None =>
          Some (Config (shared c) (set_owner (owner c) m (Some t))
                       (<[t := k]> (threads c)) (trace c ++ [(t, Locked m)]))
      end
  | Some (Release m k) =>
      Some (Config (shared c) (set_owner (owner c) m None)
                   (<[t := k]> (threads c)) (trace c ++ [(t, Unlocked m)]))
  | Some (Step f k) =>
      let '(a, st') := f (shared c) in
      Some (Config st' (owner c) (<[t := k a]> (threads c)) (trace c))
  | Some (Emit e k) =>
      Some (Config (shared c) (owner c) (<[t := k]> (threads c))
                   (trace c ++ [(t, Io e)]))
  end.

(** The scheduler picks threads in the order of [sched]; a pick of a thread
    that cannot move leaves the configuration as it is. *)
Fixpoint run_schedule {R : Type} (sched : list tid) (c : config R) : config R :=
  match sched with
  | [] => c
  | t :: rest =>
      match exec t c with
      | Some c' => run_schedule rest c'
      | None => run_schedule rest c
      end
  end.

(** Every pick of [sched] is a move. *)
Fixpoint all_moves {R : Type} (sched : list tid) (c : config R) : Prop :=
  match sched with
  | [] => True
  | t :: rest =>
      match exec t c with
      | Some c' => all_moves rest c'
      | None => False
      end
  end.

Definition finished {R : Type} (p : prog R) : bool :=
  match p with
  | Ret _ => true
  | _ => false
  end.

Definition all_finished {R : Type} (c : config R) : bool :=
  forallb finished (threads c).

(** The lines sent on the socket of [session], in order. *)
Definition sent_to (session : ptr) (tr : list (tid * event)) : list text :=
  omap (fun te => match snd te with
                  | Io (Send p data) => if decide (p = session) then Some data else None
                  | _ => None
                  end) tr.

Definition no_owner : mutex -> option tid := fun _ => None.

End Machine.

(** ** One AUTH per thread, all for the same name *)

Module AuthRace.

Import Server Machine.

(** Reading the lock events of a trace: who holds [m] after each event,
    [None] as soon as [m] is taken while held or released by a thread that
    does not hold it. *)
Definition lock_step (m : mutex) (h : option (option tid)) (te : tid * event)
    : option (option tid) :=
  match h with
  | None => None
  | Some holder =>
      match te.2 with
      | Locked m' =>
          if decide (m' = m)
          then match holder with None => Some (Some te.1) | Some _ => None end
          else h
      | Unlocked m' =>
          if decide (m' = m)
          then match holder with
               | Some t0 => if decide (te.1 = t0) then Some None else None
               | None => None
               end
          else h
      | Io _ => h
      end
  end.

Definition holder (m : mutex) (tr : list (tid * event)) : option (option tid) :=
  fold_left (lock_step m) tr (Some None).

(** The critical sections on [m] never overlap in the trace. *)
Definition exclusive (m : mutex) (tr : list (tid * event)) : bool :=
  match holder m tr with
  | Some _ => true
  | None => false
  end.

(** Where a thread stands in the AUTH branch of [client_worker]. *)
Inductive send_stage := SendLock | SendEmit | SendUnlock.

Inductive pc :=
| AtStart                                  (* if (!session->authenticated) *)
| AtLock                                   (* pthread_mutex_lock(&clients_lock) *)
| AtCheck                                  (* username_available(username) *)
| AtCopy                                   (* strncpy(session->username, ...) *)
| AtSet                                    (* session->authenticated = true *)
| AtUnlock (ok : bool)                     (* pthread_mutex_unlock(&clients_lock) *)
| AtName                                   (* the %s of the reply *)
| AtSend (ok : bool) (stage : send_stage)  (* send_formatted(session, ...) *)
| AtDone (ok : bool).                      (* continue *)

Section Code.

Context `{Storage.SqlEngine}.

(** The server before the race, the name, and the sessions of the racing
    workers in thread order. *)
Variables (st0 : server) (u : text) (sessions : list ptr).

Definition reply (ok : bool) : text :=
  if ok then lit "OK Authenticated as " ++ u else lit "ERROR Username taken".

Definition code_send (s : ptr) (ok : bool) (stage : send_stage) : prog flow :=
  match stage with
  | SendLock =>
      Acquire (send_lock s)
        (Emit (Send s (frame (reply ok))) (Release (send_lock s) (Ret Continue)))
  | SendEmit => Emit (Send s (frame (reply ok))) (Release (send_lock s) (Ret Continue))
  | SendUnlock => Release (send_lock s) (Ret Continue)
  end.

Definition code_name (s : ptr) : prog flow :=
  me <- my_username s ;;
  send_formatted s (lit "OK Authenticated as " ++ me) ;;;
  Ret Continue.

Definition code_unlock (s : ptr) (ok : bool) : prog flow :=
  Release clients_lock (if ok then code_name s else code_send s false SendLock).

Definition code_set (s : ptr) : prog flow :=
  write (update_session s (fun x => Session (socket_fd x) (username x) true)) ;;;
  code_unlock s true.

Definition code_copy (s : ptr) : prog flow :=
  write (update_session s (fun x =>
    Session (socket_fd x) (strncpy u MAX_USERNAME) (authenticated x))) ;;;
  code_set s.

Definition code_check (s : ptr) : prog flow :=
  available <- read (fun st => username_available st u) ;;
  if available : bool then code_copy s else code_unlock s false.

(** The code a thread at [p] has left to run. *)
Definition code_at (s : ptr) (p : pc) : prog flow :=
  match p with
  | AtStart => handle_line s (lit "AUTH " ++ u)
  | AtLock => Acquire clients_lock (code_check s)
  | AtCheck => code_check s
  | AtCopy => code_copy s
  | AtSet => code_set s
  | AtUnlock ok => code_unlock s ok
  | AtName => code_name s
  | AtSend ok stage => code_send s ok stage
  | AtDone _ => Ret Continue
  end.

(** What a program point says about the thread and its session. *)
Definition won (p : pc) : bool :=
  match p with
  | AtUnlock true | AtName | AtSend true _ | AtDone true => true
  | _ => false
  end.

Definition named (p : pc) : bool :=
  match p with
  | AtSet => true
  | _ => won p
  end.

Definition lost (p : pc) : bool :=
  match p with
  | AtUnlock false | AtSend false _ | AtDone false => true
  | _ => false
  end.

Definition deciding (p : pc) : bool :=
  match p with
  | AtCopy | AtSet => true
  | _ => false
  end.

Definition in_cs (p : pc) : bool :=
  match p with
  | AtCheck | AtCopy | AtSet | AtUnlock _ => true
  | _ => false
  end.

Definition in_send (p : pc) : bool :=
  match p with
  | AtSend _ SendEmit | AtSend _ SendUnlock => true
  | _ => false
  end.

Definition sent (p : pc) : list text :=
  match p with
  | AtSend ok SendUnlock | AtDone ok => [frame (reply ok)]
  | _ => []
  end.

(** The operations a thread at [p] has left at most. *)
Definition rank (p : pc) : nat :=
  match p with
  | AtStart => 10
  | AtLock => 9
  | AtCheck => 8
  | AtCopy => 7
  | AtSet => 6
  | AtUnlock true => 5
  | AtName => 4
  | AtUnlock false => 4
  | AtSend _ SendLock => 3
  | AtSend _ SendEmit => 2
  | AtSend _ SendUnlock => 1
  | AtDone _ => 0
  end.

Definition total_rank (pcs : list pc) : nat := sum_list (map rank pcs).

(** The threads of the race: one worker per session, each about to handle
    the line [AUTH u]. *)
Definition start : config flow :=
  Config st0 no_owner (map (fun s => handle_line s (lit "AUTH " ++ u)) sessions) [].

(** The session of a thread as the heap must hold it at [p]. *)
Definition expected (s : ptr) (p : pc) : client_session :=
  Session (socket_fd (deref st0 s))
          (if named p then strncpy u MAX_USERNAME else username (deref st0 s))
          (won p).

(** The mutexes a thread at [p] holds. *)
Definition held_by (p : pc) (s : ptr) (m : mutex) : bool :=
  match m with
  | clients_lock => in_cs p
  | send_lock s' => in_send p && bool_decide (s' = s)
  | storage_lock => false
  end.

(** How a configuration of the race and the program points of its threads
    fit together. *)
Record inv (c : config flow) (pcs : list pc) : Prop := {
  inv_threads : threads c = zip_with code_at sessions pcs;
  inv_len : length pcs = length sessions;
  inv_heap : forall t s p, sessions !! t = Some s -> pcs !! t = Some p ->
    heap (shared c) !! s = Some (expected s p);
  inv_frame : forall q, ~ In q sessions -> heap (shared c) !! q = heap st0 !! q;
  inv_list : clients_head (shared c) = clients_head st0;
  inv_owner : forall m t,
    owner c m = Some t <->
    exists s p, sessions !! t = Some s /\ pcs !! t = Some p /\ held_by p s m = true;
  inv_sent : forall t s p, sessions !! t = Some s -> pcs !! t = Some p ->
    sent_to s (trace c) = sent p;
  inv_holder : holder clients_lock (trace c) = Some (owner c clients_lock);
  inv_deciding : forall t p, pcs !! t = Some p -> deciding p = true ->
    forall t' p', pcs !! t' = Some p' -> won p' = false;
  inv_lost : forall t p, pcs !! t = Some p -> lost p = true ->
    exists t' p', pcs !! t' = Some p' /\ won p' = true;
  inv_winner : forall t t' p p', pcs !! t = Some p -> pcs !! t' = Some p' ->
    won p = true -> won p' = true -> t = t'
}.

End Code.

End AuthRace.

(** ** The life of the server, one operation at a time *)

Module Lifecycle.

Import Server Storage.

(** What happens to the shared memory between start and shutdown, each
    operation run to its end before the next starts. *)
Inductive operation :=
| Accept (client_fd : Z)                  (* accept_loop takes a connection *)
| Line (session : ptr) (buffer : text)    (* a worker read this line *)
| Exit (session : ptr)                    (* a worker left its loop *)
| Environment (s : engine_status) (errmsg : text) (clock : Z) (running : bool).

Section Operations.

Context `{SqlEngine}.

(** The server when [main] enters [accept_loop], on the store it opened. *)
Definition started (d : db) : server :=
  Srv ∅ [] (Store d [] Healthy [] 0) true.

(** A worker exists for a session from its allocation to its release. *)
Definition live (st : server) (session : ptr) : bool :=
  bool_decide (is_Some (heap st !! session)).

Definition apply (st : server) (op : operation) : server :=
  match op with
  | Accept client_fd => (run (accept_connection client_fd) st).1.2
  | Line session buffer =>
      if live st session then (run (handle_line session (c_str buffer)) st).1.2 else st
  | Exit session =>
      if live st session then (run (worker_exit session) st).1.2 else st
  | Environment s errmsg clock running =>
      Srv (heap st) (clients_head st)
          (Store (table (storage st)) (last_error (storage st)) s errmsg clock)
          running
  end.

Definition after (d : db) (ops : list operation) : server :=
  fold_left apply ops (started d).

End Operations.

End Lifecycle.

(** ** Concrete stores and servers *)

Module Scenario.

Import Server Storage.

Definition alice : text := lit "alice".
Definition bob : text := lit "bob".
Definition carol : text := lit "carol".
Definition hello : text := lit "Hello".

(** An empty, working store at second 1000. *)
Definition working_store : store := Store empty_db [] Healthy [] 1000.

(** Two messages of one conversation stored within the same second. *)
Definition same_second_store : store :=
  Store (Db [Message 1 alice bob hello 1000; Message 2 bob alice hello 1000] 2)
        [] Healthy [] 1000.

(** A store whose next statement fails in sqlite3_step. *)
Definition failing_store : store :=
  Store empty_db [] (StepError 0) (lit "disk I/O error") 1000.

Definition zeroed : text := replicate MAX_USERNAME NUL.

(** One accepted connection, not yet authenticated. *)
Definition lobby : server :=
  Srv {[ 0%nat := Session 4 zeroed false ]} [0%nat] working_store true.

(** alice (session 0) and bob (session 1) authenticated; session 2 accepted. *)
Definition chat (sto : store) : server :=
  Srv (<[ 0%nat := Session 4 (strncpy alice MAX_USERNAME) true ]>
       (<[ 1%nat := Session 5 (strncpy bob MAX_USERNAME) true ]>
        {[ 2%nat := Session 6 zeroed false ]}))
      [2%nat; 1%nat; 0%nat] sto true.

(** Two accepted connections, neither authenticated, on a fresh server. *)
Definition two_waiting : server :=
  Srv (<[ 1%nat := Session 5 zeroed false ]> {[ 0%nat := Session 4 zeroed false ]})
      [1%nat; 0%nat] (Store empty_db [] Healthy [] 0) true.

(** Workers 0 and 1 are scheduled in turn, twelve rounds. *)
Definition alternating : list nat := concat (replicate 12 [0%nat; 1%nat]).

End Scenario.

(** ** The order in which the mutexes are taken *)

Module Discipline.

Import Server.

Definition is_send_lock (m : mutex) : bool :=
  match m with
  | send_lock _ => true
  | _ => false
  end.

(** Whether a thread holding [held] (innermost first) keeps to the order
    when it takes [m]: [clients_lock] and [storage_lock] are taken with
    nothing held, a send lock with no other send lock held. *)
Definition may_take (m : mutex) (held : list mutex) : bool :=
  if is_send_lock m then forallb (fun x => negb (is_send_lock x)) held
  else match held with
       | [] => true
       | _ => false
       end.

(** One event of a thread against the mutexes it holds: a lock in order,
    an unlock of the innermost mutex, a send under the send lock of the
    session written to. *)
Definition lock_event (held : option (list mutex)) (e : event) : option (list mutex) :=
  match held with
  | None => None
  | Some s =>
      match e with
      | Locked m => if may_take m s then Some (m :: s) else None
      | Unlocked m =>
          match s with
          | m' :: s' => if decide (m' = m) then Some s' else None
          | [] => None
          end
      | Io (Send p _) =>
          match s with
          | m' :: _ => if decide (m' = send_lock p) then Some s else None
          | [] => None
          end
      | Io _ => Some s
      end
  end.

(** The mutexes held after the events of [tr], if [tr] keeps to the
    discipline. *)
Definition lock_discipline (held : list mutex) (tr : list event) : option (list mutex) :=
  fold_left lock_event tr (Some held).

(** Code that keeps to the discipline whatever it reads from memory,
    starting with [s] held and ending with [s'] held. *)
Inductive nested {R : Type} : list mutex -> list mutex -> prog R -> Prop :=
| nested_ret s r : nested s s (Ret r)
| nested_acquire s s' m k :
    may_take m s = true -> nested (m :: s) s' k -> nested s s' (Acquire m k)
| nested_release s s' m k : nested s s' k -> nested (m :: s) s' (Release m k)
| nested_step {A : Type} s s' (f : server -> A * server) k :
    (forall a, nested s s' (k a)) -> nested s s' (Step f k)
| nested_send s s' p d k :
    nested (send_lock p :: s) s' k -> nested (send_lock p :: s) s' (Emit (Send p d) k)
| nested_emit s s' e k :
    (forall p d, e <> Send p d) -> nested s s' k -> nested s s' (Emit e k).

Definition no_send_lock (s : list mutex) : Prop :=
  forallb (fun x => negb (is_send_lock x)) s = true.

(** What [nested] says of each form of code. *)
Definition nested_inv {R : Type} (s s' : list mutex) (p : prog R) : Prop :=
  match p with
  | Ret _ => s = s'
  | Acquire m k => may_take m s = true /\ nested (m :: s) s' k
  | Release m k => exists s0, s = m :: s0 /\ nested s0 s' k
  | Step f k => forall a, nested s s' (k a)
  | Emit e k => nested s s' k
  end.

(** Everything a piece of code puts out satisfies [P]. *)
Inductive emits {R : Type} (P : io -> Prop) : prog R -> Prop :=
| emits_ret r : emits P (Ret r)
| emits_acquire m k : emits P k -> emits P (Acquire m k)
| emits_release m k : emits P k -> emits P (Release m k)
| emits_step {A : Type} (f : server -> A * server) k :
    (forall a, emits P (k a)) -> emits P (Step f k)
| emits_emit e k : P e -> emits P k -> emits P (Emit e k).

(** The output events of a trace. *)
Definition outputs (tr : list event) : list io :=
  omap (fun e => match e with Io x => Some x | _ => None end) tr.

(** Threads that keep to the discipline, with the mutexes each holds:
    how the owners, the stacks and the lock events of the trace fit. *)
Record orderly (c : Machine.config flow) (stacks : list (list mutex)) : Prop := {
  ord_len : length stacks = length (Machine.threads c);
  ord_code : forall t p s,
    Machine.threads c !! t = Some p -> stacks !! t = Some s -> nested s [] p;
  ord_owner : forall m t,
    Machine.owner c m = Some t <-> exists s, stacks !! t = Some s /\ In m s;
  ord_nodup : forall t s, stacks !! t = Some s -> List.NoDup s;
  ord_holder : forall m,
    AuthRace.holder m (Machine.trace c) = Some (Machine.owner c m)
}.

End Discipline.

(** ** What a command puts out *)

Module Output.

Import Server Discipline.

(** A buffer as [send_formatted] sends it: at most 2047 bytes, ending in a
    newline unless it fills the 2047 bytes. *)
Definition framed (d : text) : bool :=
  (length d <=? 2047)%nat && (Ascii.eqb (List.last d NUL) LF || (length d =? 2047)%nat).

(** What the handling of a command may put out: framed lines on sockets
    and diagnostics on stderr. *)
Definition command_output (e : io) : Prop :=
  match e with
  | Send _ d => framed d = true
  | Stderr _ => True
  | Stdout _ => False
  | Close _ => False
  end.

(** The trace ends with a line sent to [session] by [send_formatted]. *)
Definition ends_with_reply (session : ptr) (tr : list event) : Prop :=
  exists before msg,
    tr = before ++ [Locked (send_lock session); Io (Send session msg);
                    Unlocked (send_lock session)].

End Output.

(** ** The lines of a history reply *)

Module Replies.

Import Storage Server.

Section Lines.

Context `{SqlEngine}.

(** The text [history_emit] formats for a row. *)
Definition history_line (row : message) : text :=
  lit "HISTORY " ++ datetime (created_at row) ++ lit " " ++ sender row
  ++ lit " " ++ body row.

(** The last line of the reply to GET. *)
Definition history_status (rc : Z) (rows : list message) (err other : text) : text :=
  if negb (rc =? 0) then lit "ERROR Failed to query history: " ++ err
  else match rows with
       | [] => lit "INFO No messages with " ++ other
       | _ => lit "OK History end"
       end.

End Lines.

End Replies.

(** ** The sockets a trace closes *)

Module Closing.

Import Server.

(** The sessions whose socket the events close, in order. *)
Definition closes (tr : list event) : list ptr :=
  omap (fun e => match e with Io (Close p) => Some p | _ => None end) tr.

(** The names of the authenticated sessions, in list order. *)
Definition user_names (st : server) : list text :=
  omap (fun p =>
          match heap st !! p with
          | Some s => if authenticated s then Some (c_str (username s)) else None
          | None => None
          end) (clients_head st).

End Closing.

(** ** client.c *)

Module Client.

Import CStr ReadLine.

Definition MAX_USERNAME : nat := 32.

(** [send_command]: the bytes written to the socket for the formatted
    text [msg]. vsnprintf keeps 2047 characters; a buffer that is full is
    cut to 2046 so that the newline fits. *)
Definition send_command (msg : text) : text :=
  let buffer := take 2047 msg in
  let len := if (2047 <=? length buffer)%nat then 2046%nat else length buffer in
  take len buffer ++ [LF].

(** What [handle_server_line] does: one [safe_print], and whether
    [running] is cleared. *)
Record reaction := Reaction { printed : text; stops : bool }.

(** [handle_server_line], on the line buffer as [read_line] left it: the
    line, its terminator, and whatever earlier lines left behind it. *)
Definition handle_server_line (line : text) : reaction :=
  if strncmp_eq line (lit "MESSAGE ") 8 then
    let payload := drop 8 line in
    match strchr payload SP with
    | Some space =>
        let sender_len :=
          if (MAX_USERNAME <=? space)%nat then (MAX_USERNAME - 1)%nat else space in
        let sender := take sender_len payload in
        let body := c_str (drop (S space) payload) in
        Reaction (lit "Message from " ++ sender ++ lit ": " ++ body ++ [LF]) false
    | None => Reaction (lit "Message: " ++ c_str payload ++ [LF]) false
    end
  else if strncmp_eq line (lit "HISTORY ") 8 then
    Reaction (c_str (drop 8 line) ++ [LF]) false
  else if strncmp_eq line (lit "INFO ") 5 then
    Reaction (c_str (drop 5 line) ++ [LF]) false
  else if strncmp_eq line (lit "ERROR ") 6 then
    Reaction (lit "Server error: " ++ c_str (drop 6 line) ++ [LF]) false
  else if strncmp_eq line (lit "OK") 2 then
    Reaction (c_str line ++ [LF]) false
  else if strncmp_eq line (lit "USER ") 5 then
    Reaction (lit "User: " ++ c_str (drop 5 line) ++ [LF]) false
  else if strncmp_eq line (lit "USERS_BEGIN") 11 then
    Reaction (lit "Active users:" ++ [LF]) false
  else if strncmp_eq line (lit "USERS_END") 9 then
    Reaction (lit "-- end of list --" ++ [LF]) false
  else if strncmp_eq line (lit "BYE") 3 then
    Reaction (lit "Disconnected by server" ++ [LF]) true
  else if strncmp_eq line (lit "SHUTDOWN") 8 then
    Reaction (c_str (drop 9 line) ++ [LF]) true
  else if strncmp_eq line (lit "WELCOME") 7 then
    Reaction (c_str line ++ [LF]) false
  else
    Reaction (lit "Server: " ++ c_str line ++ [LF]) false.

(** The line buffer after [read_line] has put [buf] and the terminator in
    it. *)
Definition store_line (old buf : text) : text :=
  buf ++ NUL :: drop (S (length buf)) old.

(** One turn of the input loop of [main]. *)
Inductive action :=
| Command (wire : text)     (* send_command, and go on *)
| Leave (wire : text)       (* send_command, running = 0, break *)
| Say (msg : text)          (* printf, and go on *)
| Skip.                     (* continue *)

(** The input line with its newline replaced by the terminator. *)
Definition chomp (input : text) : text :=
  match rev input with
  | c :: before => if Ascii.eqb c LF then rev before else input
  | [] => input
  end.

(** The body of the input loop, for the bytes [getline] returned. *)
Definition client_command (input : text) : action :=
  let input := chomp input in
  if strncmp_eq input (lit "sendmessage ") 12 then
    let rest := drop 12 input in
    match strchr rest SP with
    | None => Say (lit "Usage: sendmessage <user> <message>" ++ [LF])
    | Some space =>
        let target := take space rest in
        let message := c_str (drop (S space) rest) in
        Command (send_command (lit "SEND " ++ target ++ lit " " ++ message))
    end
  else if strncmp_eq input (lit "getmessages ") 12 then
    Command (send_command (lit "GET " ++ c_str (drop 12 input)))
  else if strncmp_eq input (lit "deletemessages ") 15 then
    Command (send_command (lit "DELETE " ++ c_str (drop 15 input)))
  else if strcmp_eq input (lit "getuserlist") then
    Command (send_command (lit "USERS"))
  else if strcmp_eq input (lit "quit") then
    Leave (send_command (lit "QUIT"))
  else if strlen input =? 0 then Skip
  else
    Say (lit "Unknown command. Use sendmessage/getmessages/deletemessages/getuserlist/quit"
         ++ [LF]).

(** The bytes an action puts on the socket. *)
Definition wire_of (a : action) : text :=
  match a with
  | Command w | Leave w => w
  | _ => []
  end.

End Client.

(** ** The end of main *)

Module Shutdown.

Import Server.

Section Main.

Context `{Storage.SqlEngine}.



End Main.

End Shutdown.

(** ** storage.c without SQLite: the log file *)

Module FlatFile.

Import CStr.

Definition BAR : char := "|"%char.

(** [(int)] of a [size_t]. *)
Definition cast_int (z : Z) : Z := (z + 2 ^ 31) mod 2 ^ 32 - 2 ^ 31.

(** The bytes [fgets] takes when it may store [k] of them: up to and
    including the first newline. *)
Fixpoint fgets_read (k : nat) (input : list char) : list char * list char :=
  match k, input with
  | S k', c :: rest =>
      if Ascii.eqb c LF then ([c], rest)
      else let '(got, more) := fgets_read k' rest in (c :: got, more)
  | _, _ => ([], input)
  end.

(** [fgets(s, size, stream)]: NULL when [size] is not positive or the file
    is at its end; the bytes stored and the bytes left otherwise. *)
Definition fgets (size : Z) (input : list char) : option (list char * list char) :=
  if size <=? 0 then None
  else if size =? 1 then Some ([], input)
  else match input with
       | [] => None
       | _ => Some (fgets_read (Z.to_nat (size - 1)) input)
       end.

(** The loop of [portable_getline]: [n] is the size of the buffer, [acc]
    the line so far, the first [total] bytes of the buffer. A step either
    returns or consumes input;
    [fuel] bounds the steps. Returns the line, the size of the buffer and the bytes left;
    [None] is -1. (malloc and realloc are taken to succeed.) *)
Fixpoint getline_loop (fuel n : nat) (acc : text) (input : list char)
    : option (text * nat * list char) :=
  match fuel with
  | O => None
  | S fuel' =>
      match fgets (cast_int (Z.of_nat (n - length acc))) input with
      | None =>
          if (0 <? length acc)%nat then Some (acc, n, input) else None
      | Some (data, rest) =>
          let acc' := acc ++ c_str data in
          if (0 <? length acc')%nat && Ascii.eqb (List.last acc' NUL) LF
          then Some (acc', n, rest)
          else getline_loop fuel' (n * 2) acc' rest
      end
  end.

Definition portable_getline (n : nat) (input : list char)
    : option (text * nat * list char) :=
  getline_loop (S (length input)) (if (n =? 0)%nat then 256%nat else n) [] input.

(** [strtok] on what is left of the string: leading delimiters are
    skipped; the token runs to the next delimiter, which is overwritten,
    or to the end. Returns the token and what is left for the next call;
    [None] is NULL. *)
Fixpoint skip_delims (delims : list char) (s : text) : text :=
  match s with
  | c :: rest => if bool_decide (c ∈ delims) then skip_delims delims rest else s
  | [] => []
  end.

Fixpoint token_end (delims : list char) (s : text) : text * text :=
  match s with
  | c :: rest =>
      if bool_decide (c ∈ delims) then ([], rest)
      else let '(tok, more) := token_end delims rest in (c :: tok, more)
  | [] => ([], [])
  end.

Definition strtok (s : text) (delims : list char) : option (text * text) :=
  match skip_delims delims (c_str s) with
  | [] => None
  | s' => Some (token_end delims s')
  end.

(** One line of the log, split as [storage_fetch_conversation] does:
    timestamp, sender, receiver, body. *)
Definition parse_line (line : text) : option (text * text * text * text) :=
  match strtok line [BAR] with
  | None => None
  | Some (ts, s1) =>
      match strtok s1 [BAR] with
      | None => None
      | Some (sender, s2) =>
          match strtok s2 [BAR] with
          | None => None
          | Some (receiver, s3) =>
              match strtok s3 [LF] with
              | None => None
              | Some (body, _) => Some (ts, sender, receiver, body)
              end
          end
      end
  end.

(** The test both functions make on sender and receiver. *)
Definition pair_matches (user_a user_b sender receiver : text) : bool :=
  (strcmp_eq sender user_a && strcmp_eq receiver user_b)
  || (strcmp_eq sender user_b && strcmp_eq receiver user_a).

(** The log file and what the environment decides: whether the log, the
    temporary file and the rename can be had, and the text of errno. *)
Record disk := Disk {
  log : list char;
  log_opens : bool;
  tmp_opens : bool;
  rename_works : bool;
  strerror : text;
  last_error : text
}.

Definition set_error (prefix detail : text) (d : disk) : disk :=
  Disk (log d) (log_opens d) (tmp_opens d) (rename_works d) (strerror d)
       (take (Storage.MAX_ERROR_LEN - 1) (prefix ++ c_str detail)).

Definition with_log (d : disk) (content : list char) : disk :=
  Disk content (log_opens d) (tmp_opens d) (rename_works d) (strerror d) (last_error d).

(** [storage_store_message]; [ts] is what [format_timestamp] wrote. *)
Definition storage_store_message (ts : text) (d : disk) (sender receiver body : text)
    : Z * disk :=
  if log_opens d then
    (0, with_log d (log d ++ c_str ts ++ [BAR] ++ c_str sender ++ [BAR]
                    ++ c_str receiver ++ [BAR] ++ c_str body ++ [LF]))
  else (-1, set_error (lit "Failed to append to log: ") (strerror d) d).

(** The reading loop of [storage_fetch_conversation]: the calls of the
    callback, in order. *)
Fixpoint fetch_loop (fuel n : nat) (user_a user_b : text) (input : list char)
    : list (text * text * text) :=
  match fuel with
  | O => []
  | S fuel' =>
      match portable_getline n input with
      | None => []
      | Some (line, n', rest) =>
          match parse_line line with
          | Some (ts, sender, receiver, body) =>
              if pair_matches user_a user_b sender receiver
              then (ts, sender, body) :: fetch_loop fuel' n' user_a user_b rest
              else fetch_loop fuel' n' user_a user_b rest
          | None => fetch_loop fuel' n' user_a user_b rest
          end
      end
  end.

Definition storage_fetch_conversation (d : disk) (user_a user_b : text)
    : Z * list (text * text * text) * disk :=
  if log_opens d then
    (0, fetch_loop (S (length (log d))) 0 (c_str user_a) (c_str user_b) (log d), d)
  else (-1, [], set_error (lit "Failed to read log: ") (strerror d) d).

(** The copying loop of [storage_delete_conversation]: what goes into the
    temporary file. (strdup is taken to succeed.) *)
Definition delete_matches (user_a user_b line : text) : bool :=
  match strtok line [BAR] with
  | None => false
  | Some (_, s1) =>
      match strtok s1 [BAR] with
      | None => false
      | Some (sender, s2) =>
          match strtok s2 [BAR] with
          | None => false
          | Some (receiver, _) => pair_matches user_a user_b sender receiver
          end
      end
  end.

Fixpoint delete_loop (fuel n : nat) (user_a user_b : text) (input : list char)
    : list char :=
  match fuel with
  | O => []
  | S fuel' =>
      match portable_getline n input with
      | None => []
      | Some (line, n', rest) =>
          if delete_matches user_a user_b line
          then delete_loop fuel' n' user_a user_b rest
          else line ++ delete_loop fuel' n' user_a user_b rest
      end
  end.

(** [storage_delete_conversation] (the test of the path length cannot
    fail for a path that fits [storage_path]). *)
Definition storage_delete_conversation (d : disk) (user_a user_b : text) : Z * disk :=
  if negb (log_opens d) then (-1, set_error (lit "Failed to read log: ") (strerror d) d)
  else if negb (tmp_opens d) then
    (-1, set_error (lit "Failed to open temp log: ") (strerror d) d)
  else if negb (rename_works d) then
    (-1, set_error (lit "Failed to replace log file: ") (strerror d) d)
  else
    (0, with_log d (delete_loop (S (length (log d))) 0 (c_str user_a) (c_str user_b) (log d))).

(** A file made of complete lines. *)
Definition file_of (lines : list text) : list char :=
  concat (map (fun l => l ++ [LF]) lines).

(** What the callback gets for one line of the log: nothing unless the
    line splits into four fields and is between the two users. *)
Definition wanted (user_a user_b line : text) : list (text * text * text) :=
  match parse_line line with
  | Some (ts, sender, receiver, body) =>
      if pair_matches user_a user_b sender receiver then [(ts, sender, body)] else []
  | None => []
  end.

(** The sizes [portable_getline] works with when no line is longer than
    [longest]: the buffer as the loops find it, and the lines of a file. *)
Definition sized (longest n : nat) : Prop :=
  (n = 0%nat \/ (2 <= n)%nat) /\ Z.of_nat n <= Z.max 256 (2 * (Z.of_nat longest + 1)).

Definition well_formed (longest : nat) (lines : list text) : Prop :=
  Forall (fun l => (NUL ∉ l) /\ (LF ∉ l) /\ (length l <= longest)%nat) lines.

End FlatFile.

(** * Properties *)

Import Server Storage ReadLine Machine AuthRace Lifecycle Scenario.

(** ** read_line and carriage returns *)

Section ReadLineFacts.

Variables (max_len : Z) (cl : closed).

Lemma read_line_loop_full input buf :
  (Z.of_nat (length buf) <? (max_len - 1) mod size_max) = false ->
  read_line_loop max_len cl input buf = (Z.of_nat (length buf), buf, input).
Proof.
  intros Hfull. destruct input; simpl; rewrite Hfull; reflexivity.
Qed.

Lemma read_line_loop_strip input : forall buf,
  read_line_loop max_len cl (strip_cr input) buf =
  (let '(n, b, rest) := read_line_loop max_len cl input buf in (n, b, strip_cr rest)).
Proof.
  induction input as [|c rest IH]; intros buf.
  - simpl. destruct (_ <? _); reflexivity.
  - destruct (Z.of_nat (length buf) <? (max_len - 1) mod size_max) eqn:Hroom.
    + cbn [strip_cr List.filter]. destruct (Ascii.eqb c CR) eqn:Hcr; cbn [negb].
      * fold (strip_cr rest). rewrite IH. simpl. rewrite Hroom, Hcr. reflexivity.
      * fold (strip_cr rest). simpl. rewrite Hroom, Hcr.
        destruct (Ascii.eqb c LF); [reflexivity | apply IH].
    + rewrite !read_line_loop_full by assumption. reflexivity.
Qed.

(** No carriage return ever reaches the buffer. *)
Lemma read_line_loop_no_cr input : forall buf,
  CR ∉ buf -> CR ∉ (read_line_loop max_len cl input buf).1.2.
Proof.
  induction input as [|c rest IH]; intros buf Hbuf; simpl.
  - destruct (_ <? _); exact Hbuf.
  - destruct (_ <? _); [|exact Hbuf].
    destruct (Ascii.eqb c CR) eqn:Hcr; [apply IH, Hbuf|].
    destruct (Ascii.eqb c LF); [exact Hbuf|].
    apply IH. rewrite elem_of_app, list_elem_of_singleton.
    intros [Hin | Heq]; [exact (Hbuf Hin)|]. subst c.
    rewrite Ascii.eqb_refl in Hcr. discriminate.
Qed.

(** A line of positive length costs at least one byte of the stream. *)
Lemma read_line_loop_consumes input : forall buf,
  let '(n, _, rest) := read_line_loop max_len cl input buf in
  (length rest <= length input)%nat /\
  ((length rest < length input)%nat \/ n <= Z.of_nat (length buf)).
Proof.
  induction input as [|c rest IH]; intros buf; simpl.
  - destruct (_ <? _); simpl; destruct cl; simpl; lia.
  - destruct (_ <? _); [|simpl; lia].
    destruct (Ascii.eqb c CR).
    + specialize (IH buf). destruct (read_line_loop _ _ rest buf) as [[n b] r]. lia.
    + destruct (Ascii.eqb c LF); [simpl; lia|].
      specialize (IH (buf ++ [c])).
      destruct (read_line_loop _ _ rest (buf ++ [c])) as [[n b] r]. lia.
Qed.

End ReadLineFacts.

Lemma read_line_strip fd max_len :
  read_line (strip_cr_stream fd) max_len =
  (let '(n, buf, fd') := read_line fd max_len in (n, buf, strip_cr_stream fd')).
Proof.
  unfold read_line, strip_cr_stream. simpl.
  rewrite read_line_loop_strip.
  destruct (read_line_loop _ _ _ _) as [[n b] r]. reflexivity.
Qed.

Lemma read_line_consumes fd max_len n buf fd' :
  read_line fd max_len = (n, buf, fd') -> 0 < n ->
  (length (pending fd') < length (pending fd))%nat.
Proof.
  unfold read_line. intros Hrd Hpos.
  pose proof (read_line_loop_consumes max_len (closing fd) (pending fd) []) as Hc.
  destruct (read_line_loop _ _ _ _) as [[n0 b] r].
  injection Hrd as <- <- <-. simpl in *. lia.
Qed.

Section WorkerLoopFacts.

Context `{SqlEngine}.

(** Fuel beyond the length of the stream changes nothing. *)
Lemma worker_loop_fuel session : forall fuel1 fuel2 fd st,
  (length (pending fd) < fuel1)%nat -> (length (pending fd) < fuel2)%nat ->
  worker_loop fuel1 session fd st = worker_loop fuel2 session fd st.
Proof.
  induction fuel1 as [|fuel1 IH]; intros fuel2 fd st H1 H2; [lia|].
  destruct fuel2 as [|fuel2]; [lia|].
  cbn [worker_loop].
  destruct (server_running st); [|reflexivity].
  destruct (read_line fd LINE_SIZE) as [[len buffer] fd'] eqn:Hrd.
  destruct (len <=? 0) eqn:Hlen; [reflexivity|].
  destruct (run _ st) as [[fl st'] tr].
  destruct fl; [|reflexivity].
  apply Z.leb_gt in Hlen.
  pose proof (read_line_consumes _ _ _ _ _ Hrd Hlen).
  rewrite (IH fuel2) by lia. reflexivity.
Qed.

Lemma worker_loop_strip session : forall fuel fd st,
  worker_loop fuel session (strip_cr_stream fd) st =
  (let '(st', tr, rest) := worker_loop fuel session fd st in
   (st', tr, strip_cr_stream rest)).
Proof.
  induction fuel as [|fuel IH]; intros fd st; [reflexivity|].
  cbn [worker_loop].
  destruct (server_running st); [|reflexivity].
  rewrite read_line_strip.
  destruct (read_line fd LINE_SIZE) as [[len buffer] fd'].
  destruct (len <=? 0); [reflexivity|].
  destruct (run _ st) as [[fl st'] tr].
  destruct fl; [|reflexivity].
  rewrite IH. destruct (worker_loop fuel session fd' st') as [[st'' tr'] rest].
  reflexivity.
Qed.

Lemma strip_cr_length input : (length (strip_cr input) <= length input)%nat.
Proof. apply List.filter_length_le. Qed.

Lemma client_worker_strip session fd st :
  client_worker session (strip_cr_stream fd) st =
  (let '(st', tr, rest) := client_worker session fd st in
   (st', tr, strip_cr_stream rest)).
Proof.
  unfold client_worker.
  destruct (run (send_formatted session _) st) as [[u st0] tr0].
  rewrite (worker_loop_fuel session _ (S (length (pending fd)))).
  - rewrite worker_loop_strip.
    destruct (worker_loop _ session fd st0) as [[st1 tr1] fd1].
    destruct (run (worker_exit session) st1) as [[u2 st2] tr2]. reflexivity.
  - lia.
  - simpl. pose proof (strip_cr_length (pending fd)). lia.
Qed.

End WorkerLoopFacts.

(** C9. Carriage returns are dropped wherever they occur while a line is
    read: the buffer never holds one, and two byte streams that differ only
    in carriage returns (a command ended by CR LF or by LF alone, or with
    stray CRs inside) give [read_line] the same length and the same line
    and take the worker through the same states and the same events. *)
Theorem read_line_ignores_carriage_returns `{SqlEngine}
    (fd1 fd2 : stream) (session : ptr) (st : server) :
  strip_cr_stream fd1 = strip_cr_stream fd2 ->
  (CR ∉ (read_line fd1 LINE_SIZE).1.2)
  /\ (read_line fd1 LINE_SIZE).1 = (read_line fd2 LINE_SIZE).1
  /\ strip_cr_stream (read_line fd1 LINE_SIZE).2 = strip_cr_stream (read_line fd2 LINE_SIZE).2
  /\ (client_worker session fd1 st).1 = (client_worker session fd2 st).1.
Proof.
  intros Hsame.
  pose proof (read_line_strip fd1 LINE_SIZE) as R1.
  pose proof (read_line_strip fd2 LINE_SIZE) as R2.
  pose proof (client_worker_strip session fd1 st) as W1.
  pose proof (client_worker_strip session fd2 st) as W2.
  rewrite Hsame in R1, W1. rewrite R2 in R1. rewrite W2 in W1. clear R2 W2.
  split.
  { unfold read_line.
    pose proof (read_line_loop_no_cr LINE_SIZE (closing fd1) (pending fd1) []) as Hn.
    destruct (read_line_loop _ _ _ _) as [[n b] r]. simpl in *.
    apply Hn. apply not_elem_of_nil. }
  destruct (read_line fd1 LINE_SIZE) as [[n1 b1] r1].
  destruct (read_line fd2 LINE_SIZE) as [[n2 b2] r2].
  destruct (client_worker session fd1 st) as [[s1 t1] e1].
  destruct (client_worker session fd2 st) as [[s2 t2] e2].
  pose proof (f_equal fst R1) as Rline. pose proof (f_equal snd R1) as Rrest.
  pose proof (f_equal fst W1) as Wrun.
  simpl in *. auto.
Qed.

(** ** The store *)

Section SortFacts.

Let earlier (m1 m2 : message) : Prop := created_at m1 <= created_at m2.

Lemma insert_after_ties_perm m l : Permutation (insert_after_ties m l) (m :: l).
Proof.
  induction l as [|x l IH]; simpl; [reflexivity|].
  destruct (created_at x <=? created_at m); [|reflexivity].
  rewrite IH. apply perm_swap.
Qed.


Lemma insert_after_ties_sorted m l :
  StronglySorted earlier l -> StronglySorted earlier (insert_after_ties m l).
Proof.
  induction 1 as [|x l Hs IH Hx]; simpl.
  - repeat constructor.
  - destruct (created_at x <=? created_at m) eqn:Hle.
    + constructor; [exact IH|].
      eapply Permutation_Forall; [symmetry; apply insert_after_ties_perm|].
      constructor; [unfold earlier; lia | exact Hx].
    + constructor; [constructor; assumption|].
      constructor; [unfold earlier; lia|].
      eapply Forall_impl; [exact Hx|]. unfold earlier. simpl. intros; lia.
Qed.


Lemma fold_insert_perm (ins : message -> list message -> list message) :
  (forall m l, Permutation (ins m l) (m :: l)) ->
  forall rows acc,
    Permutation (fold_left (fun acc m => ins m acc) rows acc) (rows ++ acc).
Proof.
  intros Hins. induction rows as [|m rows IH]; intros acc; simpl; [reflexivity|].
  rewrite IH, Hins. symmetry. apply Permutation_middle.
Qed.

Lemma fold_insert_sorted (ins : message -> list message -> list message) :
  (forall m l, StronglySorted earlier l -> StronglySorted earlier (ins m l)) ->
  forall rows acc, StronglySorted earlier acc ->
    StronglySorted earlier (fold_left (fun acc m => ins m acc) rows acc).
Proof.
  intros Hins. induction rows as [|m rows IH]; intros acc Hacc; simpl; auto.
Qed.

Lemma sort_ties_in_order_perm rows : Permutation (sort_ties_in_order rows) rows.
Proof.
  unfold sort_ties_in_order.
  rewrite (fold_insert_perm _ insert_after_ties_perm), app_nil_r. reflexivity.
Qed.


Lemma sort_ties_in_order_sorted rows : StronglySorted earlier (sort_ties_in_order rows).
Proof. apply fold_insert_sorted; [apply insert_after_ties_sorted | constructor]. Qed.


End SortFacts.

(** Two engines that meet the contract of ORDER BY created_at ASC. *)
Definition table_order_engine : SqlEngine :=
  {| order_by_created_at := sort_ties_in_order;
     datetime := render_seconds;
     order_by_permutation := sort_ties_in_order_perm;
     order_by_sorted := sort_ties_in_order_sorted |}.


Section StoreFacts.

Context `{SqlEngine}.

Lemma where_conversation_sym a b m :
  where_conversation a b m = where_conversation b a m.
Proof. unfold where_conversation. apply orb_comm. Qed.

Lemma max_rowid_ge rows m : In m rows -> id m <= max_rowid rows.
Proof.
  induction rows as [|x rows IH]; simpl; [tauto|].
  intros [-> | Hin]; [lia | specialize (IH Hin); lia].
Qed.

Lemma filter_length_perm {A : Type} (f : A -> bool) (l l' : list A) :
  Permutation l l' -> length (List.filter f l) = length (List.filter f l').
Proof.
  induction 1 as [|x l l' _ IH|x y l|l l' l'' _ IH1 _ IH2]; simpl.
  - reflexivity.
  - destruct (f x); simpl; congruence.
  - destruct (f x), (f y); reflexivity.
  - congruence.
Qed.

Lemma filter_none {A : Type} (f : A -> bool) (l : list A) :
  (forall x, In x l -> f x = false) -> List.filter f l = [].
Proof.
  induction l as [|x l IH]; simpl; intros Hf; [reflexivity|].
  rewrite (Hf x) by auto. apply IH. auto.
Qed.

Lemma sql_select_perm d a b :
  Permutation (sql_select d a b) (List.filter (where_conversation a b) (messages d)).
Proof. apply order_by_permutation. Qed.

Lemma sql_select_sorted d a b :
  StronglySorted (fun m1 m2 => created_at m1 <= created_at m2) (sql_select d a b).
Proof. apply order_by_sorted. Qed.

(** Nothing of a conversation is selected once it was deleted, whichever
    way round the two users are given. *)
Lemma sql_select_deleted d a b x y :
  (x = a /\ y = b) \/ (x = b /\ y = a) ->
  sql_select (sql_delete d a b) x y = [].
Proof.
  intros Hxy. unfold sql_select, sql_delete. simpl.
  apply Permutation_nil. rewrite order_by_permutation.
  rewrite filter_none; [reflexivity|].
  intros m Hin. apply List.filter_In in Hin as [_ Hneg].
  apply negb_true_iff in Hneg.
  destruct Hxy as [[-> ->] | [-> ->]]; [|rewrite where_conversation_sym]; exact Hneg.
Qed.

(** A selected row with a rowid of its own comes out of the query once. *)
Lemma sql_select_appended rows seq m x y :
  where_conversation x y m = true ->
  (forall r, In r rows -> id r <> id m) ->
  let out := sql_select (Db (rows ++ [m]) seq) x y in
  In m out /\ length (List.filter (fun r => bool_decide (id r = id m)) out) = 1%nat.
Proof.
  intros Hwhere Hfresh out. subst out. split.
  - eapply Permutation_in; [symmetry; apply sql_select_perm|].
    cbn [messages]. rewrite List.filter_app. apply in_or_app. right.
    cbn [List.filter]. rewrite Hwhere. left. reflexivity.
  - rewrite (filter_length_perm _ _ _ (sql_select_perm _ _ _)).
    cbn [messages]. rewrite !List.filter_app. cbn [List.filter].
    rewrite Hwhere. cbn [List.filter].
    rewrite bool_decide_eq_true_2 by reflexivity.
    rewrite filter_none; [reflexivity|].
    intros r Hr. apply bool_decide_eq_false_2.
    apply List.filter_In in Hr as [Hr _]. auto.
Qed.


End StoreFacts.

(** On a working store, an append adds [appended_row] at the end of the
    table, and a fetch of the pair, either way round, returns it once. *)
Lemma stored_row_is_fetched `{SqlEngine} (st : store) (a b text : text) :
  status st = Healthy ->
  let st1 := (storage_store_message st a b text).2 in
  let m := appended_row st a b text in
  (storage_store_message st a b text).1 = 0
  /\ messages (table st1) = messages (table st) ++ [m]
  /\ status st1 = Healthy
  /\ forall x y, (x = a /\ y = b) \/ (x = b /\ y = a) ->
       let '(rc, rows, _) := storage_fetch_conversation st1 x y in
       rc = 0 /\ In m rows
       /\ length (List.filter (fun r => bool_decide (id r = id m)) rows) = 1%nat.
Proof.
  intros Hstatus. unfold storage_store_message. rewrite Hstatus. simpl.
  do 3 (split; [first [reflexivity | exact Hstatus]|]).
  intros x y Hxy. unfold storage_fetch_conversation, with_table. simpl.
  rewrite Hstatus.
  assert (Hwhere : where_conversation x y (appended_row st a b text) = true).
  { unfold where_conversation, appended_row. simpl. apply orb_true_iff.
    destruct Hxy as [[-> ->] | [-> ->]]; [left | right];
      apply andb_true_iff; split; apply bool_decide_eq_true_2; reflexivity. }
  split; [reflexivity|].
  apply sql_select_appended; [exact Hwhere|].
  intros r Hr. pose proof (max_rowid_ge _ _ Hr). unfold appended_row. simpl. lia.
Qed.

(** C5. After a successful append(A,B,body) the new record (the row with
    the fresh rowid, carrying A, B and the body) is returned exactly once by
    fetch(A,B) and by fetch(B,A); after a delete of the pair, which then
    succeeds, either fetch returns no row at all. *)
Theorem history_round_trip `{SqlEngine} (st : store) (a b text : text) :
  (storage_store_message st a b text).1 = 0 ->
  let st1 := (storage_store_message st a b text).2 in
  exists m,
    messages (table st1) = messages (table st) ++ [m]
    /\ sender m = c_str a /\ receiver m = c_str b /\ body m = c_str text
    /\ (forall x y, (x = a /\ y = b) \/ (x = b /\ y = a) ->
          let '(rc, rows, _) := storage_fetch_conversation st1 x y in
          rc = 0 /\ In m rows
          /\ length (List.filter (fun r => bool_decide (id r = id m)) rows) = 1%nat)
    /\ (forall u v, (u = a /\ v = b) \/ (u = b /\ v = a) ->
          let st2 := (storage_delete_conversation st1 u v).2 in
          (storage_delete_conversation st1 u v).1 = 0
          /\ forall x y, (x = a /\ y = b) \/ (x = b /\ y = a) ->
               storage_fetch_conversation st2 x y = (0, [], st2)).
Proof.
  intros Hrc st1.
  assert (Hstatus : status st = Healthy).
  { revert Hrc. unfold storage_store_message.
    destruct (status st); simpl; [reflexivity | discriminate | discriminate]. }
  destruct (stored_row_is_fetched st a b text Hstatus) as (_ & Hm & Hst1 & Hfetch).
  fold st1 in Hm, Hst1, Hfetch. clearbody st1.
  exists (appended_row st a b text).
  split; [exact Hm|]. do 3 (split; [reflexivity|]).
  split; [exact Hfetch|].
  intros u v Huv. unfold storage_delete_conversation, with_table.
  rewrite Hst1. simpl. split; [reflexivity|].
  intros x y Hxy. unfold storage_fetch_conversation. simpl.
  rewrite sql_select_deleted; [reflexivity|].
  destruct Huv as [[-> ->] | [-> ->]]; tauto.
Qed.




(** ** C strings: facts *)

Section CStrFacts.

Local Arguments Ascii.eqb : simpl never.

Lemma c_str_id s : NUL ∉ s -> c_str s = s.
Proof.
  induction s as [|c s IH]; simpl; intros Hnul; [reflexivity|].
  apply not_elem_of_cons in Hnul as [Hc Hs].
  unfold is_nul. destruct (Ascii.eqb c NUL) eqn:E.
  - apply Ascii.eqb_eq in E. congruence.
  - rewrite IH by assumption. reflexivity.
Qed.

Lemma c_str_no_nul s : NUL ∉ c_str s.
Proof.
  induction s as [|c s IH]; simpl; [apply not_elem_of_nil|].
  unfold is_nul. destruct (Ascii.eqb c NUL) eqn:E; [apply not_elem_of_nil|].
  apply not_elem_of_cons. split; [|exact IH].
  intros Heq. rewrite <- Heq, Ascii.eqb_refl in E. discriminate.
Qed.

Lemma c_str_idemp s : c_str (c_str s) = c_str s.
Proof. apply c_str_id, c_str_no_nul. Qed.

Lemma c_str_padded s k : NUL ∉ s -> c_str (s ++ replicate k NUL) = s.
Proof.
  induction s as [|c s IH]; simpl; intros Hnul.
  - destruct k; reflexivity.
  - apply not_elem_of_cons in Hnul as [Hc Hs].
    unfold is_nul. destruct (Ascii.eqb c NUL) eqn:E.
    + apply Ascii.eqb_eq in E. congruence.
    + rewrite IH by assumption. reflexivity.
Qed.

(** [strncmp] compares the two C strings up to [n] characters. *)
Lemma strncmp_eq_spec n : forall a b,
  strncmp_eq a b n = true <-> take n (c_str a) = take n (c_str b).
Proof.
  induction n as [|n IH]; intros a b; simpl; [tauto|].
  destruct a as [|ca a], b as [|cb b]; simpl; unfold is_nul.
  - tauto.
  - destruct (Ascii.eqb cb NUL) eqn:Eb.
    + apply Ascii.eqb_eq in Eb. subst cb. simpl. tauto.
    + rewrite Ascii.eqb_sym, Eb. split; discriminate.
  - destruct (Ascii.eqb ca NUL) eqn:Ea.
    + tauto.
    + split; discriminate.
  - destruct (Ascii.eqb ca cb) eqn:Eab.
    + apply Ascii.eqb_eq in Eab. subst cb.
      destruct (Ascii.eqb ca NUL); [tauto|].
      simpl. rewrite IH. split; [congruence|]. intros Heq. injection Heq. auto.
    + assert (ca <> cb) by (intros ->; rewrite Ascii.eqb_refl in Eab; discriminate).
      split; [discriminate|].
      destruct (Ascii.eqb ca NUL) eqn:Ea, (Ascii.eqb cb NUL) eqn:Eb; simpl;
        try discriminate; try congruence.
      apply Ascii.eqb_eq in Ea, Eb. congruence.
Qed.

(** Against a string that fits in the array, [strncmp] is equality of C
    strings. *)
Lemma strncmp_eq_short n a b :
  (length (c_str a) < n)%nat ->
  strncmp_eq a b n = true <-> c_str a = c_str b.
Proof.
  intros Hlen. rewrite strncmp_eq_spec.
  rewrite (take_ge (c_str a)) by lia.
  split; [|intros <-; rewrite take_ge by lia; reflexivity].
  intros Heq.
  destruct (decide (length (c_str b) <= n)%nat) as [Hle | Hgt].
  - rewrite take_ge in Heq by assumption. exact Heq.
  - apply (f_equal length) in Heq. rewrite length_take in Heq. lia.
Qed.

Lemma trim_loop_trimmed pre rest :
  Forall (fun c => is_trimmed c = true) pre ->
  trim_loop (pre ++ rest) = trim_loop rest.
Proof.
  induction 1 as [|c pre Hc _ IH]; simpl; [reflexivity|].
  rewrite Hc. exact IH.
Qed.

(** [trim_newline] removes the trailing run of LF, CR and space, and
    nothing else. *)
Lemma trim_newline_spec front c ws :
  NUL ∉ front ++ c :: ws ->
  is_trimmed c = false ->
  Forall (fun x => is_trimmed x = true) ws ->
  trim_newline ((front ++ [c]) ++ ws) = front ++ [c].
Proof.
  intros Hnul Hc Hws. unfold trim_newline.
  rewrite c_str_id by (rewrite <- app_assoc; exact Hnul).
  destruct ((front ++ [c]) ++ ws) eqn:E.
  - destruct front; discriminate.
  - rewrite <- E. rewrite rev_app_distr.
    rewrite trim_loop_trimmed by (apply List.Forall_rev; exact Hws).
    rewrite rev_app_distr. simpl. rewrite Hc.
    change (c :: rev front) with ([c] ++ rev front).
    rewrite rev_app_distr, rev_involutive. reflexivity.
Qed.

Lemma strncpy_short name n :
  NUL ∉ name -> (length name < n)%nat ->
  strncpy name n = name ++ replicate (n - length name) NUL.
Proof.
  intros Hnul Hlen. unfold strncpy. rewrite c_str_id by assumption.
  rewrite take_app_ge by lia. f_equal.
  rewrite take_replicate. f_equal. lia.
Qed.

Lemma c_str_strncpy name n :
  NUL ∉ name -> (length name < n)%nat -> c_str (strncpy name n) = name.
Proof.
  intros. rewrite strncpy_short by assumption. apply c_str_padded. assumption.
Qed.

End CStrFacts.

(** ** Sequential runs *)

Section RunFacts.

Context `{SqlEngine}.

Lemma run_bind {R S : Type} (p : prog R) (k : R -> prog S) : forall st,
  run (bind p k) st =
  (let '(r, st1, t1) := run p st in
   let '(r2, st2, t2) := run (k r) st1 in
   (r2, st2, t1 ++ t2)).
Proof.
  induction p as [r|m p IH|m p IH|A f p IH|e p IH]; intros st; simpl.
  - destruct (run (k r) st) as [[r2 st2] t2]. reflexivity.
  - rewrite IH. destruct (run p st) as [[r st1] t1].
    destruct (run (k r) st1) as [[r2 st2] t2]. reflexivity.
  - rewrite IH. destruct (run p st) as [[r st1] t1].
    destruct (run (k r) st1) as [[r2 st2] t2]. reflexivity.
  - destruct (f st) as [a st']. rewrite IH.
    destruct (run (p a) st') as [[r st1] t1].
    destruct (run (k r) st1) as [[r2 st2] t2]. reflexivity.
  - rewrite IH. destruct (run p st) as [[r st1] t1].
    destruct (run (k r) st1) as [[r2 st2] t2]. reflexivity.
Qed.

Lemma run_send_formatted session msg st :
  run (send_formatted session msg) st = (tt, st, sending session msg).
Proof. reflexivity. Qed.

Lemma find_from_none h l name :
  find_from h l name = None <-> forall p, In p l -> is_named h name p = false.
Proof.
  induction l as [|q l IH]; simpl.
  - split; [intros _ p [] | reflexivity].
  - destruct (is_named h name q) eqn:Hq.
    + split; [discriminate|]. intros Hall. rewrite Hall in Hq by auto. discriminate.
    + rewrite IH. split.
      * intros Hall p [<- | Hin]; auto.
      * intros Hall p Hin. auto.
Qed.

Lemma find_from_some h l name p :
  find_from h l name = Some p -> In p l /\ is_named h name p = true.
Proof.
  induction l as [|q l IH]; simpl; [discriminate|].
  destruct (is_named h name q) eqn:Hq.
  - intros [= <-]. auto.
  - intros Hf. destruct (IH Hf). auto.
Qed.

Lemma find_from_unique h l name p :
  In p l -> is_named h name p = true ->
  (forall q, In q l -> is_named h name q = true -> q = p) ->
  find_from h l name = Some p.
Proof.
  induction l as [|x l IH]; simpl; intros Hin Hp Huniq; [tauto|].
  destruct (is_named h name x) eqn:Hx.
  - f_equal. apply Huniq; auto.
  - destruct Hin as [-> | Hin]; [congruence|]. apply IH; auto.
Qed.

Lemma find_from_first h l1 l2 name p :
  (forall q, In q l1 -> is_named h name q = false) ->
  is_named h name p = true ->
  find_from h (l1 ++ p :: l2) name = Some p.
Proof.
  induction l1 as [|q l1 IH]; simpl; intros Hnone Hp.
  - rewrite Hp. reflexivity.
  - rewrite (Hnone q) by auto. apply IH; auto.
Qed.

End RunFacts.

(** ** Single commands *)

Section CommandFacts.

Context `{SqlEngine}.

Lemma run_quit (st : server) (session : ptr) :
  run (handle_line session (lit "QUIT")) st =
  if authenticated (deref st session)
  then (Break, st, sending session (lit "BYE"))
  else (Continue, st,
        sending session (lit "ERROR Authenticate first using AUTH <username>")).
Proof.
  unfold handle_line. cbn [bind read run].
  destruct (authenticated (deref st session)); reflexivity.
Qed.

Lemma run_auth_line st session rest :
  authenticated (deref st session) = false ->
  run (handle_line session (lit "AUTH " ++ rest)) st =
  (let name := trim_newline rest in
   if (strlen name =? 0) || (Z.of_nat MAX_USERNAME <=? strlen name)
   then (Continue, st, sending session (lit "ERROR Invalid username length"))
   else if username_available st name
   then (Continue, register session name st,
         [Locked clients_lock; Unlocked clients_lock]
         ++ sending session
              (lit "OK Authenticated as "
               ++ c_str (username (deref (register session name st) session))))
   else (Continue, st,
         [Locked clients_lock; Unlocked clients_lock]
         ++ sending session (lit "ERROR Username taken"))).
Proof.
  intros Hauth. unfold handle_line. cbn [bind read run]. rewrite Hauth. cbn [negb].
  change (strncmp_eq (lit "AUTH " ++ rest) (lit "AUTH ") 5) with true. cbv iota.
  change (drop 5 (lit "AUTH " ++ rest)) with rest. cbv zeta.
  destruct ((strlen (trim_newline rest) =? 0) || _); [reflexivity|].
  cbn [bind lock run read].
  destruct (username_available st (trim_newline rest)); reflexivity.
Qed.

Lemma deref_update_same p f st : deref (update_session p f st) p = f (deref st p).
Proof.
  unfold deref at 1, update_session. cbn [heap set_heap].
  rewrite lookup_insert_eq. reflexivity.
Qed.

Lemma heap_register session name st :
  heap (register session name st) =
  <[session := Session (socket_fd (deref st session)) (strncpy name MAX_USERNAME) true]>
    (heap st).
Proof.
  unfold register. unfold update_session at 1. cbn [heap set_heap].
  rewrite deref_update_same. unfold update_session. cbn [heap set_heap].
  rewrite insert_insert_eq. reflexivity.
Qed.

Lemma deref_register_same session name st :
  deref (register session name st) session =
  Session (socket_fd (deref st session)) (strncpy name MAX_USERNAME) true.
Proof.
  unfold deref at 1. rewrite heap_register, lookup_insert_eq. reflexivity.
Qed.


Lemma is_named_register_other session name st who q :
  q <> session ->
  is_named (heap (register session name st)) who q = is_named (heap st) who q.
Proof.
  intros Hne. unfold is_named. rewrite heap_register, lookup_insert_ne by congruence.
  reflexivity.
Qed.

Lemma is_named_register_same session name st who :
  NUL ∉ name -> (length name < MAX_USERNAME)%nat ->
  is_named (heap (register session name st)) who session = bool_decide (c_str who = name).
Proof.
  intros Hnul Hlen. unfold is_named. rewrite heap_register, lookup_insert_eq.
  cbn [authenticated username andb].
  destruct (strncmp_eq _ who MAX_USERNAME) eqn:E.
  - apply strncmp_eq_short in E; rewrite c_str_strncpy in * by assumption;
      [|assumption]. symmetry. apply bool_decide_eq_true_2. congruence.
  - symmetry. apply bool_decide_eq_false_2. intros Heq.
    assert (strncmp_eq (strncpy name MAX_USERNAME) who MAX_USERNAME = true); [|congruence].
    apply strncmp_eq_short; rewrite c_str_strncpy by assumption; [assumption|congruence].
Qed.

End CommandFacts.

(** C4, as stated, fails: a session that has not authenticated and sends
    QUIT gets the authenticate-first error, no BYE, and its worker goes on
    to the next line (here a successful AUTH). *)
Lemma quit_before_auth_counterexample :
  authenticated (deref lobby 0%nat) = false
  /\ @run flow (@handle_line table_order_engine 0%nat (lit "QUIT")) lobby =
       (Continue, lobby,
        sending 0%nat (lit "ERROR Authenticate first using AUTH <username>"))
  /\ (@worker_loop table_order_engine 3 0%nat
        (Stream (lit "QUIT" ++ [LF] ++ lit "AUTH bob" ++ [LF]) EndOfStream) lobby).1.2 =
       sending 0%nat (lit "ERROR Authenticate first using AUTH <username>")
       ++ [Locked clients_lock; Unlocked clients_lock]
       ++ sending 0%nat (lit "OK Authenticated as bob").
Proof.
  split; [reflexivity|]. split; vm_compute; reflexivity.
Qed.

(** C4, amended. QUIT is accepted by an authenticated session: the server
    sends BYE and the worker leaves its loop without reading further. A
    session that has not authenticated gets the authenticate-first error
    instead and its worker reads on. *)
Theorem quit_is_accepted_once_authenticated `{SqlEngine}
    (st : server) (session : ptr) (fuel : nat) (more : list char) (cl : closed) :
  run (handle_line session (lit "QUIT")) st =
    (if authenticated (deref st session)
     then (Break, st, sending session (lit "BYE"))
     else (Continue, st,
           sending session (lit "ERROR Authenticate first using AUTH <username>")))
  /\ worker_loop (S fuel) session (Stream (lit "QUIT" ++ LF :: more) cl) st =
    (if server_running st then
       if authenticated (deref st session)
       then (st, sending session (lit "BYE"), Stream more cl)
       else
         let '(st', tr, fd') := worker_loop fuel session (Stream more cl) st in
         (st',
          sending session (lit "ERROR Authenticate first using AUTH <username>") ++ tr,
          fd')
     else (st, [], Stream (lit "QUIT" ++ LF :: more) cl)).
Proof.
  split; [apply run_quit|].
  cbn [worker_loop]. destruct (server_running st); [|reflexivity].
  change (read_line (Stream (lit "QUIT" ++ LF :: more) cl) LINE_SIZE)
    with (4, lit "QUIT", Stream more cl).
  cbn [Z.leb Z.compare]. change (c_str (lit "QUIT")) with (lit "QUIT").
  rewrite run_quit.
  destruct (authenticated (deref st session)); reflexivity.
Qed.

(** C10. AUTH removes only the trailing run of spaces, CR and LF from the
    name it is given and keeps spaces inside it: for a line
    [AUTH a b] (possibly followed by such characters), with the name
    [a b] shorter than MAX_USERNAME and free, an unauthenticated session of
    the list is registered and authenticated under the name [a b], and is
    told so. *)
Theorem auth_keeps_interior_spaces `{SqlEngine} (st : server) (session : ptr)
    (a b : text) (c : char) (ws : text) :
  let name := (a ++ SP :: b) ++ [c] in
  NUL ∉ (a ++ SP :: b) ++ c :: ws ->
  is_trimmed c = false ->
  Forall (fun x => is_trimmed x = true) ws ->
  (length name < MAX_USERNAME)%nat ->
  In session (clients_head st) ->
  authenticated (deref st session) = false ->
  find_client_by_name st name = None ->
  let '(fl, st', tr) := run (handle_line session (lit "AUTH " ++ name ++ ws)) st in
  fl = Continue
  /\ authenticated (deref st' session) = true
  /\ c_str (username (deref st' session)) = name
  /\ find_client_by_name st' name = Some session
  /\ tr = [Locked clients_lock; Unlocked clients_lock]
          ++ sending session (lit "OK Authenticated as " ++ name).
Proof.
  intros name Hnul Hc Hws Hlen Hin Hauth Hfree.
  assert (Hname_nul : NUL ∉ name).
  { intros Hn. apply Hnul. apply elem_of_app.
    apply elem_of_app in Hn as [Hn | Hn]; [left; exact Hn|].
    apply list_elem_of_singleton in Hn. right. rewrite Hn. left. }
  assert (Htrim : trim_newline (name ++ ws) = name)
    by (apply trim_newline_spec; assumption).
  rewrite run_auth_line by assumption. cbv zeta. rewrite Htrim.
  assert (Hstrlen : strlen name = Z.of_nat (length name))
    by (unfold strlen; rewrite c_str_id by assumption; reflexivity).
  assert (Hpos : (0 < length name)%nat)
    by (subst name; rewrite length_app; simpl; lia).
  rewrite Hstrlen.
  replace (Z.of_nat (length name) =? 0) with false by (symmetry; apply Z.eqb_neq; lia).
  replace (Z.of_nat MAX_USERNAME <=? Z.of_nat (length name)) with false
    by (symmetry; apply Z.leb_gt; lia).
  cbn [orb]. unfold username_available. rewrite Hfree.
  rewrite deref_register_same. cbn [authenticated username].
  rewrite c_str_strncpy by assumption.
  repeat split.
  unfold find_client_by_name in *.
  change (clients_head (register session name st)) with (clients_head st).
  rewrite find_from_none in Hfree.
  apply find_from_unique; [exact Hin| |].
  - rewrite is_named_register_same by assumption.
    apply bool_decide_eq_true_2, c_str_id, Hname_nul.
  - intros q Hq Hnamed. destruct (decide (q = session)) as [-> | Hne]; [reflexivity|].
    rewrite is_named_register_other in Hnamed by assumption.
    rewrite Hfree in Hnamed by assumption. discriminate.
Qed.

Section SendFacts.

Context `{SqlEngine}.

Local Arguments Ascii.eqb : simpl never.

Lemma strchr_first target rest (c : char) :
  NUL ∉ target -> c ∉ target -> c <> NUL ->
  strchr (target ++ c :: rest) c = Some (length target).
Proof.
  intros Hnul Hc Hcn. induction target as [|x target IH]; simpl.
  - unfold is_nul. rewrite Ascii.eqb_refl.
    destruct (Ascii.eqb c NUL) eqn:E; [apply Ascii.eqb_eq in E; congruence | reflexivity].
  - apply not_elem_of_cons in Hnul as [Hx Hnul].
    apply not_elem_of_cons in Hc as [Hxc Hc].
    unfold is_nul.
    destruct (Ascii.eqb x NUL) eqn:E; [apply Ascii.eqb_eq in E; congruence|].
    destruct (Ascii.eqb x c) eqn:E2; [apply Ascii.eqb_eq in E2; congruence|].
    rewrite IH by assumption. reflexivity.
Qed.

Lemma run_deliver_message sender receiver body st :
  run (deliver_message sender receiver body) st =
  (let '(rc, sto) := storage_store_message (storage st) sender receiver body in
   (tt, set_storage st sto,
    [Locked storage_lock; Unlocked storage_lock]
    ++ (if rc =? 0 then []
        else [Io (Stderr (persist_failure sender receiver (storage_last_error sto)))])
    ++ [Locked clients_lock]
    ++ match find_client_by_name st receiver with
       | Some t => sending t (lit "MESSAGE " ++ sender ++ lit " " ++ body)
       | None => []
       end
    ++ [Unlocked clients_lock])).
Proof.
  unfold deliver_message, store_message. cbn [bind lock run].
  destruct (storage_store_message (storage st) sender receiver body) as [rc sto].
  cbn [bind unlock run].
  destruct (rc =? 0); cbn [bind unlock run last_error_text read emit lock];
    change (find_client_by_name (set_storage st sto) receiver)
      with (find_client_by_name st receiver);
    destruct (find_client_by_name st receiver); reflexivity.
Qed.

Lemma run_send_line st session target message :
  authenticated (deref st session) = true ->
  NUL ∉ target ++ message -> SP ∉ target -> message <> [] ->
  run (handle_line session (lit "SEND " ++ target ++ SP :: message)) st =
  (let '(_, st', tr) :=
     run (deliver_message (c_str (username (deref st session))) target message) st in
   (Continue, st', tr ++ sending session (lit "OK Message queued"))).
Proof.
  intros Hauth Hnul Hsp Hmsg.
  apply not_elem_of_app in Hnul as [Hnt Hnm].
  unfold handle_line. cbn [bind read run]. rewrite Hauth. cbn [negb].
  change (strncmp_eq (lit "SEND " ++ target ++ SP :: message) (lit "SEND ") 5) with true.
  cbv iota.
  change (drop 5 (lit "SEND " ++ target ++ SP :: message)) with (target ++ SP :: message).
  cbv zeta. rewrite strchr_first by (assumption || discriminate).
  rewrite take_app_length.
  replace (drop (S (length target)) (target ++ SP :: message)) with message
    by (change (target ++ SP :: message) with (target ++ [SP] ++ message);
        rewrite app_assoc, drop_app_length'; [reflexivity | rewrite length_app; simpl; lia]).
  replace (strlen message =? 0) with false.
  2:{ symmetry. apply Z.eqb_neq. unfold strlen. rewrite c_str_id by assumption.
      destruct message; [congruence | simpl; lia]. }
  unfold my_username. cbn [bind read run].
  rewrite run_bind.
  destruct (run (deliver_message _ target message) st) as [[u st'] tr].
  reflexivity.
Qed.

End SendFacts.

(** C3, as stated, fails: with a store that cannot write, alice's SEND to
    bob is logged on the server's stderr, bob still gets the push, and the
    only line alice receives is the acknowledgement. *)
Lemma store_failure_counterexample :
  let '(_, _, tr) :=
    @run flow (@handle_line table_order_engine 0%nat (lit "SEND bob Hello"))
         (chat failing_store) in
  sends tr = [(1%nat, lit "MESSAGE alice Hello" ++ [LF]);
              (0%nat, lit "OK Message queued" ++ [LF])]
  /\ In (Io (Stderr (lit "Failed to persist message from alice to bob: Failed to store message: disk I/O error" ++ [LF]))) tr.
Proof.
  vm_compute. split; [reflexivity|]. auto.
Qed.

(** C3, amended. When the append of a SEND fails, the failure is written
    to the server's stderr with the store's diagnostic text and nothing is
    stored; the push to the receiver is still made when the receiver is
    connected; the sender is sent the acknowledgement and no ERROR line;
    the worker goes on with its loop. *)
Theorem store_failure_is_logged_not_reported `{SqlEngine}
    (st : server) (session : ptr) (target message : text) :
  authenticated (deref st session) = true ->
  NUL ∉ target ++ message -> SP ∉ target -> message <> [] ->
  status (storage st) <> Healthy ->
  let me := c_str (username (deref st session)) in
  let '(fl, st', tr) :=
    run (handle_line session (lit "SEND " ++ target ++ SP :: message)) st in
  fl = Continue
  /\ table (storage st') = table (storage st)
  /\ heap st' = heap st /\ clients_head st' = clients_head st
  /\ tr = [Locked storage_lock; Unlocked storage_lock;
           Io (Stderr (persist_failure me target (storage_last_error (storage st'))))]
          ++ [Locked clients_lock]
          ++ match find_client_by_name st target with
             | Some t => sending t (lit "MESSAGE " ++ me ++ lit " " ++ message)
             | None => []
             end
          ++ [Unlocked clients_lock]
          ++ sending session (lit "OK Message queued").
Proof.
  intros Hauth Hnul Hsp Hmsg Hbad me.
  rewrite run_send_line by assumption. rewrite run_deliver_message. fold me.
  unfold storage_store_message.
  destruct (status (storage st)) eqn:Hstatus; [congruence| |];
    cbn [Z.eqb]; repeat split; rewrite <- !app_assoc; reflexivity.
Qed.

(** C7. A SEND by an authenticated session to a name that no connected
    session holds, with the store working: the message is stored and a
    later fetch of the conversation (either way round) returns it, no line
    is pushed to any session, and the sender is sent the acknowledgement. *)
Theorem offline_send_is_stored_not_pushed `{SqlEngine}
    (st : server) (session : ptr) (target message : text) :
  authenticated (deref st session) = true ->
  NUL ∉ target ++ message -> SP ∉ target -> message <> [] ->
  status (storage st) = Healthy ->
  find_client_by_name st target = None ->
  let me := c_str (username (deref st session)) in
  let '(fl, st', tr) :=
    run (handle_line session (lit "SEND " ++ target ++ SP :: message)) st in
  fl = Continue
  /\ sends tr = [(session, lit "OK Message queued" ++ [LF])]
  /\ exists m,
       messages (table (storage st')) = messages (table (storage st)) ++ [m]
       /\ sender m = me /\ receiver m = target /\ body m = message
       /\ In m (storage_fetch_conversation (storage st') me target).1.2
       /\ In m (storage_fetch_conversation (storage st') target me).1.2.
Proof.
  intros Hauth Hnul Hsp Hmsg Hok Hoff me.
  rewrite run_send_line by assumption. rewrite run_deliver_message. fold me.
  destruct (stored_row_is_fetched (storage st) me target message Hok)
    as (Hrc & Hm & _ & Hfetch).
  destruct (storage_store_message (storage st) me target message) as [rc sto].
  cbn [fst snd] in Hrc, Hm, Hfetch. subst rc. rewrite Hoff.
  cbn [Z.eqb fst snd storage set_storage].
  split; [reflexivity|]. split; [reflexivity|].
  apply not_elem_of_app in Hnul as [Hnt Hnm].
  exists (appended_row (storage st) me target message).
  split; [exact Hm|].
  split; [apply c_str_idemp|].
  split; [apply c_str_id; assumption|].
  split; [apply c_str_id; assumption|].
  split.
  - specialize (Hfetch me target (or_introl (conj eq_refl eq_refl))).
    destruct (storage_fetch_conversation sto me target) as [[rc rows] sto']. tauto.
  - specialize (Hfetch target me (or_intror (conj eq_refl eq_refl))).
    destruct (storage_fetch_conversation sto target me) as [[rc rows] sto']. tauto.
Qed.

(** ** The registry lock and the sends *)

Section LockFacts.

Context `{SqlEngine}.

Lemma run_for_each {A : Type} (body : A -> prog unit) (ev : A -> list event) st :
  (forall x, run (body x) st = (tt, st, ev x)) ->
  forall l, run (for_each l body) st = (tt, st, concat (map ev l)).
Proof.
  intros Hbody. induction l as [|x l IH]; [reflexivity|].
  cbn [for_each map concat]. rewrite run_bind, Hbody, IH. reflexivity.
Qed.

Lemma run_notify_user_list session st :
  run (notify_user_list session) st =
  (tt, st,
   [Locked clients_lock] ++ sending session (lit "USERS_BEGIN")
   ++ concat (map (fun p =>
        if authenticated (deref st p)
        then sending session (lit "USER " ++ c_str (username (deref st p)))
        else []) (clients_head st))
   ++ [Unlocked clients_lock] ++ sending session (lit "USERS_END")).
Proof.
  unfold notify_user_list. cbn [bind lock read run].
  rewrite run_bind, run_send_formatted, run_bind.
  rewrite (run_for_each _ (fun p =>
             if authenticated (deref st p)
             then sending session (lit "USER " ++ c_str (username (deref st p)))
             else [])).
  - reflexivity.
  - intros p. cbn [bind read run].
    destruct (authenticated (deref st p)); reflexivity.
Qed.







End LockFacts.

Section LockBlock.


End LockBlock.




(** ** What a command leaves alone *)

Section Frame.

Context `{SqlEngine}.

Lemma same_registry_refl st : same_registry st st.
Proof. split; reflexivity. Qed.

Lemma same_registry_trans st1 st2 st3 :
  same_registry st1 st2 -> same_registry st2 st3 -> same_registry st1 st3.
Proof. intros [H1 H2] [H3 H4]. split; congruence. Qed.

Lemma keeps_run {R : Type} (p : prog R) :
  keeps_registry p -> forall st, same_registry st (run p st).1.2.
Proof.
  induction 1 as [r|m k _ IH|m k _ IH|A f k Hf _ IH|e k _ IH]; intros st; simpl.
  - apply same_registry_refl.
  - specialize (IH st). destruct (run k st) as [[r st'] tr]. exact IH.
  - specialize (IH st). destruct (run k st) as [[r st'] tr]. exact IH.
  - specialize (Hf st). destruct (f st) as [a st1]. specialize (IH a st1).
    destruct (run (k a) st1) as [[r st'] tr].
    eapply same_registry_trans; eassumption.
  - specialize (IH st). destruct (run k st) as [[r st'] tr]. exact IH.
Qed.

Lemma keeps_bind {R S : Type} (p : prog R) (k : R -> prog S) :
  keeps_registry p -> (forall r, keeps_registry (k r)) -> keeps_registry (bind p k).
Proof.
  induction 1; intros Hk; simpl; try (constructor; auto). apply Hk.
Qed.

Lemma keeps_read {A : Type} (f : server -> A) : keeps_registry (read f).
Proof. repeat constructor. Qed.

Lemma keeps_send_formatted session msg : keeps_registry (send_formatted session msg).
Proof. repeat constructor. Qed.

Lemma keeps_for_each {A : Type} (l : list A) (body : A -> prog unit) :
  (forall x, keeps_registry (body x)) -> keeps_registry (for_each l body).
Proof.
  intros Hbody. induction l; simpl; [constructor|].
  apply keeps_bind; auto.
Qed.

Lemma keeps_fold_callback {A C : Type} (cb : A -> C -> prog C) (rows : list A) :
  (forall row c, keeps_registry (cb row c)) ->
  forall acc, keeps_registry acc ->
  keeps_registry (fold_left (fun acc row => bind acc (cb row)) rows acc).
Proof.
  intros Hcb. induction rows as [|row rows IH]; intros acc Hacc; simpl; [exact Hacc|].
  apply IH. apply keeps_bind; auto.
Qed.

Lemma keeps_store_message s r b : keeps_registry (store_message s r b).
Proof.
  unfold store_message. cbn [bind lock]. constructor. constructor.
  - intros st. destruct (storage_store_message _ _ _ _). split; reflexivity.
  - intros rc. repeat constructor.
Qed.

Lemma keeps_delete_conversation a b : keeps_registry (delete_conversation a b).
Proof.
  unfold delete_conversation. cbn [bind lock]. constructor. constructor.
  - intros st. destruct (storage_delete_conversation _ _ _). split; reflexivity.
  - intros rc. repeat constructor.
Qed.

Lemma keeps_fetch_conversation {C : Type} a b (cb : message -> C -> prog C) ctx :
  (forall row c, keeps_registry (cb row c)) ->
  keeps_registry (fetch_conversation a b cb ctx).
Proof.
  intros Hcb. unfold fetch_conversation. cbn [bind lock]. constructor. constructor.
  - intros st. destruct (storage_fetch_conversation _ _ _) as [[rc rows] sto].
    split; reflexivity.
  - intros res. apply keeps_bind.
    + apply keeps_fold_callback; [exact Hcb | constructor].
    + intros c. repeat constructor.
Qed.

Lemma keeps_deliver_message s r b : keeps_registry (deliver_message s r b).
Proof.
  unfold deliver_message. apply keeps_bind; [apply keeps_store_message|].
  intros rc. apply keeps_bind.
  - destruct (rc =? 0); repeat constructor.
  - intros _. cbn [bind lock read]. constructor. constructor.
    + intros st. apply same_registry_refl.
    + intros [t|]; repeat constructor.
Qed.

Lemma keeps_notify_user_list session : keeps_registry (notify_user_list session).
Proof.
  unfold notify_user_list. cbn [bind lock read]. constructor. constructor.
  - intros st. apply same_registry_refl.
  - intros cur. apply keeps_bind; [apply keeps_send_formatted|].
    intros _. apply keeps_bind.
    + apply keeps_for_each. intros p. cbn [bind read]. constructor.
      * intros st. apply same_registry_refl.
      * intros s. destruct (authenticated s); repeat constructor.
    + intros _. repeat constructor.
Qed.

Lemma keeps_history_emit session row c : keeps_registry (history_emit session row c).
Proof. repeat constructor. Qed.

End Frame.

Section LineEffect.

Context `{SqlEngine}.

Local Arguments Ascii.eqb : simpl never.

Lemma strncmp_literal_prefix p : forall line,
  NUL ∉ p -> strncmp_eq line p (length p) = true -> line = p ++ drop (length p) line.
Proof.
  induction p as [|c p IH]; intros line Hnul Hcmp; [reflexivity|].
  apply not_elem_of_cons in Hnul as [Hc Hnul].
  destruct line as [|x line]; simpl in Hcmp.
  - destruct (Ascii.eqb NUL c) eqn:E; [|discriminate].
    apply Ascii.eqb_eq in E. congruence.
  - destruct (Ascii.eqb x c) eqn:E; [|discriminate].
    apply Ascii.eqb_eq in E. subst x.
    unfold is_nul in Hcmp.
    destruct (Ascii.eqb c NUL) eqn:E2; [apply Ascii.eqb_eq in E2; congruence|].
    simpl. f_equal. apply IH; assumption.
Qed.

Lemma run_read_bind {A R : Type} (f : server -> A) (k : A -> prog R) st :
  run (bind (read f) k) st = run (k (f st)) st.
Proof.
  unfold read. cbn [bind run]. destruct (run (k (f st)) st) as [[r st'] tr]. reflexivity.
Qed.

(** A command either leaves the heap and the list as they are, or is the
    AUTH of an unauthenticated session with a name of valid length that no
    authenticated session of the list has, and registers that session. *)
Lemma handle_line_effect session line st :
  let st' := (run (handle_line session line) st).1.2 in
  same_registry st st'
  \/ (authenticated (deref st session) = false
      /\ strncmp_eq line (lit "AUTH ") 5 = true
      /\ 0 < strlen (trim_newline (drop 5 line)) < Z.of_nat MAX_USERNAME
      /\ find_client_by_name st (trim_newline (drop 5 line)) = None
      /\ st' = register session (trim_newline (drop 5 line)) st).
Proof.
  cbv zeta.
  destruct (authenticated (deref st session)) eqn:Hauth.
  - left. unfold handle_line. rewrite run_read_bind, Hauth. cbn [negb].
    apply keeps_run.
    repeat match goal with
    | |- keeps_registry (if ?c then _ else _) => destruct c
    | |- keeps_registry (match ?x with Some _ => _ | None => _ end) => destruct x
    | |- keeps_registry (bind _ _) => apply keeps_bind
    | |- keeps_registry (send_formatted _ _) => apply keeps_send_formatted
    | |- keeps_registry (my_username _) => apply keeps_read
    | |- keeps_registry last_error_text => apply keeps_read
    | |- keeps_registry (deliver_message _ _ _) => apply keeps_deliver_message
    | |- keeps_registry (delete_conversation _ _) => apply keeps_delete_conversation
    | |- keeps_registry (notify_user_list _) => apply keeps_notify_user_list
    | |- keeps_registry (fetch_conversation _ _ _ _) =>
        apply keeps_fetch_conversation; intros; apply keeps_history_emit
    | |- keeps_registry (Ret _) => constructor
    | |- forall _, _ => intros
    end.
  - destruct (strncmp_eq line (lit "AUTH ") 5) eqn:Hcmd.
    + pose proof (run_auth_line st session (drop 5 line) Hauth) as Hrun.
      change (drop 5 line) with (drop (length (lit "AUTH ")) line) in Hrun at 1.
      rewrite <- (strncmp_literal_prefix (lit "AUTH ") line) in Hrun;
        [|compute_done | exact Hcmd].
      rewrite Hrun. clear Hrun. cbv zeta.
      destruct (strlen (trim_newline (drop 5 line)) =? 0) eqn:E0;
        [left; apply same_registry_refl|].
      destruct (Z.of_nat MAX_USERNAME <=? strlen (trim_newline (drop 5 line))) eqn:E1;
        [left; apply same_registry_refl|].
      cbn [orb]. unfold username_available.
      destruct (find_client_by_name st (trim_newline (drop 5 line))) eqn:Hfind;
        [left; apply same_registry_refl|].
      right. apply Z.eqb_neq in E0. apply Z.leb_gt in E1.
      unfold strlen in *. repeat split; try reflexivity; lia.
    + left. unfold handle_line. rewrite run_read_bind, Hauth, Hcmd.
      apply same_registry_refl.
Qed.

End LineEffect.

(** ** The registry over the life of the server *)

Section RegistryInvariant.

Context `{SqlEngine}.

Lemma registry_ok_same st st' :
  same_registry st st' -> registry_ok st -> registry_ok st'.
Proof.
  intros [Hh Hc] [H1 H2 H3 H4].
  split; rewrite ?Hh, ?Hc; assumption.
Qed.

Lemma registry_ok_started d : registry_ok (started d).
Proof.
  split; simpl.
  - constructor.
  - intros p. rewrite lookup_empty. split; [tauto | intros [x Hx]; discriminate].
  - intros p q sp sq Hp. rewrite lookup_empty in Hp. discriminate.
  - intros p s Hp. rewrite lookup_empty in Hp. discriminate.
Qed.

Lemma run_accept_connection client_fd st :
  run (accept_connection client_fd) st =
  (let p := fresh (dom (heap st)) in
   (p,
    Srv (<[p := Session client_fd (replicate MAX_USERNAME NUL) false]> (heap st))
        (p :: clients_head st) (storage st) (server_running st),
    [Locked clients_lock; Unlocked clients_lock;
     Io (Stdout (lit "Incoming connection accepted" ++ [LF]))])).
Proof. reflexivity. Qed.

Lemma fresh_session_unallocated st : heap st !! fresh (dom (heap st)) = None.
Proof. apply not_elem_of_dom, is_fresh. Qed.

Lemma c_str_zeroed n : c_str (replicate n NUL) = [].
Proof. destruct n; reflexivity. Qed.

Lemma registry_ok_accept client_fd st :
  registry_ok st -> registry_ok (run (accept_connection client_fd) st).1.2.
Proof.
  intros [Hnd Hlive Huniq Hfits]. rewrite run_accept_connection. cbv zeta. cbn [fst snd].
  pose proof (fresh_session_unallocated st) as Hfresh.
  set (p := fresh (dom (heap st))) in *.
  split; cbn [heap clients_head].
  - constructor; [|exact Hnd]. rewrite list_elem_of_In, Hlive, Hfresh.
    intros [x Hx]. discriminate.
  - intros q. destruct (decide (q = p)) as [-> | Hne].
    + rewrite lookup_insert_eq. split; [eauto | intros _; left; reflexivity].
    + rewrite lookup_insert_ne by congruence. rewrite <- Hlive.
      split; [intros [Hq | Hq]; [congruence | exact Hq] | intros Hq; right; exact Hq].
  - intros a b sa sb Ha Hb Haa Hab Hname.
    destruct (decide (a = p)) as [-> | Hna].
    { rewrite lookup_insert_eq in Ha. injection Ha as <-. discriminate. }
    destruct (decide (b = p)) as [-> | Hnb].
    { rewrite lookup_insert_eq in Hb. injection Hb as <-. discriminate. }
    rewrite lookup_insert_ne in Ha, Hb by congruence. eauto.
  - intros a s Ha. destruct (decide (a = p)) as [-> | Hna].
    + rewrite lookup_insert_eq in Ha. injection Ha as <-.
      cbn [username c_str is_nul]. unfold MAX_USERNAME. simpl. lia.
    + rewrite lookup_insert_ne in Ha by congruence. eauto.
Qed.

Lemma trim_loop_suffix s : exists pre, s = pre ++ trim_loop s.
Proof.
  induction s as [|c s [pre IH]]; simpl; [exists []; reflexivity|].
  destruct (is_trimmed c); [|exists []; reflexivity].
  exists (c :: pre). simpl. f_equal. exact IH.
Qed.

Lemma trim_newline_no_nul s : NUL ∉ trim_newline s.
Proof.
  unfold trim_newline. pose proof (c_str_no_nul s) as Hn.
  destruct (c_str s) as [|c r] eqn:E; [apply not_elem_of_nil|].
  destruct (trim_loop_suffix (rev (c :: r))) as [pre Hpre].
  intros Hin. apply Hn. apply elem_of_reverse in Hin.
  apply elem_of_reverse. unfold reverse in *. rewrite <- rev_alt in *.
  rewrite Hpre. apply elem_of_app. right.
  rewrite rev_involutive in Hin. exact Hin.
Qed.

Lemma registry_ok_register session name st :
  registry_ok st ->
  is_Some (heap st !! session) ->
  NUL ∉ name -> (length name < MAX_USERNAME)%nat ->
  find_client_by_name st name = None ->
  registry_ok (register session name st).
Proof.
  intros [Hnd Hlive Huniq Hfits] Hsome Hnul Hlen Hfree.
  unfold find_client_by_name in Hfree. rewrite find_from_none in Hfree.
  assert (Hother : forall q sq, q <> session -> heap st !! q = Some sq ->
                     authenticated sq = true -> c_str (username sq) <> name).
  { intros q sq Hne Hq Hqa Heq.
    assert (Hin : In q (clients_head st)) by (apply Hlive; eauto).
    specialize (Hfree q Hin). unfold is_named in Hfree. rewrite Hq, Hqa in Hfree.
    cbn [andb] in Hfree.
    assert (strncmp_eq (username sq) name MAX_USERNAME = true); [|congruence].
    apply strncmp_eq_short; [eauto|]. rewrite (c_str_id name) by assumption. exact Heq. }
  split; rewrite ?heap_register;
    change (clients_head (register session name st)) with (clients_head st).
  - exact Hnd.
  - intros q. rewrite Hlive. destruct (decide (q = session)) as [-> | Hne].
    + rewrite lookup_insert_eq. split; eauto.
    + rewrite lookup_insert_ne by congruence. reflexivity.
  - intros a b sa sb Ha Hb Haa Hab Hname.
    destruct (decide (a = session)) as [-> | Hna];
      destruct (decide (b = session)) as [-> | Hnb]; [reflexivity| | |].
    + rewrite lookup_insert_eq in Ha. injection Ha as <-.
      rewrite lookup_insert_ne in Hb by congruence.
      cbn [username] in Hname. rewrite c_str_strncpy in Hname by assumption.
      exfalso. eapply Hother; eauto.
    + rewrite lookup_insert_eq in Hb. injection Hb as <-.
      rewrite lookup_insert_ne in Ha by congruence.
      cbn [username] in Hname. rewrite c_str_strncpy in Hname by assumption.
      exfalso. eapply Hother; eauto.
    + rewrite lookup_insert_ne in Ha, Hb by congruence. eauto.
  - intros a s Ha. destruct (decide (a = session)) as [-> | Hna].
    + rewrite lookup_insert_eq in Ha. injection Ha as <-.
      cbn [username]. rewrite c_str_strncpy by assumption. exact Hlen.
    + rewrite lookup_insert_ne in Ha by congruence. eauto.
Qed.

Lemma unlink_in session l p :
  NoDup l -> In p (unlink session l) <-> In p l /\ p <> session.
Proof.
  induction 1 as [|x l Hx Hnd IH]; simpl; [tauto|].
  destruct (decide (x = session)) as [-> | Hne].
  - split; [intros Hp; split; [auto | intros ->; apply Hx, list_elem_of_In, Hp]|].
    intros [[-> | Hp] Hn]; [congruence | exact Hp].
  - simpl. rewrite IH. split.
    + intros [-> | [Hp Hn]]; auto.
    + intros [[-> | Hp] Hn]; auto.
Qed.

Lemma unlink_nodup session l : NoDup l -> NoDup (unlink session l).
Proof.
  induction 1 as [|x l Hx Hnd IH]; simpl; [constructor|].
  destruct (decide (x = session)); [exact Hnd|].
  constructor; [|exact IH].
  rewrite list_elem_of_In, unlink_in by assumption.
  intros [Hin _]. apply Hx, list_elem_of_In, Hin.
Qed.

Lemma run_worker_exit session st :
  (run (worker_exit session) st).1.2 =
  Srv (delete session (heap st)) (unlink session (clients_head st))
      (storage st) (server_running st).
Proof.
  unfold worker_exit. cbn [bind emit read run].
  destruct (authenticated (deref st session)); reflexivity.
Qed.

Lemma registry_ok_exit session st :
  registry_ok st -> registry_ok (run (worker_exit session) st).1.2.
Proof.
  intros [Hnd Hlive Huniq Hfits]. rewrite run_worker_exit.
  split; cbn [heap clients_head].
  - apply unlink_nodup, Hnd.
  - intros q. rewrite unlink_in, Hlive by assumption.
    destruct (decide (q = session)) as [-> | Hne].
    + rewrite lookup_delete_eq. split; [tauto | intros [x Hx]; discriminate].
    + rewrite lookup_delete_ne by congruence. tauto.
  - intros a b sa sb Ha Hb. apply lookup_delete_Some in Ha as [_ Ha].
    apply lookup_delete_Some in Hb as [_ Hb]. eauto.
  - intros a s Ha. apply lookup_delete_Some in Ha as [_ Ha]. eauto.
Qed.

Lemma registry_ok_apply st op : registry_ok st -> registry_ok (apply st op).
Proof.
  intros Hok. destruct op as [fd|session buffer|session|s e c r]; cbn [apply].
  - apply registry_ok_accept, Hok.
  - unfold live. case_bool_decide as Hlive; [|exact Hok].
    destruct (handle_line_effect session (c_str buffer) st)
      as [Hsame | (Hauth & Hcmd & Hlen & Hfree & ->)].
    + eapply registry_ok_same; eassumption.
    + pose proof (trim_newline_no_nul (drop 5 (c_str buffer))) as Hnul.
      unfold strlen in Hlen. rewrite c_str_id in Hlen by assumption.
      apply registry_ok_register; try assumption. lia.
  - unfold live. case_bool_decide; [apply registry_ok_exit, Hok | exact Hok].
  - destruct Hok as [H1 H2 H3 H4]. split; assumption.
Qed.

Lemma registry_ok_after d ops : registry_ok (after d ops).
Proof.
  unfold after. generalize (registry_ok_started d).
  generalize (started d). induction ops as [|op ops IH]; intros st Hok; [exact Hok|].
  simpl. apply IH, registry_ok_apply, Hok.
Qed.

End RegistryInvariant.


Section RegistryLookup.

Context `{SqlEngine}.

Lemma deref_lookup st p s : heap st !! p = Some s -> deref st p = s.
Proof. intros Hp. unfold deref. rewrite Hp. reflexivity. Qed.

Lemma authenticated_is_allocated st p :
  authenticated (deref st p) = true -> heap st !! p = Some (deref st p).
Proof.
  unfold deref. destruct (heap st !! p) as [s|]; [reflexivity | discriminate].
Qed.

(** Lookup by name finds exactly the authenticated session of that name. *)
Lemma find_client_by_name_spec st name p :
  registry_ok st ->
  find_client_by_name st name = Some p <->
  In p (clients_head st) /\ authenticated (deref st p) = true
  /\ c_str (username (deref st p)) = c_str name.
Proof.
  intros [Hnd Hlive Huniq Hfits]. unfold find_client_by_name.
  assert (Hnamed : forall q, is_named (heap st) name q = true <->
            authenticated (deref st q) = true
            /\ c_str (username (deref st q)) = c_str name).
  { intros q. unfold is_named, deref.
    destruct (heap st !! q) as [s|] eqn:Hq; cbn [default];
      [|split; [discriminate | intros [? _]; discriminate]].
    rewrite andb_true_iff, strncmp_eq_short by eauto. reflexivity. }
  split.
  - intros Hfind. apply find_from_some in Hfind as [Hin Hn].
    apply Hnamed in Hn. tauto.
  - intros (Hin & Hauth & Hname). apply find_from_unique; [exact Hin | apply Hnamed; auto|].
    intros q Hq Hn. apply Hnamed in Hn as [Hqa Hqn].
    eapply Huniq; eauto using authenticated_is_allocated. congruence.
Qed.

End RegistryLookup.




(** ** Threads: facts *)

Section MachineFacts.

Lemma exec_acquire (c : config flow) t m k :
  threads c !! t = Some (Acquire m k) ->
  exec t c =
  match owner c m with
  | Some _ => None
  | None =>
      Some (Config (shared c) (set_owner (owner c) m (Some t))
                   (<[t := k]> (threads c)) (trace c ++ [(t, Locked m)]))
  end.
Proof. intros Hc. unfold exec. rewrite Hc. reflexivity. Qed.

Lemma exec_release (c : config flow) t m k :
  threads c !! t = Some (Release m k) ->
  exec t c =
  Some (Config (shared c) (set_owner (owner c) m None)
               (<[t := k]> (threads c)) (trace c ++ [(t, Unlocked m)])).
Proof. intros Hc. unfold exec. rewrite Hc. reflexivity. Qed.

Lemma exec_step (c : config flow) t {A : Type} (f : server -> A * server) k :
  threads c !! t = Some (Step f k) ->
  exec t c =
  Some (Config (f (shared c)).2 (owner c) (<[t := k (f (shared c)).1]> (threads c)) (trace c)).
Proof. intros Hc. unfold exec. rewrite Hc. destruct (f (shared c)). reflexivity. Qed.

Lemma exec_emit (c : config flow) t e k :
  threads c !! t = Some (Emit e k) ->
  exec t c =
  Some (Config (shared c) (owner c) (<[t := k]> (threads c)) (trace c ++ [(t, Io e)])).
Proof. intros Hc. unfold exec. rewrite Hc. reflexivity. Qed.

Lemma exec_ret (c : config flow) t r :
  threads c !! t = Some (Ret r) -> exec t c = None.
Proof. intros Hc. unfold exec. rewrite Hc. reflexivity. Qed.


Lemma sent_to_snoc s tr t e :
  sent_to s (tr ++ [(t, e)]) =
  sent_to s tr ++ match e with
                  | Io (Send p data) => if decide (p = s) then [data] else []
                  | _ => []
                  end.
Proof.
  unfold sent_to. rewrite omap_app. f_equal. cbn.
  destruct e as [[p data| | |]| |]; try reflexivity.
  destruct (decide (p = s)); reflexivity.
Qed.

Lemma holder_snoc m tr te : holder m (tr ++ [te]) = lock_step m (holder m tr) te.
Proof. unfold holder. rewrite fold_left_app. reflexivity. Qed.

Lemma total_rank_insert pcs t p p' :
  pcs !! t = Some p -> (rank p' < rank p)%nat ->
  (total_rank (<[t := p']> pcs) < total_rank pcs)%nat.
Proof.
  unfold total_rank. revert t. induction pcs as [|q pcs IH]; intros [|t] Hp Hr;
    try discriminate.
  - injection Hp as ->. simpl. lia.
  - simpl in Hp. specialize (IH t Hp Hr). simpl in IH |- *. lia.
Qed.

Lemma won_or_not (pcs : list pc) :
  (exists t q, pcs !! t = Some q /\ won q = true)
  \/ (forall t q, pcs !! t = Some q -> won q = false).
Proof.
  induction pcs as [|p pcs [(t & q & Hq & Hw) | Hnone]].
  - right. intros t q Hq. destruct t; discriminate.
  - left. exists (S t), q. auto.
  - destruct (won p) eqn:Hp.
    + left. exists 0%nat, p. auto.
    + right. intros [|t] q Hq; [injection Hq as <-; exact Hp | eauto].
Qed.

Lemma total_rank_start n : total_rank (replicate n AtStart) = (10 * n)%nat.
Proof. unfold total_rank. induction n as [|n IH]; cbn; [reflexivity | rewrite IH; lia]. Qed.

Lemma forallb_false {A : Type} (f : A -> bool) (l : list A) :
  forallb f l = false -> exists x, In x l /\ f x = false.
Proof.
  induction l as [|x l IH]; cbn; [discriminate|].
  destruct (f x) eqn:Hx; cbn.
  - intros Hl. destruct (IH Hl) as (y & Hy & Hfy). eauto.
  - intros _. eauto.
Qed.

End MachineFacts.

(** ** The race for one name *)

(** Case analysis on a lookup in a list updated at [t]. *)
Ltac split_thread t1 q t Hq Ht :=
  destruct (decide (t1 = t));
  [ subst t1; rewrite list_lookup_insert_eq in Hq by exact Ht;
    injection Hq as Hq; subst q
  | rewrite list_lookup_insert_ne in Hq by congruence ].

(** Two lookups at the same index give the same element. *)
Ltac same_lookup H1 H2 x :=
  rewrite H2 in H1; injection H1 as H1; subst x.

Section RaceFacts.

Context `{SqlEngine}.

Variables (st0 : server) (u : text) (sessions : list ptr).

Hypothesis st0_ok : registry_ok st0.
Hypothesis u_trim : trim_newline u = u.
Hypothesis u_len : (0 < length u < MAX_USERNAME)%nat.
Hypothesis sessions_nodup : NoDup sessions.
Hypothesis sessions_listed :
  forall s, In s sessions -> In s (clients_head st0) /\ authenticated (deref st0 s) = false.
Hypothesis u_free : find_client_by_name st0 u = None.

Lemma u_no_nul : NUL ∉ u.
Proof. rewrite <- u_trim. apply trim_newline_no_nul. Qed.

Local Abbreviation inv := (AuthRace.inv st0 u sessions).
Local Abbreviation expected := (AuthRace.expected st0 u).
Local Abbreviation inv_threads := (AuthRace.inv_threads st0 u sessions).
Local Abbreviation inv_len := (AuthRace.inv_len st0 u sessions).
Local Abbreviation inv_heap := (AuthRace.inv_heap st0 u sessions).
Local Abbreviation inv_frame := (AuthRace.inv_frame st0 u sessions).
Local Abbreviation inv_list := (AuthRace.inv_list st0 u sessions).
Local Abbreviation inv_owner := (AuthRace.inv_owner st0 u sessions).
Local Abbreviation inv_sent := (AuthRace.inv_sent st0 u sessions).
Local Abbreviation inv_holder := (AuthRace.inv_holder st0 u sessions).
Local Abbreviation inv_deciding := (AuthRace.inv_deciding st0 u sessions).
Local Abbreviation inv_lost := (AuthRace.inv_lost st0 u sessions).
Local Abbreviation inv_winner := (AuthRace.inv_winner st0 u sessions).

Lemma sessions_lookup_inj t t' s :
  sessions !! t = Some s -> sessions !! t' = Some s -> t = t'.
Proof. intros. eapply NoDup_lookup; eauto. Qed.

Lemma session_member t s : sessions !! t = Some s -> In s sessions.
Proof. intros Hs. apply list_elem_of_In. eapply list_elem_of_lookup_2; eauto. Qed.

Lemma session_allocated t s :
  sessions !! t = Some s -> heap st0 !! s = Some (deref st0 s).
Proof.
  intros Hs. apply session_member, sessions_listed in Hs as [Hin _].
  apply (ok_live _ st0_ok) in Hin as [x Hx]. unfold deref. rewrite Hx. reflexivity.
Qed.

(** One thread moves from [p] to [p'], with the memory, the owners and the
    trace changed as its operation prescribes. *)
Lemma inv_update c pcs t s p p' sh' ow' tr' :
  inv c pcs -> sessions !! t = Some s -> pcs !! t = Some p ->
  heap sh' = <[s := expected s p']> (heap (shared c)) ->
  clients_head sh' = clients_head (shared c) ->
  (forall m, ow' m = if bool_decide (held_by p' s m = held_by p s m) then owner c m
                     else if held_by p' s m then Some t else None) ->
  (forall m, held_by p' s m = true -> held_by p s m = true \/ owner c m = None) ->
  sent_to s tr' = sent u p' ->
  (forall s', s' <> s -> sent_to s' tr' = sent_to s' (trace c)) ->
  holder clients_lock tr' = Some (ow' clients_lock) ->
  (deciding p' = true ->
     deciding p = true \/ forall t' q, pcs !! t' = Some q -> won q = false) ->
  (lost p' = true ->
     lost p = true \/ exists t' q, pcs !! t' = Some q /\ won q = true) ->
  (won p' = true -> won p = true \/ deciding p = true) ->
  (won p = true -> won p' = true) ->
  inv (Config sh' ow' (<[t := code_at u s p']> (threads c)) tr') (<[t := p']> pcs).
Proof.
  intros [Hthr Hlen Hheap Hframe Hlist Hown Hsent Hhold Hdec Hlost Hwin]
         Hs Hp Hsh Hcl How Hacq Hsent1 Hsent2 Hhold' Hdec' Hlost' Hwon' Hstay.
  assert (Ht : (t < length pcs)%nat) by (eapply lookup_lt_Some; eauto).
  assert (Hcs : forall t1 q, pcs !! t1 = Some q -> in_cs q = true ->
                  owner c clients_lock = Some t1).
  { intros t1 q Hq Hin. apply Hown.
    destruct (sessions !! t1) as [s1|] eqn:Hs1.
    - exists s1, q. auto.
    - apply lookup_ge_None in Hs1. apply lookup_lt_Some in Hq. lia. }
  split; cbn [threads shared owner trace].
  - rewrite Hthr, insert_zip_with. f_equal. apply list_insert_id. exact Hs.
  - rewrite length_insert. exact Hlen.
  - intros t1 s1 q Hs1 Hq. rewrite Hsh. split_thread t1 q t Hq Ht.
    + same_lookup Hs1 Hs s1. apply lookup_insert_eq.
    + rewrite lookup_insert_ne; [eauto|].
      intros ->. eauto using sessions_lookup_inj.
  - intros q Hq. rewrite Hsh, lookup_insert_ne; [auto|].
    intros ->. apply Hq. eapply session_member; eauto.
  - congruence.
  - intros m t1. rewrite How. case_bool_decide as Hsame.
    + rewrite Hown. split.
      * intros (s1 & q & Hs1 & Hq & Hheld).
        destruct (decide (t1 = t)) as [-> | Hne].
        -- exists s, p'. rewrite list_lookup_insert_eq by assumption.
           same_lookup Hs1 Hs s1. same_lookup Hq Hp q.
           split; [assumption|]. split; [reflexivity | congruence].
        -- exists s1, q. rewrite list_lookup_insert_ne by congruence. auto.
      * intros (s1 & q & Hs1 & Hq & Hheld). split_thread t1 q t Hq Ht.
        -- same_lookup Hs1 Hs s1. exists s, p.
           split; [assumption|]. split; [assumption | congruence].
        -- exists s1, q. auto.
    + destruct (held_by p' s m) eqn:Hnew.
      * split.
        -- intros [= <-]. exists s, p'. rewrite list_lookup_insert_eq by assumption. auto.
        -- intros (s1 & q & Hs1 & Hq & Hheld). split_thread t1 q t Hq Ht; [reflexivity|].
           exfalso. destruct (Hacq m Hnew) as [Hold | Hfree]; [congruence|].
           assert (owner c m = Some t1) by (apply Hown; eauto). congruence.
      * split; [discriminate|].
        intros (s1 & q & Hs1 & Hq & Hheld). exfalso. split_thread t1 q t Hq Ht.
        -- same_lookup Hs1 Hs s1. congruence.
        -- assert (Hold : held_by p s m = true)
             by (destruct (held_by p s m); [reflexivity | congruence]).
           assert (owner c m = Some t1) by (apply Hown; eauto).
           assert (owner c m = Some t) by (apply Hown; eauto).
           congruence.
  - intros t1 s1 q Hs1 Hq. split_thread t1 q t Hq Ht.
    + same_lookup Hs1 Hs s1. exact Hsent1.
    + rewrite Hsent2; [eauto|].
      intros ->. eauto using sessions_lookup_inj.
  - exact Hhold'.
  - intros t1 q Hq Hqd t2 q2 Hq2.
    split_thread t1 q t Hq Ht; split_thread t2 q2 t Hq2 Ht.
    + destruct p'; discriminate || reflexivity.
    + destruct (Hdec' Hqd) as [Hd | Hd]; eauto.
    + destruct (won p') eqn:Hw; [exfalso | reflexivity].
      destruct (Hwon' eq_refl) as [Hpw | Hpd].
      * rewrite (Hdec _ _ Hq Hqd _ _ Hp) in Hpw. discriminate.
      * assert (owner c clients_lock = Some t1)
          by (apply (Hcs t1 q); [assumption | destruct q; discriminate || reflexivity]).
        assert (owner c clients_lock = Some t)
          by (apply (Hcs t p); [assumption | destruct p; discriminate || reflexivity]).
        congruence.
    + eauto.
  - intros t1 q Hq Hql.
    assert (Hex : exists t' q', pcs !! t' = Some q' /\ won q' = true).
    { split_thread t1 q t Hq Ht; [|eauto].
      destruct (Hlost' Hql) as [Hl | Hl]; eauto. }
    destruct Hex as (t' & q' & Hq' & Hw).
    destruct (decide (t' = t)) as [-> | Hne].
    + exists t, p'. rewrite list_lookup_insert_eq by assumption.
      split; [reflexivity|]. apply Hstay. same_lookup Hq' Hp q'. exact Hw.
    + exists t', q'. rewrite list_lookup_insert_ne by congruence. auto.
  - intros t1 t2 q1 q2 Hq1 Hq2 Hw1 Hw2.
    split_thread t1 q1 t Hq1 Ht; split_thread t2 q2 t Hq2 Ht.
    + reflexivity.
    + destruct (Hwon' Hw1) as [Hpw | Hpd]; [eauto|].
      rewrite (Hdec _ _ Hp Hpd _ _ Hq2) in Hw2. discriminate.
    + destruct (Hwon' Hw2) as [Hpw | Hpd]; [eauto|].
      rewrite (Hdec _ _ Hp Hpd _ _ Hq1) in Hw1. discriminate.
    + eauto.
Qed.

Lemma thread_session c pcs t s p :
  inv c pcs -> sessions !! t = Some s -> pcs !! t = Some p ->
  deref (shared c) s = expected s p.
Proof. intros Hinv Hs Hp. apply deref_lookup. eapply inv_heap; eauto. Qed.

Lemma thread_code c pcs t s p :
  inv c pcs -> sessions !! t = Some s -> pcs !! t = Some p ->
  threads c !! t = Some (code_at u s p).
Proof.
  intros Hinv Hs Hp. rewrite (inv_threads _ _ Hinv), lookup_zip_with, Hs, Hp. reflexivity.
Qed.

Lemma thread_holds c pcs t s p m :
  inv c pcs -> sessions !! t = Some s -> pcs !! t = Some p ->
  held_by p s m = true -> owner c m = Some t.
Proof. intros Hinv Hs Hp Hm. apply (inv_owner _ _ Hinv). eauto. Qed.

Lemma is_named_expected c pcs t s p :
  inv c pcs -> sessions !! t = Some s -> pcs !! t = Some p ->
  is_named (heap (shared c)) u s = won p.
Proof.
  intros Hinv Hs Hp. unfold is_named. rewrite (inv_heap _ _ Hinv _ _ _ Hs Hp).
  cbn [expected authenticated username].
  destruct (won p) eqn:Hw; [|reflexivity]. cbn [andb].
  replace (named p) with true by (destruct p; cbn in *; congruence).
  apply strncmp_eq_short; rewrite c_str_strncpy by (apply u_no_nul || apply u_len).
  - apply u_len.
  - symmetry. apply c_str_id, u_no_nul.
Qed.

(** The name is free exactly as long as no thread has set its flag. *)
Lemma available_iff_nobody_won c pcs :
  inv c pcs ->
  username_available (shared c) u = true <->
  forall t q, pcs !! t = Some q -> won q = false.
Proof.
  intros Hinv. unfold username_available, find_client_by_name.
  rewrite (inv_list _ _ Hinv).
  destruct (find_from (heap (shared c)) (clients_head st0) u) as [w|] eqn:Hfind.
  - split; [discriminate|]. intros Hnone. exfalso.
    apply find_from_some in Hfind as [Hin Hnamed].
    destruct (decide (w ∈ sessions)) as [Hw | Hw].
    + apply list_elem_of_lookup in Hw as [t Ht].
      destruct (pcs !! t) as [q|] eqn:Hq.
      * rewrite (is_named_expected _ _ _ _ _ Hinv Ht Hq) in Hnamed.
        rewrite (Hnone _ _ Hq) in Hnamed. discriminate.
      * apply lookup_ge_None in Hq. apply lookup_lt_Some in Ht.
        rewrite (inv_len _ _ Hinv) in Hq. lia.
    + unfold find_client_by_name in u_free. rewrite find_from_none in u_free.
      specialize (u_free w Hin). unfold is_named in *.
      rewrite (inv_frame _ _ Hinv) in Hnamed by (rewrite <- list_elem_of_In; exact Hw).
      congruence.
  - split; [|reflexivity]. intros _ t q Hq.
    destruct (sessions !! t) as [s|] eqn:Hs.
    + rewrite find_from_none in Hfind.
      rewrite <- (is_named_expected _ _ _ _ _ Hinv Hs Hq). apply Hfind.
      apply sessions_listed. eapply session_member; eauto.
    + apply lookup_ge_None in Hs. apply lookup_lt_Some in Hq.
      rewrite (inv_len _ _ Hinv) in Hq. lia.
Qed.




(** The first operation of [handle_line] on the line [AUTH u], for a
    session whose flag is still false: on to the critical section. *)
Lemma exec_start (c : config flow) t s :
  threads c !! t = Some (code_at u s AtStart) ->
  authenticated (deref (shared c) s) = false ->
  exec t c =
  Some (Config (shared c) (owner c) (<[t := code_at u s AtLock]> (threads c)) (trace c)).
Proof.
  intros Hc Hauth. unfold exec. rewrite Hc. cbn [code_at]. unfold handle_line.
  cbn [bind read]. rewrite Hauth. cbn [negb].
  change (strncmp_eq (lit "AUTH " ++ u) (lit "AUTH ") 5) with true. cbv iota.
  change (drop 5 (lit "AUTH " ++ u)) with u. cbv zeta. rewrite u_trim.
  assert (Hlen : strlen u = Z.of_nat (length u))
    by (unfold strlen; rewrite c_str_id by apply u_no_nul; reflexivity).
  rewrite Hlen.
  replace (Z.of_nat (length u) =? 0) with false by (symmetry; apply Z.eqb_neq; lia).
  replace (Z.of_nat MAX_USERNAME <=? Z.of_nat (length u)) with false
    by (symmetry; apply Z.leb_gt; lia).
  reflexivity.
Qed.
(** Side conditions of [inv_update] that hold by computation on the two
    program points. *)
Ltac owners_unchanged :=
  let m := fresh "m" in
  intros m; rewrite bool_decide_eq_true_2; [reflexivity | destruct m; reflexivity].

Ltac owners_changed :=
  let m := fresh "m" in
  intros m; unfold set_owner, held_by; destruct m; cbn [in_cs in_send andb];
  repeat case_decide; repeat case_bool_decide; simplify_eq; try reflexivity;
  try congruence.

Ltac nothing_acquired :=
  let m := fresh "m" in
  let Hm := fresh "Hm" in
  intros m Hm; left; destruct m; exact Hm.

Ltac flags_unchanged :=
  first [ discriminate | intros _; left; reflexivity | intros ?; assumption
        | intros _; reflexivity | intros ?; left; assumption ].

Ltac routine Hheap Hsent Hhold :=
  first
  [ eassumption | reflexivity | flags_unchanged
  | rewrite insert_id; [reflexivity | exact Hheap]
  | owners_unchanged
  | nothing_acquired
  | rewrite sent_to_snoc, app_nil_r; exact Hsent
  | intros ? _; rewrite sent_to_snoc, app_nil_r; reflexivity
  | rewrite holder_snoc, Hhold; reflexivity ].

Lemma step_preserves c pcs t c' :
  inv c pcs -> exec t c = Some c' ->
  exists pcs', inv c' pcs' /\ (total_rank pcs' < total_rank pcs)%nat.
Proof.
  intros Hinv Hexec.
  destruct (threads c !! t) as [code|] eqn:Hcode;
    [|unfold exec in Hexec; rewrite Hcode in Hexec; discriminate].
  pose proof Hcode as Hcode'.
  rewrite (inv_threads _ _ Hinv) in Hcode'.
  apply lookup_zip_with_Some in Hcode' as (s & p & -> & Hs & Hp).
  pose proof (thread_session _ _ _ _ _ Hinv Hs Hp) as Hsess.
  pose proof (inv_heap _ _ Hinv _ _ _ Hs Hp) as Hheap.
  pose proof (inv_sent _ _ Hinv _ _ _ Hs Hp) as Hsent.
  pose proof (inv_holder _ _ Hinv) as Hhold.
  destruct p as [ | | | | |ok| |ok stage|ok].
  - (* the flag is read *)
    rewrite (exec_start c t s Hcode) in Hexec by (rewrite Hsess; reflexivity).
    injection Hexec as <-. exists (<[t := AtLock]> pcs).
    split; [|eapply total_rank_insert; [eassumption | cbn; lia]].
    eapply (inv_update c pcs t s AtStart AtLock); routine Hheap Hsent Hhold.
  - (* pthread_mutex_lock(&clients_lock) *)
    rewrite (exec_acquire c t clients_lock (code_check u s) Hcode) in Hexec.
    destruct (owner c clients_lock) eqn:Hfree; [discriminate|].
    injection Hexec as <-. exists (<[t := AtCheck]> pcs).
    split; [|eapply total_rank_insert; [eassumption | cbn; lia]].
    eapply (inv_update c pcs t s AtLock AtCheck);
      first
      [ routine Hheap Hsent Hhold
      | solve [owners_changed]
      | solve [intros m Hm; right; destruct m; try discriminate; exact Hfree] ].
  - (* username_available(username) *)
    rewrite (exec_step c t (fun st => (username_available st u, st))
               (fun a : bool => if a then code_copy u s else code_unlock u s false) Hcode)
      in Hexec.
    cbn [fst snd] in Hexec. injection Hexec as <-.
    pose proof (available_iff_nobody_won _ _ Hinv) as Havail.
    destruct (username_available (shared c) u) eqn:Hav.
    + exists (<[t := AtCopy]> pcs).
      split; [|eapply total_rank_insert; [eassumption | cbn; lia]].
      eapply (inv_update c pcs t s AtCheck AtCopy);
        first
        [ routine Hheap Hsent Hhold
        | solve [intros _; right; apply Havail; reflexivity] ].
    + exists (<[t := AtUnlock false]> pcs).
      split; [|eapply total_rank_insert; [eassumption | cbn; lia]].
      eapply (inv_update c pcs t s AtCheck (AtUnlock false));
        first
        [ routine Hheap Hsent Hhold
        | solve [intros _; right; destruct (won_or_not pcs) as [Hex | Hno];
                 [exact Hex | apply Havail in Hno; discriminate]] ].
  - (* strncpy(session->username, username, sizeof(session->username)) *)
    rewrite (exec_step c t
               (fun st => (tt, update_session s (fun x =>
                  Session (socket_fd x) (strncpy u MAX_USERNAME) (authenticated x)) st))
               (fun _ : unit => code_set u s) Hcode) in Hexec.
    cbn [fst snd] in Hexec. injection Hexec as <-. exists (<[t := AtSet]> pcs).
    split; [|eapply total_rank_insert; [eassumption | cbn; lia]].
    eapply (inv_update c pcs t s AtCopy AtSet);
      first
      [ solve [unfold update_session; cbn [heap set_heap]; rewrite Hsess; reflexivity]
      | routine Hheap Hsent Hhold ].
  - (* session->authenticated = true *)
    rewrite (exec_step c t
               (fun st => (tt, update_session s (fun x =>
                  Session (socket_fd x) (username x) true) st))
               (fun _ : unit => code_unlock u s true) Hcode) in Hexec.
    cbn [fst snd] in Hexec. injection Hexec as <-. exists (<[t := AtUnlock true]> pcs).
    split; [|eapply total_rank_insert; [eassumption | cbn; lia]].
    eapply (inv_update c pcs t s AtSet (AtUnlock true));
      first
      [ solve [unfold update_session; cbn [heap set_heap]; rewrite Hsess; reflexivity]
      | routine Hheap Hsent Hhold
      | solve [intros _; right; reflexivity] ].
  - (* pthread_mutex_unlock(&clients_lock) *)
    rewrite (exec_release c t clients_lock
               (if ok then code_name s else code_send u s false SendLock) Hcode) in Hexec.
    injection Hexec as <-.
    assert (Hmine : owner c clients_lock = Some t)
      by (eapply thread_holds; eauto; reflexivity).
    exists (<[t := if ok then AtName else AtSend false SendLock]> pcs).
    split; [|eapply total_rank_insert; [eassumption | destruct ok; cbn; lia]].
    destruct ok;
      [ eapply (inv_update c pcs t s (AtUnlock true) AtName)
      | eapply (inv_update c pcs t s (AtUnlock false) (AtSend false SendLock)) ];
      first
      [ routine Hheap Hsent Hhold
      | solve [owners_changed]
      | solve [intros m Hm; destruct m; discriminate]
      | solve [rewrite holder_snoc, Hhold, Hmine; cbn; unfold set_owner;
               rewrite !decide_True by reflexivity; reflexivity] ].
  - (* the name for the reply *)
    rewrite (exec_step c t
               (fun st => (c_str (username (deref st s)), st))
               (fun me => bind (send_formatted s (lit "OK Authenticated as " ++ me))
                               (fun _ => Ret Continue)) Hcode) in Hexec.
    cbn [fst snd] in Hexec. rewrite Hsess in Hexec.
    cbn [expected username named won] in Hexec.
    rewrite c_str_strncpy in Hexec by (apply u_no_nul || apply u_len).
    injection Hexec as <-. exists (<[t := AtSend true SendLock]> pcs).
    split; [|eapply total_rank_insert; [eassumption | cbn; lia]].
    eapply (inv_update c pcs t s AtName (AtSend true SendLock));
      routine Hheap Hsent Hhold.
  - destruct stage.
    + (* pthread_mutex_lock(&session->send_lock) *)
      rewrite (exec_acquire c t (send_lock s)
                 (code_send u s ok SendEmit) Hcode) in Hexec.
      destruct (owner c (send_lock s)) eqn:Hfree; [discriminate|].
      injection Hexec as <-. exists (<[t := AtSend ok SendEmit]> pcs).
      split; [|eapply total_rank_insert; [eassumption | cbn; lia]].
      eapply (inv_update c pcs t s (AtSend ok SendLock) (AtSend ok SendEmit));
        first
        [ routine Hheap Hsent Hhold
        | solve [owners_changed]
        | solve [intros m Hm; right; destruct m as [|s'|]; try discriminate;
                 cbn in Hm; case_bool_decide; [subst; exact Hfree | discriminate]] ].
    + (* send(session->socket_fd, buffer, strlen(buffer), 0) *)
      rewrite (exec_emit c t (Send s (frame (reply u ok)))
                 (code_send u s ok SendUnlock) Hcode) in Hexec.
      injection Hexec as <-. exists (<[t := AtSend ok SendUnlock]> pcs).
      split; [|eapply total_rank_insert; [eassumption | cbn; lia]].
      eapply (inv_update c pcs t s (AtSend ok SendEmit) (AtSend ok SendUnlock));
        first
        [ solve [rewrite sent_to_snoc, Hsent, decide_True by reflexivity; reflexivity]
        | solve [intros s' Hne; rewrite sent_to_snoc, decide_False by congruence;
                 apply app_nil_r]
        | routine Hheap Hsent Hhold ].
    + (* pthread_mutex_unlock(&session->send_lock) *)
      rewrite (exec_release c t (send_lock s) (Ret Continue) Hcode) in Hexec.
      injection Hexec as <-. exists (<[t := AtDone ok]> pcs).
      split; [|eapply total_rank_insert; [eassumption | cbn; lia]].
      eapply (inv_update c pcs t s (AtSend ok SendUnlock) (AtDone ok));
        first
        [ routine Hheap Hsent Hhold
        | solve [owners_changed]
        | solve [intros m Hm; destruct m; discriminate] ].
  - rewrite (exec_ret c t Continue Hcode) in Hexec. discriminate.
Qed.
Lemma thread_of_session s :
  In s sessions -> exists t, sessions !! t = Some s.
Proof. intros Hin. apply list_elem_of_lookup, list_elem_of_In, Hin. Qed.

Lemma pc_of_thread c pcs t s :
  inv c pcs -> sessions !! t = Some s -> exists p, pcs !! t = Some p.
Proof.
  intros Hinv Hs. apply lookup_lt_is_Some. rewrite (inv_len _ _ Hinv).
  eapply lookup_lt_Some; eauto.
Qed.

Lemma expected_start s :
  authenticated (deref st0 s) = false -> expected s AtStart = deref st0 s.
Proof.
  unfold expected. cbn [named won]. destruct (deref st0 s) as [fd name a].
  cbn. intros ->. reflexivity.
Qed.

Lemma start_threads l :
  map (fun s => handle_line s (lit "AUTH " ++ u)) l =
  zip_with (code_at u) l (replicate (length l) AtStart).
Proof. induction l as [|s l IH]; [reflexivity|]. cbn. f_equal. exact IH. Qed.

(** Before any thread has moved. *)
Lemma inv_start : inv (start st0 u sessions) (replicate (length sessions) AtStart).
Proof.
  assert (Hall : forall t p, replicate (length sessions) AtStart !! t = Some p -> p = AtStart)
    by (intros t p Hp; apply lookup_replicate in Hp as [-> _]; reflexivity).
  split; cbn [start threads shared owner trace].
  - apply start_threads.
  - apply length_replicate.
  - intros t s p Hs Hp. apply Hall in Hp as ->.
    rewrite expected_start by (apply sessions_listed; eapply session_member; eauto).
    eapply session_allocated; eauto.
  - reflexivity.
  - reflexivity.
  - intros m t. split; [discriminate|].
    intros (s & p & _ & Hp & Hheld). apply Hall in Hp as ->.
    destruct m; discriminate.
  - intros t s p _ Hp. apply Hall in Hp as ->. reflexivity.
  - reflexivity.
  - intros t p Hp Hd. apply Hall in Hp as ->. discriminate.
  - intros t p Hp Hl. apply Hall in Hp as ->. discriminate.
  - intros t t' p p' Hp _ Hw. apply Hall in Hp as ->. discriminate.
Qed.

Lemma run_schedule_inv sched : forall c pcs,
  inv c pcs -> exists pcs', inv (run_schedule sched c) pcs'.
Proof.
  induction sched as [|t sched IH]; intros c pcs Hinv; cbn [run_schedule]; [eauto|].
  destruct (exec t c) as [c'|] eqn:Hexec; [|eauto].
  destruct (step_preserves _ _ _ _ Hinv Hexec) as (pcs' & Hinv' & _). eauto.
Qed.

(** Every operation uses up rank: no schedule makes more moves than the
    threads have operations. *)
Lemma all_moves_bounded sched : forall c pcs,
  inv c pcs -> all_moves sched c -> (length sched <= total_rank pcs)%nat.
Proof.
  induction sched as [|t sched IH]; intros c pcs Hinv Hmoves; cbn in *; [lia|].
  destruct (exec t c) as [c'|] eqn:Hexec; [|contradiction].
  destruct (step_preserves _ _ _ _ Hinv Hexec) as (pcs' & Hinv' & Hrank).
  specialize (IH _ _ Hinv' Hmoves). lia.
Qed.


(** The registry is consistent in every configuration of the race. *)
Lemma inv_registry_ok c pcs : inv c pcs -> registry_ok (shared c).
Proof.
  intros Hinv. destruct st0_ok as [Hnd Hlive Huniq Hfits].
  assert (Hcase : forall q, (exists t p, sessions !! t = Some q /\ pcs !! t = Some p)
                            \/ ~ In q sessions).
  { intros q. destruct (decide (q ∈ sessions)) as [Hq | Hq].
    - left. apply list_elem_of_lookup in Hq as [t Ht].
      destruct (pc_of_thread _ _ _ _ Hinv Ht) as [p Hp]. eauto.
    - right. rewrite <- list_elem_of_In. exact Hq. }
  assert (Hname : forall t s p x, sessions !! t = Some s -> pcs !! t = Some p ->
            heap (shared c) !! s = Some x -> authenticated x = true ->
            won p = true /\ c_str (username x) = u).
  { intros t s p x Hs Hp Hx Hauth.
    rewrite (inv_heap _ _ Hinv _ _ _ Hs Hp) in Hx. injection Hx as <-.
    cbn [expected authenticated username] in *. split; [exact Hauth|].
    replace (named p) with true by (destruct p; cbn in *; congruence).
    apply c_str_strncpy; [apply u_no_nul | apply u_len]. }
  assert (Hout : forall q x, ~ In q sessions -> heap (shared c) !! q = Some x ->
            authenticated x = true -> c_str (username x) <> u).
  { intros q x Hq Hx Hauth Heq. rewrite (inv_frame _ _ Hinv) in Hx by assumption.
    assert (Hin : In q (clients_head st0)) by (apply Hlive; eauto).
    unfold find_client_by_name in u_free. rewrite find_from_none in u_free.
    specialize (u_free q Hin). unfold is_named in u_free. rewrite Hx, Hauth in u_free.
    cbn [andb] in u_free.
    assert (strncmp_eq (username x) u MAX_USERNAME = true); [|congruence].
    apply strncmp_eq_short; [eauto|]. rewrite (c_str_id u) by apply u_no_nul. exact Heq. }
  split; rewrite ?(inv_list _ _ Hinv).
  - exact Hnd.
  - intros q. destruct (Hcase q) as [(t & p & Hs & Hp) | Hq].
    + rewrite (inv_heap _ _ Hinv _ _ _ Hs Hp). split; [eauto|]. intros _.
      apply sessions_listed. eapply session_member; eauto.
    + rewrite (inv_frame _ _ Hinv) by assumption. apply Hlive.
  - intros a b xa xb Ha Hb Haa Hab Heq.
    destruct (Hcase a) as [(ta & pa & Hsa & Hpa) | Hna];
      destruct (Hcase b) as [(tb & pb & Hsb & Hpb) | Hnb].
    + destruct (Hname _ _ _ _ Hsa Hpa Ha Haa) as [Hwa _].
      destruct (Hname _ _ _ _ Hsb Hpb Hb Hab) as [Hwb _].
      assert (ta = tb) by (eapply (inv_winner _ _ Hinv); eauto). subst tb.
      rewrite Hsa in Hsb. injection Hsb as <-. reflexivity.
    + destruct (Hname _ _ _ _ Hsa Hpa Ha Haa) as [_ Hua].
      exfalso. eapply Hout; eauto. congruence.
    + destruct (Hname _ _ _ _ Hsb Hpb Hb Hab) as [_ Hub].
      exfalso. eapply Hout; eauto. congruence.
    + rewrite (inv_frame _ _ Hinv) in Ha, Hb by assumption. eauto.
  - intros q x Hx. destruct (Hcase q) as [(t & p & Hs & Hp) | Hq].
    + rewrite (inv_heap _ _ Hinv _ _ _ Hs Hp) in Hx. injection Hx as <-.
      cbn [expected username]. destruct (named p).
      * rewrite c_str_strncpy by (apply u_no_nul || apply u_len). apply u_len.
      * eapply Hfits. eapply session_allocated; eauto.
    + rewrite (inv_frame _ _ Hinv) in Hx by assumption. eauto.
Qed.
Lemma finished_code s p :
  finished (code_at u s p) = true -> exists ok, p = AtDone ok.
Proof.
  destruct p as [ | | | | |ok| |ok stage|ok];
    try (cbn; discriminate);
    try (unfold code_at, handle_line; cbn [bind read finished]; discriminate);
    try (destruct stage; cbn; discriminate).
  eauto.
Qed.

Lemma all_finished_done c pcs :
  inv c pcs -> all_finished c = true ->
  forall t p, pcs !! t = Some p -> exists ok, p = AtDone ok.
Proof.
  intros Hinv Hfin t p Hp. unfold all_finished in Hfin.
  rewrite forallb_forall in Hfin.
  destruct (sessions !! t) as [s|] eqn:Hs.
  - apply (finished_code s). apply Hfin. apply list_elem_of_In.
    eapply list_elem_of_lookup_2. eapply thread_code; eauto.
  - apply lookup_ge_None in Hs. apply lookup_lt_Some in Hp.
    rewrite (inv_len _ _ Hinv) in Hp. lia.
Qed.

(** When every thread is done, one session has been told it is
    authenticated and holds the name; each of the others has been told the
    name is taken and is still unauthenticated. *)
Lemma race_outcome c pcs :
  sessions <> [] -> inv c pcs -> all_finished c = true ->
  exists w, In w sessions
    /\ sent_to w (trace c) = [frame (lit "OK Authenticated as " ++ u)]
    /\ find_client_by_name (shared c) u = Some w
    /\ forall s, In s sessions -> s <> w ->
         sent_to s (trace c) = [frame (lit "ERROR Username taken")]
         /\ authenticated (deref (shared c) s) = false.
Proof.
  intros Hne Hinv Hfin.
  pose proof (all_finished_done _ _ Hinv Hfin) as Hdone.
  assert (Hwinner : exists t q, pcs !! t = Some q /\ won q = true).
  { destruct (won_or_not pcs) as [Hex | Hnone]; [exact Hex|].
    assert (Hpos : (0 < length sessions)%nat)
      by (destruct (length_zero_iff_nil sessions) as [Hnil _];
          destruct (length sessions); [exfalso; auto | lia]).
    destruct (pcs !! 0%nat) as [p|] eqn:Hp.
    - destruct (Hdone _ _ Hp) as [ok ->].
      pose proof (Hnone _ _ Hp) as Hw. destruct ok; [cbn in Hw; discriminate|].
      eapply (inv_lost _ _ Hinv); eauto.
    - apply lookup_ge_None in Hp. rewrite (inv_len _ _ Hinv) in Hp. lia. }
  destruct Hwinner as (tw & q & Hq & Hw).
  destruct (Hdone _ _ Hq) as [ok ->]. destruct ok; [|discriminate].
  assert (Hsw : exists w, sessions !! tw = Some w).
  { apply lookup_lt_is_Some. rewrite <- (inv_len _ _ Hinv).
    eapply lookup_lt_Some; eauto. }
  destruct Hsw as [w Hsw]. exists w.
  split; [eapply session_member; eauto|].
  split; [exact (inv_sent _ _ Hinv _ _ _ Hsw Hq)|].
  split.
  - apply find_client_by_name_spec; [eapply inv_registry_ok; eauto|].
    rewrite (inv_list _ _ Hinv), (thread_session _ _ _ _ _ Hinv Hsw Hq).
    cbn [expected authenticated username named won].
    split; [apply sessions_listed; eapply session_member; eauto|].
    split; [reflexivity|].
    rewrite c_str_strncpy by (apply u_no_nul || apply u_len).
    symmetry. apply c_str_id, u_no_nul.
  - intros s Hs Hsne. apply thread_of_session in Hs as [t Ht].
    destruct (pc_of_thread _ _ _ _ Hinv Ht) as [p Hp].
    destruct (Hdone _ _ Hp) as [ok ->].
    destruct ok.
    + exfalso. apply Hsne.
      assert (t = tw) by (eapply (inv_winner _ _ Hinv); eauto). subst t.
      rewrite Hsw in Ht. injection Ht as <-. reflexivity.
    + split; [exact (inv_sent _ _ Hinv _ _ _ Ht Hp)|].
      rewrite (thread_session _ _ _ _ _ Hinv Ht Hp). reflexivity.
Qed.


(** No deadlock: while a thread has code left, some thread can move. *)
Lemma race_progress c pcs :
  inv c pcs -> all_finished c = false -> exists t, is_Some (exec t c).
Proof.
  intros Hinv Hfin.
  destruct (owner c clients_lock) as [t0|] eqn:Hown.
  - (* the holder of the registry lock is never blocked *)
    exists t0. apply (inv_owner _ _ Hinv) in Hown as (s & p & Hs & Hp & Hheld).
    pose proof (thread_code _ _ _ _ _ Hinv Hs Hp) as Hcode.
    destruct p as [ | | | | |ok| |ok stage|ok]; try discriminate.
    + rewrite (exec_step c t0 (fun st => (username_available st u, st))
                 (fun a : bool => if a then code_copy u s else code_unlock u s false) Hcode).
      eauto.
    + rewrite (exec_step c t0
                 (fun st => (tt, update_session s (fun x =>
                    Session (socket_fd x) (strncpy u MAX_USERNAME) (authenticated x)) st))
                 (fun _ : unit => code_set u s) Hcode). eauto.
    + rewrite (exec_step c t0
                 (fun st => (tt, update_session s (fun x =>
                    Session (socket_fd x) (username x) true) st))
                 (fun _ : unit => code_unlock u s true) Hcode). eauto.
    + rewrite (exec_release c t0 clients_lock
                 (if ok then code_name s else code_send u s false SendLock) Hcode). eauto.
  - unfold all_finished in Hfin.
    apply forallb_false in Hfin as (code & Hin & Hcode_fin).
    apply list_elem_of_In, list_elem_of_lookup in Hin as [t Hcode].
    exists t. pose proof Hcode as Hcode'.
    rewrite (inv_threads _ _ Hinv) in Hcode'.
    apply lookup_zip_with_Some in Hcode' as (s & p & -> & Hs & Hp).
    assert (Hnot_cs : in_cs p = false).
    { destruct (in_cs p) eqn:Hcs; [|reflexivity].
      assert (owner c clients_lock = Some t)
        by (eapply thread_holds; eauto). congruence. }
    destruct p as [ | | | | |ok| |ok stage|ok]; try discriminate.
    + rewrite (exec_start c t s Hcode); [eauto|].
      rewrite (thread_session _ _ _ _ _ Hinv Hs Hp). reflexivity.
    + rewrite (exec_acquire c t clients_lock (code_check u s) Hcode), Hown. eauto.
    + rewrite (exec_step c t
                 (fun st => (c_str (username (deref st s)), st))
                 (fun me => bind (send_formatted s (lit "OK Authenticated as " ++ me))
                                 (fun _ => Ret Continue)) Hcode). eauto.
    + destruct stage.
      * rewrite (exec_acquire c t (send_lock s) (code_send u s ok SendEmit) Hcode).
        destruct (owner c (send_lock s)) as [t'|] eqn:Hsend; [|eauto].
        exfalso. apply (inv_owner _ _ Hinv) in Hsend as (s' & p' & Hs' & Hp' & Hheld).
        cbn in Hheld. apply andb_true_iff in Hheld as [Hsending Hsame].
        apply bool_decide_eq_true_1 in Hsame. subst s'.
        assert (t' = t) by (eapply sessions_lookup_inj; eauto). subst t'.
        rewrite Hp in Hp'. injection Hp' as <-. discriminate.
      * rewrite (exec_emit c t (Send s (frame (reply u ok)))
                   (code_send u s ok SendUnlock) Hcode). eauto.
      * rewrite (exec_release c t (send_lock s) (Ret Continue) Hcode). eauto.
Qed.

End RaceFacts.

(** C1. Any number of workers handle [AUTH u] for the same valid name [u],
    free at the start, each for its own unauthenticated session of the
    list, their operations interleaved in any order the mutexes allow. At
    every point of every interleaving the registry is consistent (in
    particular no two authenticated sessions have the same name) and the
    critical sections on [clients_lock], which enclose the check and the
    insertion, do not overlap. No interleaving blocks, none makes more than
    ten moves per worker, and when all workers are done exactly one session
    has been sent [OK Authenticated as u] and holds the name, while every
    other has been sent [ERROR Username taken] and is not authenticated. *)
Theorem concurrent_auth_exactly_one_succeeds `{SqlEngine}
    (st0 : server) (u : text) (sessions : list ptr) (sched : list tid) :
  registry_ok st0 ->
  trim_newline u = u -> (0 < length u < MAX_USERNAME)%nat ->
  NoDup sessions -> sessions <> [] ->
  (forall s, In s sessions ->
     In s (clients_head st0) /\ authenticated (deref st0 s) = false) ->
  find_client_by_name st0 u = None ->
  let c := run_schedule sched (start st0 u sessions) in
  registry_ok (shared c)
  /\ exclusive clients_lock (trace c) = true
  /\ (all_finished c = true ->
        exists w, In w sessions
          /\ sent_to w (trace c) = [frame (lit "OK Authenticated as " ++ u)]
          /\ find_client_by_name (shared c) u = Some w
          /\ forall s, In s sessions -> s <> w ->
               sent_to s (trace c) = [frame (lit "ERROR Username taken")]
               /\ authenticated (deref (shared c) s) = false)
  /\ (all_finished c = false -> exists t, is_Some (exec t c))
  /\ (all_moves sched (start st0 u sessions) ->
        (length sched <= 10 * length sessions)%nat).
Proof.
  intros Hok Htrim Hlen Hnd Hne Hlisted Hfree c.
  assert (Hstart : inv st0 u sessions (start st0 u sessions)
                       (replicate (length sessions) AtStart))
    by (apply inv_start; assumption).
  assert (Hinv : exists pcs, inv st0 u sessions c pcs)
    by (eapply run_schedule_inv; eassumption).
  destruct Hinv as [pcs Hinv].
  split; [eapply inv_registry_ok; eassumption|].
  split; [unfold exclusive; rewrite (inv_holder _ _ _ _ _ Hinv); reflexivity|].
  split; [intros Hfin; eapply race_outcome; eassumption|].
  split; [intros Hfin; eapply race_progress; eassumption|].
  intros Hmoves. rewrite <- (total_rank_start (length sessions)).
  eapply all_moves_bounded; eassumption.
Qed.

(** * Further properties *)

Import Discipline.

(** ** Lock order *)

Section DisciplineFacts.

Context `{SqlEngine}.

Lemma nested_bind {R S : Type} s s1 s2 (p : prog R) (k : R -> prog S) :
  nested s s1 p -> (forall r, nested s1 s2 (k r)) -> nested s s2 (bind p k).
Proof.
  induction 1; intros Hk; simpl; try (constructor; auto). apply Hk.
Qed.

Lemma lock_event_none tr : fold_left lock_event tr None = None.
Proof. induction tr; simpl; auto. Qed.

Lemma lock_discipline_app s tr1 tr2 :
  lock_discipline s (tr1 ++ tr2) =
  match lock_discipline s tr1 with
  | Some s1 => lock_discipline s1 tr2
  | None => None
  end.
Proof.
  unfold lock_discipline. rewrite fold_left_app.
  destruct (fold_left lock_event tr1 (Some s)); [reflexivity | apply lock_event_none].
Qed.

Lemma lock_discipline_cons s e tr :
  lock_discipline s (e :: tr) =
  match lock_event (Some s) e with
  | Some s1 => lock_discipline s1 tr
  | None => None
  end.
Proof.
  unfold lock_discipline. cbn [fold_left].
  destruct (lock_event (Some s) e); [reflexivity | apply lock_event_none].
Qed.

Lemma nested_run {R : Type} s s' (p : prog R) :
  nested s s' p -> forall st, lock_discipline s (run p st).2 = Some s'.
Proof.
  induction 1 as [s r|s s' m k Hm _ IH|s s' m k _ IH|A s s' f k _ IH|s s' p d k _ IH
                  |s s' e k He _ IH]; intros st; cbn [run].
  - reflexivity.
  - specialize (IH st). destruct (run k st) as [[r st'] tr]. cbn [snd] in *.
    rewrite lock_discipline_cons. cbn [lock_event]. rewrite Hm. exact IH.
  - specialize (IH st). destruct (run k st) as [[r st'] tr]. cbn [snd] in *.
    rewrite lock_discipline_cons. cbn [lock_event].
    rewrite decide_True by reflexivity. exact IH.
  - destruct (f st) as [a st1]. specialize (IH a st1).
    destruct (run (k a) st1) as [[r st'] tr]. exact IH.
  - specialize (IH st). destruct (run k st) as [[r st'] tr]. cbn [snd] in *.
    rewrite lock_discipline_cons. cbn [lock_event].
    rewrite decide_True by reflexivity. exact IH.
  - specialize (IH st). destruct (run k st) as [[r st'] tr]. cbn [snd] in *.
    rewrite lock_discipline_cons.
    destruct e as [p d| | |]; [destruct (He p d eq_refl)| | |]; exact IH.
Qed.

Lemma nested_read {A : Type} s (f : server -> A) : nested s s (read f).
Proof. repeat constructor. Qed.

Lemma nested_send_formatted s session msg :
  no_send_lock s -> nested s s (send_formatted session msg).
Proof.
  intros Hs. unfold send_formatted. cbn [bind lock emit unlock].
  constructor; [exact Hs|]. repeat constructor.
Qed.

Lemma nested_for_each {A : Type} s (l : list A) (body : A -> prog unit) :
  (forall x, nested s s (body x)) -> nested s s (for_each l body).
Proof.
  intros Hbody. induction l; simpl; [constructor|].
  eapply nested_bind; eauto.
Qed.

Lemma nested_fold_callback {A C : Type} s (cb : A -> C -> prog C) (rows : list A) :
  (forall row c, nested s s (cb row c)) ->
  forall acc, nested s s acc ->
  nested s s (fold_left (fun acc row => bind acc (cb row)) rows acc).
Proof.
  intros Hcb. induction rows as [|row rows IH]; intros acc Hacc; simpl; [exact Hacc|].
  apply IH. eapply nested_bind; eauto.
Qed.

Lemma nested_store_message s r b : nested [] [] (store_message s r b).
Proof.
  unfold store_message. cbn [bind lock unlock]. constructor; [reflexivity|].
  constructor. intros rc. repeat constructor.
Qed.

Lemma nested_delete_conversation a b : nested [] [] (delete_conversation a b).
Proof.
  unfold delete_conversation. cbn [bind lock unlock]. constructor; [reflexivity|].
  constructor. intros rc. repeat constructor.
Qed.

Lemma nested_fetch_conversation {C : Type} a b (cb : message -> C -> prog C) ctx :
  (forall row c, nested [storage_lock] [storage_lock] (cb row c)) ->
  nested [] [] (fetch_conversation a b cb ctx).
Proof.
  intros Hcb. unfold fetch_conversation. cbn [bind lock]. constructor; [reflexivity|].
  constructor. intros res. eapply nested_bind.
  - apply nested_fold_callback; [exact Hcb | constructor].
  - intros c. repeat constructor.
Qed.

Lemma nested_history_emit session row c :
  nested [storage_lock] [storage_lock] (history_emit session row c).
Proof.
  unfold history_emit. eapply nested_bind.
  - apply nested_send_formatted. reflexivity.
  - intros _. constructor.
Qed.

Lemma nested_deliver_message s r b : nested [] [] (deliver_message s r b).
Proof.
  unfold deliver_message. eapply nested_bind; [apply nested_store_message|].
  intros rc. eapply nested_bind with (s1 := []).
  - destruct (rc =? 0); [constructor|].
    unfold last_error_text, emit. cbn [bind read]. constructor. intros err.
    apply nested_emit; [discriminate | constructor].
  - intros _. cbn [bind lock read]. constructor; [reflexivity|]. constructor.
    intros [t|].
    + eapply nested_bind; [apply nested_send_formatted; reflexivity|].
      intros _. repeat constructor.
    + repeat constructor.
Qed.

Lemma nested_notify_user_list session : nested [] [] (notify_user_list session).
Proof.
  unfold notify_user_list. cbn [bind lock read]. constructor; [reflexivity|].
  constructor. intros cur.
  eapply nested_bind; [apply nested_send_formatted; reflexivity|].
  intros _. eapply nested_bind.
  - apply nested_for_each. intros p. cbn [bind read]. constructor.
    intros s. destruct (authenticated s); [|constructor].
    apply nested_send_formatted. reflexivity.
  - intros _. cbn [bind unlock]. constructor.
    apply nested_send_formatted. reflexivity.
Qed.

Lemma nested_broadcast_shutdown_message : nested [] [] broadcast_shutdown_message.
Proof.
  unfold broadcast_shutdown_message. cbn [bind lock read]. constructor; [reflexivity|].
  constructor. intros cur. eapply nested_bind.
  - apply nested_for_each. intros p. cbn [bind read]. constructor.
    intros b. destruct b; [|constructor].
    apply nested_send_formatted. reflexivity.
  - intros _. repeat constructor.
Qed.

Lemma nested_add_client session : nested [] [] (add_client session).
Proof.
  unfold add_client. cbn [bind lock write unlock].
  constructor; [reflexivity|]. repeat constructor.
Qed.

Lemma nested_remove_client session : nested [] [] (remove_client session).
Proof.
  unfold remove_client. cbn [bind lock write unlock].
  constructor; [reflexivity|]. repeat constructor.
Qed.

Lemma nested_worker_exit session : nested [] [] (worker_exit session).
Proof.
  unfold worker_exit, emit. cbn [bind read].
  apply nested_emit; [discriminate|]. constructor. intros s.
  eapply nested_bind with (s1 := []).
  - destruct (authenticated s); [|constructor].
    apply nested_emit; [discriminate | constructor].
  - intros _. eapply nested_bind; [apply nested_remove_client|].
    intros _. repeat constructor.
Qed.

Lemma nested_accept_connection client_fd : nested [] [] (accept_connection client_fd).
Proof.
  unfold accept_connection. cbn [bind]. constructor. intros p.
  eapply nested_bind; [apply nested_add_client|].
  intros _. unfold emit. cbn [bind]. apply nested_emit; [discriminate | constructor].
Qed.

Lemma nested_handle_line session line : nested [] [] (handle_line session line).
Proof.
  unfold handle_line.
  repeat match goal with
  | |- nested _ _ (if ?c then _ else _) => destruct c
  | |- nested _ _ (match ?x with Some _ => _ | None => _ end) => destruct x
  | |- nested _ _ (let _ := _ in _) => cbv zeta
  | |- nested [] [] (bind (lock clients_lock) _) =>
      cbn [bind lock]; constructor; [reflexivity|]
  | |- nested [clients_lock] [] (bind (unlock clients_lock) _) =>
      cbn [bind unlock]; constructor
  | |- nested [clients_lock] _ (bind (read _) _) =>
      eapply nested_bind; [apply nested_read|]
  | |- nested [clients_lock] _ (bind (write _) _) =>
      eapply nested_bind; [unfold write; repeat constructor|]
  | |- nested [] [] (bind _ _) => eapply (nested_bind [] [] [])
  | |- nested _ _ (read _) => apply nested_read
  | |- nested _ _ (send_formatted _ _) => apply nested_send_formatted; reflexivity
  | |- nested _ _ (my_username _) => apply nested_read
  | |- nested _ _ last_error_text => apply nested_read
  | |- nested _ _ (deliver_message _ _ _) => apply nested_deliver_message
  | |- nested _ _ (delete_conversation _ _) => apply nested_delete_conversation
  | |- nested _ _ (notify_user_list _) => apply nested_notify_user_list
  | |- nested _ _ (fetch_conversation _ _ _ _) =>
      apply nested_fetch_conversation; intros; apply nested_history_emit
  | |- nested _ _ (Ret _) => constructor
  | |- forall _, _ => intros
  end.
Qed.

End DisciplineFacts.

(** Every command a worker handles, and the accept, exit and shutdown
    paths, take the mutexes in one order: [clients_lock] and [storage_lock]
    only with nothing held, a send lock innermost; each send is made under
    the send lock of the session written to; every mutex taken is released
    in reverse order before the code returns. *)
Theorem server_code_keeps_lock_order `{SqlEngine}
    (session : ptr) (line : text) (client_fd : Z) (st : server) :
  lock_discipline [] (run (handle_line session line) st).2 = Some []
  /\ lock_discipline [] (run (accept_connection client_fd) st).2 = Some []
  /\ lock_discipline [] (run (worker_exit session) st).2 = Some []
  /\ lock_discipline [] (run broadcast_shutdown_message st).2 = Some [].
Proof.
  split; [apply nested_run, nested_handle_line|].
  split; [apply nested_run, nested_accept_connection|].
  split; [apply nested_run, nested_worker_exit|].
  apply nested_run, nested_broadcast_shutdown_message.
Qed.

(** ** Workers under any schedule *)

Section OrderlyFacts.

Context `{SqlEngine}.

Lemma nested_invert {R : Type} s s' (p : prog R) : nested s s' p -> nested_inv s s' p.
Proof. destruct 1; simpl; eauto. Qed.

Lemma nested_finished {R : Type} s (p : prog R) :
  nested s [] p -> finished p = true -> s = [].
Proof. intros Hn Hf. destruct p; try discriminate. exact (nested_invert _ _ _ Hn). Qed.

Lemma may_take_held m s :
  may_take m s = true -> s <> [] -> is_send_lock m = true /\ no_send_lock s.
Proof.
  unfold may_take. destruct (is_send_lock m); [auto|].
  destruct s; [congruence | discriminate].
Qed.

Lemma may_take_under_send_lock m m' s :
  In m' s -> is_send_lock m' = true -> may_take m s = false.
Proof.
  intros Hin Hm'. unfold may_take. destruct (is_send_lock m).
  - apply not_true_is_false. intros Hall.
    rewrite forallb_forall in Hall. specialize (Hall m' Hin).
    rewrite Hm' in Hall. discriminate.
  - destruct s; [destruct Hin | reflexivity].
Qed.

Lemma orderly_stack c stacks t p :
  orderly c stacks -> threads c !! t = Some p ->
  exists s, stacks !! t = Some s /\ nested s [] p.
Proof.
  intros Ho Hp. destruct (stacks !! t) as [s|] eqn:Hs.
  - exists s. split; [reflexivity|]. eapply ord_code; eassumption.
  - apply lookup_ge_None in Hs. apply lookup_lt_Some in Hp.
    rewrite (ord_len _ _ Ho) in Hs. lia.
Qed.

Lemma orderly_step c stacks t c' :
  orderly c stacks -> exec t c = Some c' -> exists stacks', orderly c' stacks'.
Proof.
  intros Ho Hex.
  destruct (threads c !! t) as [p|] eqn:Hp;
    [|unfold exec in Hex; rewrite Hp in Hex; discriminate].
  destruct (orderly_stack _ _ _ _ Ho Hp) as (s & Hs & Hn).
  assert (Ht : (t < length stacks)%nat) by (eapply lookup_lt_Some; eassumption).
  assert (Htc : (t < length (threads c))%nat) by (eapply lookup_lt_Some; eassumption).
  pose proof (nested_invert _ _ _ Hn) as Hinv.
  destruct p as [r|m k|m k|A f k|e k]; cbn [nested_inv] in Hinv.
  - rewrite (exec_ret _ _ _ Hp) in Hex. discriminate.
  - (* lock *)
    rewrite (exec_acquire _ _ _ _ Hp) in Hex.
    destruct (owner c m) as [t'|] eqn:Hfree; [discriminate|].
    injection Hex as <-. destruct Hinv as [Hmay Hk].
    assert (Hnew : ~ In m s).
    { intros Hin. assert (owner c m = Some t) as Hown
        by (apply (ord_owner _ _ Ho); eauto). congruence. }
    exists (<[t := m :: s]> stacks). split; cbn [threads owner trace].
    + rewrite !length_insert. apply (ord_len _ _ Ho).
    + intros t1 p1 s1 Hp1 Hs1. destruct (decide (t1 = t)) as [->|Hne].
      * rewrite list_lookup_insert_eq in Hp1 by assumption.
        rewrite list_lookup_insert_eq in Hs1 by assumption.
        injection Hp1 as <-. injection Hs1 as <-. exact Hk.
      * rewrite list_lookup_insert_ne in Hp1 by congruence.
        rewrite list_lookup_insert_ne in Hs1 by congruence.
        eapply ord_code; eassumption.
    + intros m1 t1. unfold set_owner. destruct (decide (m1 = m)) as [->|Hm].
      * split.
        -- intros [= <-]. exists (m :: s).
           rewrite list_lookup_insert_eq by assumption. split; [reflexivity | left; reflexivity].
        -- intros (s1 & Hs1 & Hin). destruct (decide (t1 = t)) as [->|Hne]; [reflexivity|].
           rewrite list_lookup_insert_ne in Hs1 by congruence.
           assert (owner c m = Some t1) by (apply (ord_owner _ _ Ho); eauto). congruence.
      * rewrite (ord_owner _ _ Ho). split; intros (s1 & Hs1 & Hin).
        -- destruct (decide (t1 = t)) as [->|Hne].
           ++ exists (m :: s). rewrite list_lookup_insert_eq by assumption.
              split; [reflexivity|]. right. congruence.
           ++ exists s1. rewrite list_lookup_insert_ne by congruence. auto.
        -- destruct (decide (t1 = t)) as [->|Hne].
           ++ rewrite list_lookup_insert_eq in Hs1 by assumption. injection Hs1 as <-.
              exists s. split; [assumption|]. destruct Hin as [->|Hin]; [congruence | assumption].
           ++ rewrite list_lookup_insert_ne in Hs1 by congruence. eauto.
    + intros t1 s1 Hs1. destruct (decide (t1 = t)) as [->|Hne].
      * rewrite list_lookup_insert_eq in Hs1 by assumption. injection Hs1 as <-.
        constructor; [exact Hnew | eapply ord_nodup; eassumption].
      * rewrite list_lookup_insert_ne in Hs1 by congruence. eapply ord_nodup; eassumption.
    + intros m1. rewrite holder_snoc, (ord_holder _ _ Ho). unfold lock_step, set_owner.
      cbn [fst snd]. destruct (decide (m = m1)) as [->|Hm].
      * rewrite Hfree, decide_True by reflexivity. reflexivity.
      * rewrite decide_False by congruence. reflexivity.
  - (* unlock *)
    rewrite (exec_release _ _ _ _ Hp) in Hex. injection Hex as <-.
    destruct Hinv as (s0 & -> & Hk).
    assert (Hown : owner c m = Some t)
      by (apply (ord_owner _ _ Ho); exists (m :: s0); split; [assumption | left; reflexivity]).
    pose proof (ord_nodup _ _ Ho _ _ Hs) as Hnd. inversion Hnd as [|? ? Hnotin Hnd0]; subst.
    exists (<[t := s0]> stacks). split; cbn [threads owner trace].
    + rewrite !length_insert. apply (ord_len _ _ Ho).
    + intros t1 p1 s1 Hp1 Hs1. destruct (decide (t1 = t)) as [->|Hne].
      * rewrite list_lookup_insert_eq in Hp1 by assumption.
        rewrite list_lookup_insert_eq in Hs1 by assumption.
        injection Hp1 as <-. injection Hs1 as <-. exact Hk.
      * rewrite list_lookup_insert_ne in Hp1 by congruence.
        rewrite list_lookup_insert_ne in Hs1 by congruence.
        eapply ord_code; eassumption.
    + intros m1 t1. unfold set_owner. destruct (decide (m1 = m)) as [->|Hm].
      * split; [discriminate|]. intros (s1 & Hs1 & Hin).
        destruct (decide (t1 = t)) as [->|Hne].
        -- rewrite list_lookup_insert_eq in Hs1 by assumption. injection Hs1 as <-. tauto.
        -- rewrite list_lookup_insert_ne in Hs1 by congruence.
           assert (owner c m = Some t1) by (apply (ord_owner _ _ Ho); eauto). congruence.
      * rewrite (ord_owner _ _ Ho). split; intros (s1 & Hs1 & Hin).
        -- destruct (decide (t1 = t)) as [->|Hne].
           ++ exists s0. rewrite list_lookup_insert_eq by assumption.
              split; [reflexivity|]. rewrite Hs in Hs1. injection Hs1 as <-.
              destruct Hin as [->|Hin]; [congruence | assumption].
           ++ exists s1. rewrite list_lookup_insert_ne by congruence. auto.
        -- destruct (decide (t1 = t)) as [->|Hne].
           ++ rewrite list_lookup_insert_eq in Hs1 by assumption. injection Hs1 as <-.
              exists (m :: s0). split; [assumption | right; assumption].
           ++ rewrite list_lookup_insert_ne in Hs1 by congruence. eauto.
    + intros t1 s1 Hs1. destruct (decide (t1 = t)) as [->|Hne].
      * rewrite list_lookup_insert_eq in Hs1 by assumption. injection Hs1 as <-. exact Hnd0.
      * rewrite list_lookup_insert_ne in Hs1 by congruence. eapply ord_nodup; eassumption.
    + intros m1. rewrite holder_snoc, (ord_holder _ _ Ho). unfold lock_step, set_owner.
      cbn [fst snd]. destruct (decide (m = m1)) as [->|Hm].
      * rewrite Hown, !decide_True by reflexivity. reflexivity.
      * rewrite decide_False by congruence. reflexivity.
  - (* memory *)
    rewrite (exec_step _ _ _ _ Hp) in Hex. injection Hex as <-.
    exists stacks. split; cbn [threads owner trace].
    + rewrite length_insert. apply (ord_len _ _ Ho).
    + intros t1 p1 s1 Hp1 Hs1. destruct (decide (t1 = t)) as [->|Hne].
      * rewrite list_lookup_insert_eq in Hp1 by assumption.
        injection Hp1 as <-. rewrite Hs in Hs1. injection Hs1 as <-. apply Hinv.
      * rewrite list_lookup_insert_ne in Hp1 by congruence. eapply ord_code; eassumption.
    + apply (ord_owner _ _ Ho).
    + apply (ord_nodup _ _ Ho).
    + apply (ord_holder _ _ Ho).
  - (* output *)
    rewrite (exec_emit _ _ _ _ Hp) in Hex. injection Hex as <-.
    exists stacks. split; cbn [threads owner trace].
    + rewrite length_insert. apply (ord_len _ _ Ho).
    + intros t1 p1 s1 Hp1 Hs1. destruct (decide (t1 = t)) as [->|Hne].
      * rewrite list_lookup_insert_eq in Hp1 by assumption.
        injection Hp1 as <-. rewrite Hs in Hs1. injection Hs1 as <-. apply Hinv.
      * rewrite list_lookup_insert_ne in Hp1 by congruence. eapply ord_code; eassumption.
    + apply (ord_owner _ _ Ho).
    + apply (ord_nodup _ _ Ho).
    + intros m1. rewrite holder_snoc, (ord_holder _ _ Ho). reflexivity.
Qed.

Lemma orderly_run_schedule sched : forall c stacks,
  orderly c stacks -> exists stacks', orderly (run_schedule sched c) stacks'.
Proof.
  induction sched as [|t sched IH]; intros c stacks Ho; simpl; [eauto|].
  destruct (exec t c) as [c'|] eqn:Hex; [|eauto].
  destruct (orderly_step _ _ _ _ Ho Hex) as [stacks' Ho']. eauto.
Qed.

(** A thread that cannot move although it has code left waits for a mutex
    another thread owns. *)
Lemma stuck_waits (c : config flow) t p :
  threads c !! t = Some p -> finished p = false -> exec t c = None ->
  exists m k t', p = Acquire m k /\ owner c m = Some t'.
Proof.
  intros Hp Hf Hex. destruct p as [r|m k|m k|A f k|e k]; try discriminate.
  - rewrite (exec_acquire _ _ _ _ Hp) in Hex.
    destruct (owner c m) as [t'|] eqn:Hown; [eauto 6 | discriminate].
  - rewrite (exec_release _ _ _ _ Hp) in Hex. discriminate.
  - rewrite (exec_step _ _ _ _ Hp) in Hex. discriminate.
  - rewrite (exec_emit _ _ _ _ Hp) in Hex. discriminate.
Qed.

Lemma owner_has_code c stacks m t :
  orderly c stacks -> owner c m = Some t ->
  exists p s, threads c !! t = Some p /\ stacks !! t = Some s /\ In m s
              /\ nested s [] p /\ finished p = false.
Proof.
  intros Ho Hown. apply (ord_owner _ _ Ho) in Hown as (s & Hs & Hin).
  assert (Ht : (t < length (threads c))%nat).
  { rewrite <- (ord_len _ _ Ho). eapply lookup_lt_Some; eassumption. }
  destruct (lookup_lt_is_Some_2 _ _ Ht) as [p Hp].
  exists p, s. pose proof (ord_code _ _ Ho _ _ _ Hp Hs) as Hn.
  repeat split; try assumption.
  destruct (finished p) eqn:Hf; [|reflexivity].
  rewrite (nested_finished _ _ Hn Hf) in Hin. destruct Hin.
Qed.

Lemma orderly_progress c stacks :
  orderly c stacks -> all_finished c = false -> exists t, is_Some (exec t c).
Proof.
  intros Ho Hfin. unfold all_finished in Hfin.
  apply forallb_false in Hfin as (p0 & Hin0 & Hf0).
  apply list_elem_of_In, list_elem_of_lookup in Hin0 as [t0 Hp0].
  destruct (exec t0 c) as [c0|] eqn:E0; [exists t0; rewrite E0; eauto|].
  destruct (stuck_waits _ _ _ Hp0 Hf0 E0) as (m0 & k0 & t1 & -> & Hown0).
  destruct (owner_has_code _ _ _ _ Ho Hown0) as (p1 & s1 & Hp1 & Hs1 & Hin1 & Hn1 & Hf1).
  destruct (exec t1 c) as [c1|] eqn:E1; [exists t1; rewrite E1; eauto|].
  destruct (stuck_waits _ _ _ Hp1 Hf1 E1) as (m1 & k1 & t2 & -> & Hown1).
  destruct (nested_invert _ _ _ Hn1) as [Hmay1 _].
  assert (Hs1ne : s1 <> []) by (intros ->; destruct Hin1).
  destruct (may_take_held _ _ Hmay1 Hs1ne) as [Hsend1 _].
  destruct (owner_has_code _ _ _ _ Ho Hown1) as (p2 & s2 & Hp2 & Hs2 & Hin2 & Hn2 & Hf2).
  destruct (exec t2 c) as [c2|] eqn:E2; [exists t2; rewrite E2; eauto|].
  destruct (stuck_waits _ _ _ Hp2 Hf2 E2) as (m2 & k2 & t3 & -> & Hown2).
  destruct (nested_invert _ _ _ Hn2) as [Hmay2 _].
  rewrite (may_take_under_send_lock m2 m1 s2 Hin2 Hsend1) in Hmay2. discriminate.
Qed.

Lemma orderly_start st (code : list (prog flow)) :
  (forall p, In p code -> nested [] [] p) ->
  orderly (Config st no_owner code []) (replicate (length code) []).
Proof.
  intros Hcode. split; cbn [threads owner trace].
  - apply length_replicate.
  - intros t p s Hp Hs. apply lookup_replicate in Hs as [-> _].
    apply Hcode. apply list_elem_of_In, list_elem_of_lookup. eauto.
  - intros m t. unfold no_owner. split; [discriminate|].
    intros (s & Hs & Hin). apply lookup_replicate in Hs as [-> _]. destruct Hin.
  - intros t s Hs. apply lookup_replicate in Hs as [-> _]. constructor.
  - intros m. reflexivity.
Qed.

End OrderlyFacts.

(** Any number of workers, each handling one line (any line, for any
    session), interleaved in any order the mutexes allow: no mutex ever has
    two holders, and as long as one worker has code left some worker can
    move: the workers never deadlock. *)
Theorem workers_never_deadlock `{SqlEngine}
    (st : server) (work : list (ptr * text)) (sched : list tid) :
  let c := run_schedule sched
             (Config st no_owner (map (fun w => handle_line w.1 w.2) work) []) in
  (forall m, exclusive m (trace c) = true)
  /\ (all_finished c = false -> exists t, is_Some (exec t c)).
Proof.
  intros c.
  assert (Hstart : orderly (Config st no_owner (map (fun w => handle_line w.1 w.2) work) [])
                     (replicate (length (map (fun w => handle_line w.1 w.2) work)) [])).
  { apply orderly_start. intros p Hp. apply in_map_iff in Hp as ([s l] & <- & _).
    apply nested_handle_line. }
  destruct (orderly_run_schedule sched _ _ Hstart) as [stacks Ho]. fold c in Ho.
  split.
  - intros m. unfold exclusive. rewrite (ord_holder _ _ Ho). reflexivity.
  - intros Hfin. eapply orderly_progress; eassumption.
Qed.

Import Output.

(** ** The output of a command *)

Section OutputFacts.

Context `{SqlEngine}.

Lemma emits_bind {R S : Type} (P : io -> Prop) (p : prog R) (k : R -> prog S) :
  emits P p -> (forall r, emits P (k r)) -> emits P (bind p k).
Proof.
  induction 1; intros Hk; simpl; try (constructor; auto). apply Hk.
Qed.

Lemma emits_run {R : Type} (P : io -> Prop) (p : prog R) :
  emits P p -> forall st, Forall P (outputs (run p st).2).
Proof.
  unfold outputs.
  induction 1 as [r|m k _ IH|m k _ IH|A f k _ IH|e k He _ IH]; intros st; cbn [run].
  - constructor.
  - specialize (IH st). destruct (run k st) as [[r st'] tr]. exact IH.
  - specialize (IH st). destruct (run k st) as [[r st'] tr]. exact IH.
  - destruct (f st) as [a st1]. specialize (IH a st1).
    destruct (run (k a) st1) as [[r st'] tr]. exact IH.
  - specialize (IH st). destruct (run k st) as [[r st'] tr].
    cbn [snd omap] in *. constructor; assumption.
Qed.

Lemma frame_framed msg : framed (frame msg) = true.
Proof.
  unfold framed, frame. cbv zeta.
  assert (Hle : (length (take 2047 msg) <= 2047)%nat) by (rewrite length_take; lia).
  generalize dependent (take 2047 msg). intros b Hle.
  destruct (length b <? 2047)%nat eqn:Hlt.
  - apply Nat.ltb_lt in Hlt. rewrite length_app, last_last.
    change (length [LF]) with 1%nat.
    apply andb_true_iff. split; [apply Nat.leb_le; lia | reflexivity].
  - apply Nat.ltb_ge in Hlt.
    apply andb_true_iff. split; [apply Nat.leb_le; lia|].
    apply orb_true_iff. right. apply Nat.eqb_eq. lia.
Qed.

Lemma emits_read {A : Type} P (f : server -> A) : emits P (read f).
Proof. repeat constructor. Qed.

Lemma emits_send_formatted session msg : emits command_output (send_formatted session msg).
Proof.
  unfold send_formatted. cbn [bind lock emit unlock].
  constructor. constructor; [apply frame_framed|]. repeat constructor.
Qed.

Lemma emits_for_each {A : Type} P (l : list A) (body : A -> prog unit) :
  (forall x, emits P (body x)) -> emits P (for_each l body).
Proof.
  intros Hbody. induction l; simpl; [constructor|]. apply emits_bind; auto.
Qed.

Lemma emits_fold_callback {A C : Type} P (cb : A -> C -> prog C) (rows : list A) :
  (forall row c, emits P (cb row c)) ->
  forall acc, emits P acc ->
  emits P (fold_left (fun acc row => bind acc (cb row)) rows acc).
Proof.
  intros Hcb. induction rows as [|row rows IH]; intros acc Hacc; simpl; [exact Hacc|].
  apply IH. apply emits_bind; auto.
Qed.

Lemma emits_deliver_message s r b : emits command_output (deliver_message s r b).
Proof.
  unfold deliver_message, store_message, last_error_text, emit.
  cbn [bind lock unlock read]. constructor. constructor. intros rc.
  constructor. apply emits_bind.
  - destruct (rc =? 0); [constructor|]. cbn [bind]. constructor. intros err.
    constructor; [exact I | constructor].
  - intros _. cbn [bind]. constructor. constructor. intros [t|].
    + apply emits_bind; [apply emits_send_formatted|]. intros _. repeat constructor.
    + repeat constructor.
Qed.

Lemma emits_notify_user_list session : emits command_output (notify_user_list session).
Proof.
  unfold notify_user_list. cbn [bind lock read]. constructor. constructor. intros cur.
  apply emits_bind; [apply emits_send_formatted|]. intros _. apply emits_bind.
  - apply emits_for_each. intros p. cbn [bind read]. constructor. intros s.
    destruct (authenticated s); [apply emits_send_formatted | constructor].
  - intros _. cbn [bind unlock]. constructor. apply emits_send_formatted.
Qed.

Lemma emits_fetch_history session a b ctx :
  emits command_output (fetch_conversation a b (history_emit session) ctx).
Proof.
  unfold fetch_conversation. cbn [bind lock]. constructor. constructor. intros res.
  apply emits_bind.
  - apply emits_fold_callback; [|constructor]. intros row c. unfold history_emit.
    apply emits_bind; [apply emits_send_formatted|]. intros _. constructor.
  - intros c. repeat constructor.
Qed.

Lemma emits_delete_conversation a b : emits command_output (delete_conversation a b).
Proof.
  unfold delete_conversation. cbn [bind lock unlock]. repeat constructor.
Qed.

Lemma emits_handle_line session line : emits command_output (handle_line session line).
Proof.
  unfold handle_line.
  repeat match goal with
  | |- emits _ (if ?c then _ else _) => destruct c
  | |- emits _ (match ?x with Some _ => _ | None => _ end) => destruct x
  | |- emits _ (let _ := _ in _) => cbv zeta
  | |- emits _ (bind _ _) => apply emits_bind
  | |- emits _ (read _) => apply emits_read
  | |- emits _ (write _) => unfold write; repeat constructor
  | |- emits _ (lock _) => repeat constructor
  | |- emits _ (unlock _) => repeat constructor
  | |- emits _ (send_formatted _ _) => apply emits_send_formatted
  | |- emits _ (my_username _) => apply emits_read
  | |- emits _ last_error_text => apply emits_read
  | |- emits _ (deliver_message _ _ _) => apply emits_deliver_message
  | |- emits _ (delete_conversation _ _) => apply emits_delete_conversation
  | |- emits _ (notify_user_list _) => apply emits_notify_user_list
  | |- emits _ (fetch_conversation _ _ _ _) => apply emits_fetch_history
  | |- emits _ (Ret _) => constructor
  | |- forall _, _ => intros
  end.
Qed.

(** *** The last thing a command does *)

Lemma reply_bind {R S : Type} session (p : prog R) (k : R -> prog S) st :
  (forall r st1, ends_with_reply session (run (k r) st1).2) ->
  ends_with_reply session (run (bind p k) st).2.
Proof.
  intros Hk. rewrite run_bind. destruct (run p st) as [[r st1] t1].
  specialize (Hk r st1). destruct (run (k r) st1) as [[r2 st2] t2].
  cbn [snd] in *. destruct Hk as (before & msg & ->). exists (t1 ++ before), msg.
  rewrite <- app_assoc. reflexivity.
Qed.

Lemma reply_then_ret {R S : Type} session (p : prog R) (r : S) st :
  ends_with_reply session (run p st).2 ->
  ends_with_reply session (run (bind p (fun _ => Ret r)) st).2.
Proof.
  intros Hp. rewrite run_bind. destruct (run p st) as [[r1 st1] t1].
  cbn [run snd] in *. rewrite app_nil_r. exact Hp.
Qed.

Lemma reply_send_formatted session msg st :
  ends_with_reply session (run (send_formatted session msg) st).2.
Proof. rewrite run_send_formatted. exists [], (frame msg). reflexivity. Qed.

Lemma reply_notify_user_list session st :
  ends_with_reply session (run (notify_user_list session) st).2.
Proof.
  rewrite run_notify_user_list. cbn [snd].
  eexists _, (frame (lit "USERS_END")). rewrite !app_assoc. reflexivity.
Qed.

End OutputFacts.

(** Whatever the line and the state, handling a command puts out nothing
    but lines of at most 2047 bytes on sockets (each ending in a newline
    unless it fills the 2047 bytes) and diagnostics on stderr: it closes no
    socket and prints nothing on stdout. *)
Theorem commands_send_framed_lines `{SqlEngine}
    (session : ptr) (line : text) (st : server) :
  Forall command_output (outputs (run (handle_line session line) st).2).
Proof. apply emits_run, emits_handle_line. Qed.

(** Every command is answered: whatever the line and the state, the last
    thing the handling of a command does is send a line to the session the
    command came from, under that session's send lock. *)
Theorem every_command_is_answered `{SqlEngine}
    (session : ptr) (line : text) (st : server) :
  ends_with_reply session (run (handle_line session line) st).2.
Proof.
  unfold handle_line. revert st.
  repeat match goal with
  | |- forall _, _ => intros
  | |- ends_with_reply _ (run (if ?c then _ else _) _).2 => destruct c
  | |- ends_with_reply _ (run (match ?x with Some _ => _ | None => _ end) _).2 =>
      destruct x
  | |- ends_with_reply _ (run (let _ := _ in _) _).2 => cbv zeta
  | |- ends_with_reply _ (run (send_formatted _ _) _).2 => apply reply_send_formatted
  | |- ends_with_reply _ (run (notify_user_list _) _).2 => apply reply_notify_user_list
  | |- ends_with_reply _ (run (bind _ (fun _ => Ret _)) _).2 => apply reply_then_ret
  | |- ends_with_reply _ (run (bind _ _) _).2 => apply reply_bind
  end.
Qed.

(** ** read_line: bounds, long lines, the end of the stream *)

Section ReadLineBounds.

Variables (max_len : Z) (cl : closed).

Hypothesis max_len_size : 1 <= max_len < size_max.

Lemma read_limit : (max_len - 1) mod size_max = max_len - 1.
Proof. apply Z.mod_small. lia. Qed.

Lemma read_line_loop_bounds input : forall buf,
  Z.of_nat (length buf) <= max_len - 1 -> LF ∉ buf -> CR ∉ buf ->
  let '(n, b, rest) := read_line_loop max_len cl input buf in
  Z.of_nat (length b) <= max_len - 1 /\ (LF ∉ b) /\ (CR ∉ b)
  /\ (n = Z.of_nat (length b) \/ (n = recv_code cl /\ rest = []))
  /\ exists read, input = read ++ rest.
Proof.
  induction input as [|c input IH]; intros buf Hlen Hlf Hcr; cbn [read_line_loop];
    rewrite read_limit.
  - destruct (Z.of_nat (length buf) <? max_len - 1); repeat split; auto; exists []; reflexivity.
  - destruct (Z.of_nat (length buf) <? max_len - 1) eqn:Hroom;
      [|repeat split; auto; exists []; reflexivity].
    apply Z.ltb_lt in Hroom.
    destruct (Ascii.eqb c CR) eqn:Ecr.
    + specialize (IH buf Hlen Hlf Hcr).
      destruct (read_line_loop max_len cl input buf) as [[n b] rest].
      destruct IH as (H1 & H2 & H3 & H4 & read & ->).
      repeat split; auto. exists (c :: read). reflexivity.
    + destruct (Ascii.eqb c LF) eqn:Elf.
      * repeat split; auto. exists [c]. reflexivity.
      * apply Ascii.eqb_neq in Ecr, Elf.
        assert (Hlen' : Z.of_nat (length (buf ++ [c])) <= max_len - 1).
        { rewrite length_app. cbn [length]. lia. }
        assert (Hlf' : LF ∉ buf ++ [c]).
        { rewrite elem_of_app, list_elem_of_singleton. intros [?|?]; [tauto | congruence]. }
        assert (Hcr' : CR ∉ buf ++ [c]).
        { rewrite elem_of_app, list_elem_of_singleton. intros [?|?]; [tauto | congruence]. }
        specialize (IH (buf ++ [c]) Hlen' Hlf' Hcr').
        destruct (read_line_loop max_len cl input (buf ++ [c])) as [[n b] rest].
        destruct IH as (H1 & H2 & H3 & H4 & read & ->).
        repeat split; auto. exists (c :: read). reflexivity.
Qed.

(** A line that is there in full. *)
Lemma read_line_loop_line line rest : forall buf,
  LF ∉ line -> CR ∉ line ->
  Z.of_nat (length buf + length line) < max_len - 1 ->
  read_line_loop max_len cl (line ++ LF :: rest) buf =
  (Z.of_nat (length buf + length line), buf ++ line, rest).
Proof.
  induction line as [|c line IH]; intros buf Hlf Hcr Hlen; cbn [app read_line_loop];
    rewrite read_limit.
  - cbn [length] in Hlen. rewrite Nat.add_0_r in *. rewrite app_nil_r.
    apply Z.ltb_lt in Hlen. rewrite Hlen. reflexivity.
  - apply not_elem_of_cons in Hlf as [Hc1 Hlf]. apply not_elem_of_cons in Hcr as [Hc2 Hcr].
    cbn [length] in Hlen.
    assert (Hroom : (Z.of_nat (length buf) <? max_len - 1) = true) by (apply Z.ltb_lt; lia).
    rewrite Hroom.
    assert (Ascii.eqb c CR = false) as -> by (apply Ascii.eqb_neq; congruence).
    assert (Ascii.eqb c LF = false) as -> by (apply Ascii.eqb_neq; congruence).
    rewrite IH; [|assumption|assumption|rewrite length_app; cbn [length]; lia].
    rewrite length_app, <- app_assoc. cbn [length app]. do 3 f_equal. lia.
Qed.

(** A line that fills the buffer before its newline is cut there. *)
Lemma read_line_loop_full_chunk chunk rest : forall buf,
  LF ∉ chunk -> CR ∉ chunk ->
  Z.of_nat (length buf + length chunk) = max_len - 1 ->
  read_line_loop max_len cl (chunk ++ rest) buf = (max_len - 1, buf ++ chunk, rest).
Proof.
  induction chunk as [|c chunk IH]; intros buf Hlf Hcr Hlen.
  - cbn [length] in Hlen. rewrite Nat.add_0_r in Hlen. rewrite app_nil_r. cbn [app].
    rewrite read_line_loop_full; [rewrite Hlen; reflexivity|].
    rewrite read_limit. apply Z.ltb_ge. lia.
  - apply not_elem_of_cons in Hlf as [Hc1 Hlf]. apply not_elem_of_cons in Hcr as [Hc2 Hcr].
    cbn [length] in Hlen. cbn [app read_line_loop]. rewrite read_limit.
    assert (Hroom : (Z.of_nat (length buf) <? max_len - 1) = true) by (apply Z.ltb_lt; lia).
    rewrite Hroom.
    assert (Ascii.eqb c CR = false) as -> by (apply Ascii.eqb_neq; congruence).
    assert (Ascii.eqb c LF = false) as -> by (apply Ascii.eqb_neq; congruence).
    rewrite IH; [|assumption|assumption|rewrite length_app; cbn [length]; lia].
    rewrite <- app_assoc. reflexivity.
Qed.

(** Bytes with no newline among them, fewer than the buffer takes: the
    stream ends first. *)
Lemma read_line_loop_runs_out tail : forall buf,
  LF ∉ tail ->
  Z.of_nat (length buf + length (strip_cr tail)) < max_len - 1 ->
  read_line_loop max_len cl tail buf = (recv_code cl, buf ++ strip_cr tail, []).
Proof.
  induction tail as [|c tail IH]; intros buf Hlf Hlen; cbn [read_line_loop];
    rewrite read_limit.
  - cbn [strip_cr List.filter length] in *. rewrite app_nil_r.
    assert ((Z.of_nat (length buf) <? max_len - 1) = true) as -> by (apply Z.ltb_lt; lia).
    reflexivity.
  - apply not_elem_of_cons in Hlf as [Hc1 Hlf].
    cbn [strip_cr List.filter] in Hlen |- *. fold (strip_cr tail) in Hlen |- *.
    assert (Ascii.eqb c LF = false) as Elf by (apply Ascii.eqb_neq; congruence).
    destruct (Ascii.eqb c CR) eqn:Ecr; cbn [negb] in Hlen |- *.
    + assert ((Z.of_nat (length buf) <? max_len - 1) = true) as -> by (apply Z.ltb_lt; lia).
      apply IH; assumption.
    + cbn [length] in Hlen.
      assert ((Z.of_nat (length buf) <? max_len - 1) = true) as -> by (apply Z.ltb_lt; lia).
      rewrite Elf, IH; [|assumption|rewrite length_app; cbn [length]; lia].
      rewrite <- app_assoc. reflexivity.
Qed.

(** Input that ends in a newline is read the same with more bytes behind
    it, and what is left unread ends in a newline again. *)
Lemma read_line_loop_before_tail pre tail : forall buf,
  read_line_loop max_len cl ((pre ++ [LF]) ++ tail) buf =
  (let '(n, b, rest) := read_line_loop max_len cl (pre ++ [LF]) buf in
   (n, b, rest ++ tail))
  /\ ((read_line_loop max_len cl (pre ++ [LF]) buf).2 = []
      \/ exists pre', (read_line_loop max_len cl (pre ++ [LF]) buf).2 = pre' ++ [LF]).
Proof.
  induction pre as [|c pre IH]; intros buf; cbn [app read_line_loop];
    rewrite read_limit.
  - destruct (Z.of_nat (length buf) <? max_len - 1).
    + change (Ascii.eqb LF CR) with false. change (Ascii.eqb LF LF) with true.
      cbn [snd]. auto.
    + cbn [snd]. split; [reflexivity|]. right. exists []. reflexivity.
  - destruct (Z.of_nat (length buf) <? max_len - 1).
    + destruct (Ascii.eqb c CR); [apply IH|].
      destruct (Ascii.eqb c LF); [|apply IH].
      cbn [snd]. split; [reflexivity|]. right. exists pre. reflexivity.
    + cbn [snd]. split; [reflexivity|]. right. exists (c :: pre). reflexivity.
Qed.

End ReadLineBounds.

(** [read_line] with a buffer of [max_len] bytes, [1 <= max_len]: the line
    returned has at most [max_len - 1] bytes, so that the terminator is
    written inside the buffer, and holds no newline and no carriage return;
    the value returned is the length of the line, or the code of [recv]
    when the stream ended first, and then nothing is left to read; the
    bytes left unread are a suffix of the stream. *)
Theorem read_line_stays_in_buffer (fd : stream) (max_len : Z) :
  1 <= max_len < size_max ->
  let '(n, line, fd') := read_line fd max_len in
  Z.of_nat (length line) <= max_len - 1
  /\ (LF ∉ line) /\ (CR ∉ line)
  /\ (n = Z.of_nat (length line) \/ (n = recv_code (closing fd) /\ pending fd' = []))
  /\ closing fd' = closing fd
  /\ exists read, pending fd = read ++ pending fd'.
Proof.
  intros Hmax. unfold read_line.
  pose proof (read_line_loop_bounds max_len (closing fd) Hmax (pending fd) []) as Hb.
  destruct (read_line_loop max_len (closing fd) (pending fd) []) as [[n b] rest].
  destruct Hb as (H1 & H2 & H3 & H4 & H5);
    [cbn [length]; lia | apply not_elem_of_nil | apply not_elem_of_nil |].
  cbn [pending closing]. auto 6.
Qed.

(** A line longer than the buffer is not rejected: [read_line] returns its
    first [max_len - 1] bytes as a line and leaves the rest, newline
    included, to be read as the next line. *)
Theorem read_line_cuts_long_lines (cl : closed) (chunk rest : list char) (max_len : Z) :
  1 <= max_len < size_max ->
  LF ∉ chunk -> CR ∉ chunk ->
  Z.of_nat (length chunk) = max_len - 1 ->
  read_line (Stream (chunk ++ rest) cl) max_len = (max_len - 1, chunk, Stream rest cl).
Proof.
  intros Hmax Hlf Hcr Hlen. unfold read_line. cbn [pending closing].
  rewrite (read_line_loop_full_chunk max_len cl Hmax chunk rest []) by assumption.
  reflexivity.
Qed.

Section WorkerTail.

Context `{SqlEngine}.

Lemma line_size_ok : 1 <= LINE_SIZE < size_max.
Proof. unfold LINE_SIZE, size_max. lia. Qed.

Lemma worker_loop_tail session cl tail :
  LF ∉ tail -> (length (strip_cr tail) < 2047)%nat ->
  forall fuel pre st,
  pre = [] \/ (exists pre', pre = pre' ++ [LF]) ->
  (worker_loop fuel session (Stream (pre ++ tail) cl) st).1 =
  (worker_loop fuel session (Stream pre cl) st).1.
Proof.
  intros Hlf Hlen. induction fuel as [|fuel IH]; intros pre st Hpre; [reflexivity|].
  cbn [worker_loop]. destruct (server_running st); [|reflexivity].
  unfold read_line. cbn [pending closing].
  destruct Hpre as [-> | [pre' ->]].
  - cbn [app].
    rewrite (read_line_loop_runs_out LINE_SIZE cl line_size_ok tail []);
      [|assumption | cbn [length]; unfold LINE_SIZE; lia].
    cbn [read_line_loop]. rewrite (read_limit LINE_SIZE line_size_ok).
    change (Z.of_nat (length []) <? LINE_SIZE - 1) with true. cbv iota.
    assert ((recv_code cl <=? 0) = true) as -> by (destruct cl; reflexivity).
    reflexivity.
  - destruct (read_line_loop_before_tail LINE_SIZE cl line_size_ok pre' tail []) as [-> Hrest].
    destruct (read_line_loop LINE_SIZE cl (pre' ++ [LF]) []) as [[n b] rest].
    cbn [snd] in Hrest.
    destruct (n <=? 0); [reflexivity|].
    destruct (run (handle_line session (c_str b)) st) as [[fl st'] tr].
    destruct fl; [|reflexivity].
    specialize (IH rest st' Hrest).
    destruct (worker_loop fuel session (Stream (rest ++ tail) cl) st') as [[s1 t1] f1].
    destruct (worker_loop fuel session (Stream rest cl) st') as [[s2 t2] f2].
    cbn [fst] in *. congruence.
Qed.

End WorkerTail.

(** Bytes after the last newline are never handled as a command: when the
    stream ends, [read_line] returns the code of [recv] and the worker
    leaves its loop, so a worker given complete lines followed by an
    unfinished one (shorter than the buffer) behaves as if the unfinished
    line had not been sent. *)
Theorem unfinished_line_is_dropped `{SqlEngine}
    (session : ptr) (cl : closed) (pre tail : list char) (st : server) :
  pre = [] \/ (exists pre', pre = pre' ++ [LF]) ->
  LF ∉ tail -> (length (strip_cr tail) < 2047)%nat ->
  (client_worker session (Stream (pre ++ tail) cl) st).1 =
  (client_worker session (Stream pre cl) st).1.
Proof.
  intros Hpre Hlf Hlen. unfold client_worker.
  destruct (run (send_formatted session (lit "WELCOME Provide AUTH <username>")) st)
    as [[u0 st0] tr0].
  cbn [pending].
  rewrite (worker_loop_fuel session (S (length pre)) (S (length (pre ++ tail)))
             (Stream pre cl) st0);
    [|cbn [pending]; lia | cbn [pending]; rewrite length_app; lia].
  pose proof (worker_loop_tail session cl tail Hlf Hlen
                (S (length (pre ++ tail))) pre st0 Hpre) as Heq.
  destruct (worker_loop (S (length (pre ++ tail))) session (Stream (pre ++ tail) cl) st0)
    as [[s1 t1] f1].
  destruct (worker_loop (S (length (pre ++ tail))) session (Stream pre cl) st0)
    as [[s2 t2] f2].
  cbn [fst] in Heq. injection Heq as -> ->.
  destruct (run (worker_exit session) s2) as [[u2 st2] tr2]. reflexivity.
Qed.

Import Replies.

(** ** GET and DELETE *)

Section HistoryFacts.

Context `{SqlEngine}.

Local Arguments Ascii.eqb : simpl never.

Lemma sends_app tr1 tr2 : sends (tr1 ++ tr2) = sends tr1 ++ sends tr2.
Proof.
  induction tr1 as [|[[p d| | |]| |] tr1 IH]; cbn [app sends]; rewrite ?IH; reflexivity.
Qed.

Lemma sends_sending session msg : sends (sending session msg) = [(session, frame msg)].
Proof. reflexivity. Qed.

Lemma sends_concat_sending {A : Type} session (f : A -> text) (l : list A) :
  sends (concat (map (fun x => sending session (f x)) l))
  = map (fun x => (session, frame (f x))) l.
Proof.
  induction l as [|x l IH]; [reflexivity|].
  cbn [map concat]. rewrite sends_app, sends_sending, IH. reflexivity.
Qed.

Lemma run_history_fold session (rows : list message) : forall acc st,
  run (fold_left (fun acc row => bind acc (history_emit session row)) rows acc) st =
  (let '(c, st1, t1) := run acc st in
   (match rows with [] => c | _ => History true end, st1,
    t1 ++ concat (map (fun row => sending session (history_line row)) rows))).
Proof.
  induction rows as [|row rows IH]; intros acc st; cbn [fold_left map concat].
  - destruct (run acc st) as [[c st1] t1]. rewrite app_nil_r. reflexivity.
  - rewrite IH, run_bind. destruct (run acc st) as [[c st1] t1].
    unfold history_emit at 1. rewrite run_bind, run_send_formatted. cbn [run].
    rewrite app_nil_r, <- app_assoc.
    destruct rows; reflexivity.
Qed.

Lemma run_fetch_history session a b ctx st :
  run (fetch_conversation a b (history_emit session) ctx) st =
  (let '(rc, rows, sto) := storage_fetch_conversation (storage st) a b in
   ((rc, match rows with [] => ctx | _ => History true end), set_storage st sto,
    [Locked storage_lock]
    ++ concat (map (fun row => sending session (history_line row)) rows)
    ++ [Unlocked storage_lock])).
Proof.
  unfold fetch_conversation. cbn [bind lock run].
  destruct (storage_fetch_conversation (storage st) a b) as [[rc rows] sto].
  cbn [fst snd]. rewrite run_bind, run_history_fold. cbn [run unlock bind app].
  reflexivity.
Qed.

Lemma run_get_line st session other :
  authenticated (deref st session) = true ->
  NUL ∉ other -> other <> [] ->
  run (handle_line session (lit "GET " ++ other)) st =
  (let '(rc, rows, sto) :=
     storage_fetch_conversation (storage st) (c_str (username (deref st session))) other in
   (Continue, set_storage st sto,
    [Locked storage_lock]
    ++ concat (map (fun row => sending session (history_line row)) rows)
    ++ [Unlocked storage_lock]
    ++ sending session (history_status rc rows (storage_last_error sto) other))).
Proof.
  intros Hauth Hnul Hne.
  unfold handle_line. cbn [bind read run]. rewrite Hauth. cbn [negb].
  change (strncmp_eq (lit "GET " ++ other) (lit "SEND ") 5) with false. cbv iota.
  change (strncmp_eq (lit "GET " ++ other) (lit "GET ") 4) with true. cbv iota.
  change (drop 4 (lit "GET " ++ other)) with other. cbv zeta.
  replace (strlen other =? 0) with false.
  2:{ symmetry. apply Z.eqb_neq. unfold strlen. rewrite c_str_id by assumption.
      destruct other; [congruence | simpl; lia]. }
  unfold my_username. cbn [bind read run].
  rewrite run_bind, run_fetch_history.
  destruct (storage_fetch_conversation (storage st) (c_str (username (deref st session))) other)
    as [[rc rows] sto].
  cbn [fst snd]. unfold history_status, last_error_text. rewrite run_bind.
  destruct (negb (rc =? 0)).
  - rewrite run_read_bind, run_send_formatted. cbn [run storage set_storage].
    rewrite app_nil_r, <- !app_assoc. reflexivity.
  - destruct rows as [|row rows]; cbn [any negb]; rewrite run_send_formatted;
      cbn [run]; rewrite app_nil_r, <- !app_assoc; reflexivity.
Qed.

Lemma run_delete_line st session other :
  authenticated (deref st session) = true ->
  NUL ∉ other -> other <> [] ->
  run (handle_line session (lit "DELETE " ++ other)) st =
  (let '(rc, sto) :=
     storage_delete_conversation (storage st) (c_str (username (deref st session))) other in
   (Continue, set_storage st sto,
    [Locked storage_lock; Unlocked storage_lock]
    ++ sending session
         (if negb (rc =? 0)
          then lit "ERROR Failed to delete history: " ++ storage_last_error sto
          else lit "OK Deleted history with " ++ other))).
Proof.
  intros Hauth Hnul Hne.
  unfold handle_line. cbn [bind read run]. rewrite Hauth. cbn [negb].
  change (strncmp_eq (lit "DELETE " ++ other) (lit "SEND ") 5) with false. cbv iota.
  change (strncmp_eq (lit "DELETE " ++ other) (lit "GET ") 4) with false. cbv iota.
  change (strncmp_eq (lit "DELETE " ++ other) (lit "DELETE ") 7) with true. cbv iota.
  change (drop 7 (lit "DELETE " ++ other)) with other. cbv zeta.
  replace (strlen other =? 0) with false.
  2:{ symmetry. apply Z.eqb_neq. unfold strlen. rewrite c_str_id by assumption.
      destruct other; [congruence | simpl; lia]. }
  unfold my_username, delete_conversation. cbn [bind read lock run].
  destruct (storage_delete_conversation (storage st) (c_str (username (deref st session))) other)
    as [rc sto].
  cbn [bind unlock run]. unfold last_error_text.
  destruct (negb (rc =? 0)); cbn [bind read run]; reflexivity.
Qed.

Lemma set_storage_same st : set_storage st (storage st) = st.
Proof. destruct st. reflexivity. Qed.

End HistoryFacts.
(** GET on a working store: one HISTORY line per stored message between
    the two users, in either direction, oldest first, all sent while the
    store lock is held; then [OK History end], or [INFO No messages with]
    the other user when there is none. Nothing changes in the server. *)
Theorem get_lists_conversation `{SqlEngine}
    (st : server) (session : ptr) (other : text) :
  authenticated (deref st session) = true ->
  NUL ∉ other -> other <> [] ->
  status (storage st) = Healthy ->
  let me := c_str (username (deref st session)) in
  exists rows,
    Permutation rows (List.filter (where_conversation me other)
                                  (messages (table (storage st))))
    /\ StronglySorted (fun m1 m2 => created_at m1 <= created_at m2) rows
    /\ run (handle_line session (lit "GET " ++ other)) st =
       (Continue, st,
        [Locked storage_lock]
        ++ concat (map (fun row => sending session (history_line row)) rows)
        ++ [Unlocked storage_lock]
        ++ sending session
             match rows with
             | [] => lit "INFO No messages with " ++ other
             | _ => lit "OK History end"
             end).
Proof.
  intros Hauth Hnul Hne Hok me.
  exists (sql_select (table (storage st)) me other).
  split; [apply sql_select_perm|]. split; [apply sql_select_sorted|].
  rewrite run_get_line by assumption. fold me.
  unfold storage_fetch_conversation. rewrite Hok.
  rewrite set_storage_same. reflexivity.
Qed.

(** When the statement cannot be prepared, GET and DELETE reply with an
    ERROR line that carries the store's diagnostic, which repeats the
    description of the failure; no HISTORY line is sent and the table is
    left as it was. *)
Theorem prepare_failure_replies `{SqlEngine}
    (st : server) (session : ptr) (other : text) :
  authenticated (deref st session) = true ->
  NUL ∉ other -> other <> [] ->
  status (storage st) = PrepareError ->
  let detail := c_str (sqlite3_errmsg (storage st)) in
  (let '(fl, st', tr) := run (handle_line session (lit "GET " ++ other)) st in
   fl = Continue /\ table (storage st') = table (storage st)
   /\ sends tr =
      [(session, frame (lit "ERROR Failed to query history: "
                        ++ take 255 (lit "Failed to query history: " ++ detail)))])
  /\ (let '(fl, st', tr) := run (handle_line session (lit "DELETE " ++ other)) st in
      fl = Continue /\ table (storage st') = table (storage st)
      /\ sends tr =
         [(session, frame (lit "ERROR Failed to delete history: "
                           ++ take 255 (lit "Failed to prepare delete: " ++ detail)))]).
Proof.
  intros Hauth Hnul Hne Hbad detail. split.
  - rewrite run_get_line by assumption.
    unfold storage_fetch_conversation. rewrite Hbad.
    split; [reflexivity|]. split; [reflexivity|]. reflexivity.
  - rewrite run_delete_line by assumption.
    unfold storage_delete_conversation. rewrite Hbad.
    split; [reflexivity|]. split; [reflexivity|]. reflexivity.
Qed.

(** When stepping the statement fails, DELETE replies with an ERROR line
    and deletes nothing, but GET does not notice: it sends the rows
    stepped through before the failure and then reports success, [OK
    History end], or [INFO No messages with] when there was no row. *)
Theorem step_failure_replies `{SqlEngine}
    (st : server) (session : ptr) (other : text) (after : nat) :
  authenticated (deref st session) = true ->
  NUL ∉ other -> other <> [] ->
  status (storage st) = StepError after ->
  let me := c_str (username (deref st session)) in
  let rows := take after (sql_select (table (storage st)) me other) in
  (let '(fl, st', tr) := run (handle_line session (lit "GET " ++ other)) st in
   fl = Continue /\ st' = st
   /\ sends tr =
      map (fun row => (session, frame (history_line row))) rows
      ++ [(session, frame match rows with
                          | [] => lit "INFO No messages with " ++ other
                          | _ => lit "OK History end"
                          end)])
  /\ (let '(fl, st', tr) := run (handle_line session (lit "DELETE " ++ other)) st in
      fl = Continue /\ table (storage st') = table (storage st)
      /\ sends tr =
         [(session, frame (lit "ERROR Failed to delete history: "
                           ++ take 255 (lit "Failed to delete history: "
                                        ++ c_str (sqlite3_errmsg (storage st)))))]).
Proof.
  intros Hauth Hnul Hne Hbad me rows. split.
  - rewrite run_get_line by assumption. fold me.
    unfold storage_fetch_conversation. rewrite Hbad. fold rows.
    rewrite set_storage_same.
    split; [reflexivity|]. split; [reflexivity|].
    cbn [app sends]. rewrite !sends_app, sends_concat_sending.
    cbn [sends history_status negb Z.eqb]. rewrite sends_sending. reflexivity.
  - rewrite run_delete_line by assumption.
    unfold storage_delete_conversation. rewrite Hbad.
    split; [reflexivity|]. split; [reflexivity|]. reflexivity.
Qed.

Section ConversationFacts.

Context `{SqlEngine}.

Lemma other_conversation_kept (a b x y : text) (rows : list message) :
  ~ ((c_str x = c_str a /\ c_str y = c_str b) \/ (c_str x = c_str b /\ c_str y = c_str a)) ->
  List.filter (where_conversation x y)
    (List.filter (fun m => negb (where_conversation a b m)) rows)
  = List.filter (where_conversation x y) rows.
Proof.
  intros Hdiff. induction rows as [|m rows IH]; [reflexivity|].
  cbn [List.filter].
  destruct (where_conversation a b m) eqn:Hab; cbn [negb List.filter];
    [|rewrite IH; reflexivity].
  destruct (where_conversation x y m) eqn:Hxy; [|exact IH].
  exfalso. apply Hdiff. unfold where_conversation in Hab, Hxy.
  apply orb_true_iff in Hab, Hxy.
  rewrite !andb_true_iff, !bool_decide_eq_true in Hab, Hxy.
  destruct Hab as [[Ha Hb]|[Ha Hb]], Hxy as [[Hx Hy]|[Hx Hy]];
    [left | right | right | left]; split; congruence.
Qed.

End ConversationFacts.

(** Deleting the conversation of one pair of users leaves every other
    conversation as it was: a fetch for a different pair returns the same
    rows after the delete as before. *)
Theorem delete_keeps_other_conversations `{SqlEngine}
    (st : store) (a b x y : text) :
  status st = Healthy ->
  ~ ((c_str x = c_str a /\ c_str y = c_str b) \/ (c_str x = c_str b /\ c_str y = c_str a)) ->
  (storage_delete_conversation st a b).1 = 0
  /\ (storage_fetch_conversation (storage_delete_conversation st a b).2 x y).1
     = (storage_fetch_conversation st x y).1.
Proof.
  intros Hok Hdiff. unfold storage_delete_conversation. rewrite Hok.
  split; [reflexivity|].
  unfold storage_fetch_conversation, with_table. cbn [fst snd status table]. rewrite Hok.
  cbn [fst]. unfold sql_select, sql_delete. cbn [messages].
  rewrite other_conversation_kept by assumption. reflexivity.
Qed.

(** DELETE on a working store replies [OK Deleted history with] the other
    user and removes the conversation in both directions: a GET by the
    same session right after finds no message, and so does any fetch of
    the pair, either way round. *)
Theorem delete_then_get_finds_nothing `{SqlEngine}
    (st : server) (session : ptr) (other : text) :
  authenticated (deref st session) = true ->
  NUL ∉ other -> other <> [] ->
  status (storage st) = Healthy ->
  let me := c_str (username (deref st session)) in
  let '(fl, st1, tr1) := run (handle_line session (lit "DELETE " ++ other)) st in
  fl = Continue
  /\ sends tr1 = [(session, frame (lit "OK Deleted history with " ++ other))]
  /\ same_registry st st1
  /\ sql_select (table (storage st1)) me other = []
  /\ sql_select (table (storage st1)) other me = []
  /\ sends (run (handle_line session (lit "GET " ++ other)) st1).2 =
     [(session, frame (lit "INFO No messages with " ++ other))].
Proof.
  intros Hauth Hnul Hne Hok me.
  rewrite run_delete_line by assumption. fold me.
  unfold storage_delete_conversation. rewrite Hok. cbn [negb Z.eqb].
  split; [reflexivity|]. split; [reflexivity|]. split; [split; reflexivity|].
  cbn [storage set_storage with_table table].
  split; [apply sql_select_deleted; tauto|].
  split; [apply sql_select_deleted; tauto|].
  rewrite run_get_line by assumption.
  change (c_str (username (deref (set_storage st _) session))) with me.
  unfold storage_fetch_conversation. cbn [storage set_storage with_table status table].
  rewrite Hok, sql_select_deleted by tauto. reflexivity.
Qed.

(** A message sent with SEND comes back with GET: after a session named
    [me] has sent [message] to [target] on a working store, a GET for [me]
    by a session named [target] sends a HISTORY line with the time of the
    store, [me] and the message, and ends with [OK History end]. *)
Theorem send_then_get_round_trip `{SqlEngine}
    (st : server) (a b : ptr) (target message : text) :
  authenticated (deref st a) = true ->
  authenticated (deref st b) = true ->
  c_str (username (deref st b)) = target ->
  c_str (username (deref st a)) <> [] ->
  NUL ∉ target ++ message -> SP ∉ target -> message <> [] ->
  status (storage st) = Healthy ->
  let me := c_str (username (deref st a)) in
  let '(_, st1, _) := run (handle_line a (lit "SEND " ++ target ++ SP :: message)) st in
  let '(fl, st2, tr) := run (handle_line b (lit "GET " ++ me)) st1 in
  fl = Continue
  /\ In (b, frame (lit "HISTORY " ++ datetime (now (storage st)) ++ lit " " ++ me
                   ++ lit " " ++ message)) (sends tr)
  /\ List.last (sends tr) (b, []) = (b, frame (lit "OK History end")).
Proof.
  intros Ha Hb Hname Hme Hnul Hsp Hmsg Hok me.
  apply not_elem_of_app in Hnul as [Hnt Hnm].
  rewrite run_send_line, run_deliver_message by (try apply not_elem_of_app; auto).
  fold me.
  destruct (stored_row_is_fetched (storage st) me target message Hok)
    as (_ & _ & Hst1 & Hfetch).
  destruct (storage_store_message (storage st) me target message) as [rc sto].
  cbn [fst snd] in Hst1, Hfetch.
  rewrite run_get_line;
    [|exact Hb | apply c_str_no_nul | exact Hme].
  change (c_str (username (deref (set_storage st sto) b)))
    with (c_str (username (deref st b))).
  rewrite Hname. cbn [storage set_storage].
  specialize (Hfetch target me (or_intror (conj eq_refl eq_refl))).
  destruct (storage_fetch_conversation sto target me) as [[rc' rows] sto'].
  destruct Hfetch as (-> & Hin & _).
  split; [reflexivity|].
  rewrite !sends_app, sends_concat_sending. cbn [sends app]. rewrite sends_sending.
  split.
  - apply in_or_app. left. apply in_map_iff.
    exists (appended_row (storage st) me target message). split; [|exact Hin].
    unfold history_line, appended_row. cbn [created_at sender body].
    assert (Hcm : c_str me = me) by apply c_str_idemp.
    rewrite Hcm, (c_str_id message) by assumption. reflexivity.
  - rewrite last_last. unfold history_status. cbn [negb Z.eqb].
    destruct rows; [destruct Hin | reflexivity].
Qed.

Import Closing.

(** ** Sessions over their life *)

Section SessionFacts.

Context `{SqlEngine}.

Lemma handle_line_heap session line st :
  let st' := (run (handle_line session line) st).1.2 in
  clients_head st' = clients_head st
  /\ (heap st' = heap st
      \/ (authenticated (deref st session) = false
          /\ exists s, heap st' = <[session := s]> (heap st))).
Proof.
  cbv zeta.
  destruct (handle_line_effect session line st) as [[Hh Hc] | (Hauth & _ & _ & _ & ->)].
  - auto.
  - split; [reflexivity|]. right. split; [exact Hauth|].
    rewrite heap_register. eauto.
Qed.




End SessionFacts.


(** The record of an authenticated session (socket, name, flag) is never
    changed by anything that happens in the server, for as long as the
    session is allocated: a name, once set, stays. *)
Theorem authenticated_session_is_never_changed `{SqlEngine}
    (st : server) (op : operation) (p : ptr) :
  authenticated (deref st p) = true ->
  is_Some (heap (apply st op) !! p) ->
  heap (apply st op) !! p = heap st !! p.
Proof.
  intros Hauth Hlive.
  pose proof (authenticated_is_allocated st p Hauth) as Halloc.
  destruct op as [fd|session buffer|session|s e c r]; cbn [apply] in *.
  - rewrite run_accept_connection. cbn [fst snd heap].
    apply lookup_insert_ne. intros Heq. rewrite <- Heq in Halloc.
    rewrite fresh_session_unallocated in Halloc. discriminate.
  - destruct (live st session); [|reflexivity].
    destruct (handle_line_heap session (c_str buffer) st) as [_ [-> | (Hs & s & ->)]];
      [reflexivity|].
    apply lookup_insert_ne. intros ->. congruence.
  - destruct (live st session); [|reflexivity].
    rewrite run_worker_exit in *. cbn [heap] in *.
    destruct (decide (session = p)) as [->|Hne].
    + rewrite lookup_delete_eq in Hlive. destruct Hlive as [x Hx]. discriminate.
    + apply lookup_delete_ne. exact Hne.
  - reflexivity.
Qed.

(** ** Names and the user list *)

Section NameFacts.

Context `{SqlEngine}.

Local Arguments Ascii.eqb : simpl never.

Lemma run_users_line st session :
  authenticated (deref st session) = true ->
  run (handle_line session (lit "USERS")) st =
  (Continue, st, (run (notify_user_list session) st).2).
Proof.
  intros Hauth. unfold handle_line. cbn [bind read run]. rewrite Hauth. cbn [negb].
  change (strncmp_eq (lit "USERS") (lit "SEND ") 5) with false. cbv iota.
  change (strncmp_eq (lit "USERS") (lit "GET ") 4) with false. cbv iota.
  change (strncmp_eq (lit "USERS") (lit "DELETE ") 7) with false. cbv iota.
  change (strcmp_eq (lit "USERS") (lit "USERS")) with true. cbv iota.
  rewrite run_bind, run_notify_user_list. cbn [run snd]. rewrite app_nil_r. reflexivity.
Qed.

Lemma omap_cons {A B : Type} (f : A -> option B) (x : A) (l : list A) :
  omap f (x :: l) = match f x with Some y => y :: omap f l | None => omap f l end.
Proof. reflexivity. Qed.

Lemma user_names_deref st :
  user_names st =
  omap (fun p => if authenticated (deref st p)
                 then Some (c_str (username (deref st p))) else None)
       (clients_head st).
Proof.
  unfold user_names. apply list_omap_ext.
  induction (clients_head st) as [|p l IH]; constructor; [|exact IH].
  unfold deref. destruct (heap st !! p); reflexivity.
Qed.

Lemma sends_user_lines session st l :
  sends (concat (map (fun p =>
           if authenticated (deref st p)
           then sending session (lit "USER " ++ c_str (username (deref st p)))
           else []) l))
  = map (fun n => (session, frame (lit "USER " ++ n)))
        (omap (fun p => if authenticated (deref st p)
                        then Some (c_str (username (deref st p))) else None) l).
Proof.
  induction l as [|p l IH]; [reflexivity|].
  rewrite omap_cons. cbn [map concat]. rewrite sends_app, IH.
  destruct (authenticated (deref st p)); reflexivity.
Qed.

Lemma user_names_spec st n :
  In n (user_names st) <->
  exists p, In p (clients_head st) /\ authenticated (deref st p) = true
            /\ c_str (username (deref st p)) = n.
Proof.
  rewrite user_names_deref, <- list_elem_of_In, list_elem_of_omap.
  split.
  - intros (p & Hp & Hn). apply list_elem_of_In in Hp.
    destruct (authenticated (deref st p)) eqn:Ha; [|discriminate].
    injection Hn as <-. eauto.
  - intros (p & Hp & Ha & <-). exists p. rewrite Ha, list_elem_of_In. auto.
Qed.

Lemma user_names_nodup st : registry_ok st -> List.NoDup (user_names st).
Proof.
  intros Hok. rewrite user_names_deref.
  pose proof (ok_nodup _ Hok) as Hnd.
  assert (Hinj : forall p q, In p (clients_head st) -> In q (clients_head st) ->
            authenticated (deref st p) = true -> authenticated (deref st q) = true ->
            c_str (username (deref st p)) = c_str (username (deref st q)) -> p = q).
  { intros p q _ _ Hp Hq Heq.
    eapply (ok_unique _ Hok); eauto using authenticated_is_allocated. }
  induction (clients_head st) as [|p l IH]; [constructor|]. rewrite omap_cons.
  inversion Hnd as [|? ? Hp Hl]; subst.
  assert (IH' := IH Hl ltac:(intros; apply Hinj; auto; right; assumption)).
  destruct (authenticated (deref st p)) eqn:Ha; [|exact IH'].
  constructor; [|exact IH'].
  rewrite <- list_elem_of_In, list_elem_of_omap. intros (q & Hq & Hn).
  apply list_elem_of_In in Hq.
  destruct (authenticated (deref st q)) eqn:Hqa; [|discriminate].
  injection Hn as Hn.
  assert (p = q) by (apply Hinj; auto; [left; reflexivity | right; assumption]).
  subst q. apply Hp, list_elem_of_In, Hq.
Qed.

Lemma strchr_none s (c : char) : c ∉ s -> strchr s c = None.
Proof.
  induction s as [|x s IH]; intros Hc; [reflexivity|].
  apply not_elem_of_cons in Hc as [Hx Hc]. cbn [strchr].
  destruct (is_nul x); [reflexivity|].
  assert (Ascii.eqb x c = false) as -> by (apply Ascii.eqb_neq; congruence).
  rewrite IH by assumption. reflexivity.
Qed.

Lemma exit_frees_name session st p :
  registry_ok st -> authenticated (deref st session) = true ->
  In p (unlink session (clients_head st)) ->
  is_named (delete session (heap st)) (c_str (username (deref st session))) p = false.
Proof.
  intros Hok Hauth Hin.
  apply unlink_in in Hin as [Hin Hne]; [|apply (ok_nodup _ Hok)].
  unfold is_named. rewrite lookup_delete_ne by congruence.
  destruct (heap st !! p) as [s|] eqn:Hs; [|reflexivity].
  destruct (authenticated s) eqn:Ha; [|reflexivity]. cbn [andb].
  apply not_true_is_false. intros Hcmp.
  apply strncmp_eq_short in Hcmp; [|apply (ok_fits _ Hok _ _ Hs)].
  rewrite c_str_idemp in Hcmp.
  apply Hne. eapply (ok_unique _ Hok); eauto using authenticated_is_allocated.
Qed.

End NameFacts.

(** The reply to USERS from an authenticated session on a consistent
    registry: USERS_BEGIN, one USER line for every authenticated session of
    the list, each name once, the sender's own among them, then USERS_END;
    sessions that have not authenticated are not shown; nothing changes. *)
Theorem users_lists_each_name_once `{SqlEngine} (st : server) (session : ptr) :
  registry_ok st ->
  authenticated (deref st session) = true ->
  let '(fl, st', tr) := run (handle_line session (lit "USERS")) st in
  fl = Continue /\ st' = st
  /\ sends tr = [(session, frame (lit "USERS_BEGIN"))]
                ++ map (fun n => (session, frame (lit "USER " ++ n))) (user_names st)
                ++ [(session, frame (lit "USERS_END"))]
  /\ List.NoDup (user_names st)
  /\ In (c_str (username (deref st session))) (user_names st)
  /\ forall n, In n (user_names st) <->
       exists p, In p (clients_head st) /\ authenticated (deref st p) = true
                 /\ c_str (username (deref st p)) = n.
Proof.
  intros Hok Hauth. rewrite run_users_line by assumption.
  split; [reflexivity|]. split; [reflexivity|]. split.
  - rewrite run_notify_user_list. cbn [snd app sends].
    rewrite !sends_app, sends_user_lines, <- user_names_deref. reflexivity.
  - split; [apply user_names_nodup, Hok|]. split; [|apply user_names_spec].
    apply user_names_spec. exists session. repeat split; try assumption.
    apply (ok_live _ Hok). rewrite (authenticated_is_allocated _ _ Hauth). eauto.
Qed.

(** An authenticated session cannot authenticate again or take another
    name: its AUTH lines are answered [ERROR Unknown command] and change
    nothing. *)
Theorem second_auth_is_unknown_command `{SqlEngine}
    (st : server) (session : ptr) (rest : text) :
  authenticated (deref st session) = true ->
  run (handle_line session (lit "AUTH " ++ rest)) st =
  (Continue, st, sending session (lit "ERROR Unknown command")).
Proof.
  intros Hauth. unfold handle_line. cbn [bind read run]. rewrite Hauth. cbn [negb].
  change (strncmp_eq (lit "AUTH " ++ rest) (lit "SEND ") 5) with false. cbv iota.
  change (strncmp_eq (lit "AUTH " ++ rest) (lit "GET ") 4) with false. cbv iota.
  change (strncmp_eq (lit "AUTH " ++ rest) (lit "DELETE ") 7) with false. cbv iota.
  change (strcmp_eq (lit "AUTH " ++ rest) (lit "USERS")) with false. cbv iota.
  change (strcmp_eq (lit "AUTH " ++ rest) (lit "QUIT")) with false. cbv iota.
  rewrite run_bind, run_send_formatted. reflexivity.
Qed.

(** AUTH fails without changing anything when the name, trailing
    whitespace removed, is empty or has 32 bytes or more (and then the
    registry lock is not even taken), and when an authenticated session of
    the list has the name already. *)
Theorem failed_auth_changes_nothing `{SqlEngine}
    (st : server) (session : ptr) (rest : text) :
  authenticated (deref st session) = false ->
  let name := trim_newline rest in
  let result := run (handle_line session (lit "AUTH " ++ rest)) st in
  (name = [] \/ (MAX_USERNAME <= length name)%nat ->
     result = (Continue, st, sending session (lit "ERROR Invalid username length")))
  /\ (forall holder,
        name <> [] -> (length name < MAX_USERNAME)%nat ->
        find_client_by_name st name = Some holder ->
        result = (Continue, st,
                  [Locked clients_lock; Unlocked clients_lock]
                  ++ sending session (lit "ERROR Username taken"))).
Proof.
  intros Hauth name result. subst result. rewrite run_auth_line by assumption.
  fold name. cbv zeta.
  assert (Hlen : strlen name = Z.of_nat (length name)).
  { unfold strlen. rewrite c_str_id by apply trim_newline_no_nul. reflexivity. }
  rewrite Hlen. split.
  - intros [-> | Hlong].
    + reflexivity.
    + replace (Z.of_nat MAX_USERNAME <=? Z.of_nat (length name)) with true
        by (symmetry; apply Z.leb_le; lia).
      rewrite orb_true_r. reflexivity.
  - intros holder Hne Hshort Hfind.
    replace (Z.of_nat (length name) =? 0) with false
      by (symmetry; apply Z.eqb_neq; destruct name; [congruence | cbn [length]; lia]).
    replace (Z.of_nat MAX_USERNAME <=? Z.of_nat (length name)) with false
      by (symmetry; apply Z.leb_gt; lia).
    cbn [orb]. unfold username_available. rewrite Hfind. reflexivity.
Qed.

(** When a worker exits, the name of its session is free again: a lookup
    of the name finds nobody, and another session of the list that has
    not authenticated can take the name with AUTH. *)
Theorem exit_releases_the_name `{SqlEngine}
    (st : server) (session other : ptr) :
  registry_ok st ->
  authenticated (deref st session) = true ->
  let name := c_str (username (deref st session)) in
  let st' := (run (worker_exit session) st).1.2 in
  name <> [] -> trim_newline name = name ->
  other <> session -> In other (clients_head st) ->
  authenticated (deref st other) = false ->
  find_client_by_name st' name = None
  /\ let '(fl, st2, tr) := run (handle_line other (lit "AUTH " ++ name)) st' in
     sends tr = [(other, frame (lit "OK Authenticated as " ++ name))]
     /\ find_client_by_name st2 name = Some other.
Proof.
  intros Hok Hauth name st' Hne Htrim Hother Hin Hunauth.
  assert (Hst' : st' = Srv (delete session (heap st)) (unlink session (clients_head st))
                           (storage st) (server_running st))
    by apply run_worker_exit.
  assert (Hfree : find_client_by_name st' name = None).
  { rewrite Hst'. unfold find_client_by_name. cbn [heap clients_head].
    apply find_from_none. intros p Hp. apply exit_frees_name; assumption. }
  split; [exact Hfree|].
  assert (Hlen : (length name < MAX_USERNAME)%nat).
  { apply (ok_fits _ Hok session). apply authenticated_is_allocated, Hauth. }
  assert (Hderef : deref st' other = deref st other).
  { rewrite Hst'. unfold deref. cbn [heap]. rewrite lookup_delete_ne by congruence.
    reflexivity. }
  assert (Hnul : NUL ∉ name) by apply c_str_no_nul.
  rewrite run_auth_line by (rewrite Hderef; exact Hunauth).
  rewrite Htrim. cbv zeta. unfold strlen. rewrite (c_str_id name) by assumption.
  replace (Z.of_nat (length name) =? 0) with false
    by (symmetry; apply Z.eqb_neq; destruct name; [congruence | cbn [length]; lia]).
  replace (Z.of_nat MAX_USERNAME <=? Z.of_nat (length name)) with false
    by (symmetry; apply Z.leb_gt; lia).
  cbn [orb]. unfold username_available. rewrite Hfree.
  rewrite deref_register_same. cbn [username].
  rewrite c_str_strncpy by assumption.
  split; [reflexivity|].
  unfold find_client_by_name.
  assert (Hin' : In other (clients_head (register other name st'))).
  { change (clients_head (register other name st')) with (clients_head st').
    rewrite Hst'. cbn [clients_head]. apply unlink_in; [apply (ok_nodup _ Hok) | auto]. }
  apply find_from_unique; [exact Hin'| |].
  - unfold is_named. rewrite heap_register, lookup_insert_eq. cbn [authenticated username andb].
    apply strncmp_eq_short; [rewrite c_str_strncpy by assumption; exact Hlen|].
    rewrite c_str_strncpy, c_str_id by assumption. reflexivity.
  - intros q Hq Hnamed. destruct (decide (q = other)) as [->|Hqo]; [reflexivity|].
    rewrite is_named_register_other in Hnamed by assumption.
    change (clients_head (register other name st')) with (clients_head st') in Hq.
    unfold find_client_by_name in Hfree.
    rewrite (proj1 (find_from_none _ _ _) Hfree q Hq) in Hnamed. discriminate.
Qed.
(** SEND to a connected user on a working store: the message is stored
    first, then pushed to the receiver's session as one MESSAGE line, then
    acknowledged to the sender; the registry is unchanged. *)
Theorem online_send_is_stored_and_pushed `{SqlEngine}
    (st : server) (session receiver : ptr) (target message : text) :
  authenticated (deref st session) = true ->
  NUL ∉ target ++ message -> SP ∉ target -> message <> [] ->
  status (storage st) = Healthy ->
  find_client_by_name st target = Some receiver ->
  let me := c_str (username (deref st session)) in
  let '(fl, st', tr) :=
    run (handle_line session (lit "SEND " ++ target ++ SP :: message)) st in
  fl = Continue
  /\ same_registry st st'
  /\ messages (table (storage st'))
     = messages (table (storage st)) ++ [appended_row (storage st) me target message]
  /\ tr = [Locked storage_lock; Unlocked storage_lock; Locked clients_lock]
          ++ sending receiver (lit "MESSAGE " ++ me ++ lit " " ++ message)
          ++ [Unlocked clients_lock]
          ++ sending session (lit "OK Message queued").
Proof.
  intros Hauth Hnul Hsp Hmsg Hok Hfind me.
  rewrite run_send_line, run_deliver_message by assumption. fold me.
  destruct (stored_row_is_fetched (storage st) me target message Hok)
    as (Hrc & Hrows & _ & _).
  destruct (storage_store_message (storage st) me target message) as [rc sto].
  cbn [fst snd] in Hrc, Hrows. subst rc. rewrite Hfind. cbn [Z.eqb].
  split; [reflexivity|]. split; [split; reflexivity|]. split; [exact Hrows|].
  cbn [app]. reflexivity.
Qed.

(** A SEND without a message is refused and stores nothing: without a
    space after the user name the reply is the usage line, with nothing
    after the space it is [ERROR Message cannot be empty]; the state is
    unchanged and nobody else is sent anything. *)
Theorem malformed_send_is_refused `{SqlEngine}
    (st : server) (session : ptr) (target : text) :
  authenticated (deref st session) = true ->
  NUL ∉ target -> SP ∉ target ->
  run (handle_line session (lit "SEND " ++ target)) st
  = (Continue, st, sending session (lit "ERROR Usage: SEND <user> <message>"))
  /\ run (handle_line session (lit "SEND " ++ target ++ [SP])) st
  = (Continue, st, sending session (lit "ERROR Message cannot be empty")).
Proof.
  intros Hauth Hnul Hsp. split.
  - unfold handle_line. cbn [bind read run]. rewrite Hauth. cbn [negb].
    change (strncmp_eq (lit "SEND " ++ target) (lit "SEND ") 5) with true. cbv iota.
    change (drop 5 (lit "SEND " ++ target)) with target. cbv zeta.
    rewrite strchr_none by assumption.
    rewrite run_bind, run_send_formatted. reflexivity.
  - unfold handle_line. cbn [bind read run]. rewrite Hauth. cbn [negb].
    change (strncmp_eq (lit "SEND " ++ target ++ [SP]) (lit "SEND ") 5) with true. cbv iota.
    change (drop 5 (lit "SEND " ++ target ++ [SP])) with (target ++ [SP]). cbv zeta.
    rewrite strchr_first by (assumption || discriminate).
    replace (drop (S (length target)) (target ++ [SP])) with (@nil char)
      by (symmetry; apply drop_ge; rewrite length_app; cbn [length]; lia).
    change (strlen [] =? 0) with true. cbv iota.
    rewrite run_bind, run_send_formatted. reflexivity.
Qed.

(** ** The client and the server, end to end *)

Section ClientTheory.

Import Client.

Section ClientFacts.

Context `{SqlEngine}.

Local Arguments Ascii.eqb : simpl never.

Lemma send_command_short msg :
  (length msg <= 2046)%nat -> send_command msg = msg ++ [LF].
Proof.
  intros Hlen. unfold send_command. cbv zeta.
  rewrite (take_ge msg 2047) by lia.
  replace (2047 <=? length msg)%nat with false by (symmetry; apply Nat.leb_gt; lia).
  rewrite take_ge by lia. reflexivity.
Qed.

Lemma send_command_cut msg : send_command msg = take 2046 msg ++ [LF].
Proof.
  unfold send_command. cbv zeta.
  destruct (2047 <=? length (take 2047 msg))%nat eqn:Hfull.
  - rewrite take_take. reflexivity.
  - apply Nat.leb_gt in Hfull. rewrite length_take in Hfull.
    rewrite (take_ge msg 2047) by lia. rewrite !take_ge by lia. reflexivity.
Qed.

Lemma chomp_line line : chomp (line ++ [LF]) = line.
Proof.
  unfold chomp. rewrite rev_app_distr. cbn [rev app].
  change (Ascii.eqb LF LF) with true. cbv iota. apply rev_involutive.
Qed.

Lemma not_in_take (c : char) n (s : text) : c ∉ s -> c ∉ take n s.
Proof. intros Hc Hin. apply Hc. eapply subseteq_take; eassumption. Qed.

(** The server reads back the line the client sent. *)
Lemma server_reads_command msg more cl :
  LF ∉ msg -> CR ∉ msg ->
  read_line (Stream (send_command msg ++ more) cl) LINE_SIZE =
  (Z.of_nat (length (take 2046 msg)), take 2046 msg, Stream more cl).
Proof.
  intros Hlf Hcr. rewrite send_command_cut. unfold read_line. cbn [pending closing].
  rewrite <- app_assoc. cbn [app].
  rewrite (read_line_loop_line LINE_SIZE cl line_size_ok (take 2046 msg) more []).
  - reflexivity.
  - apply not_in_take, Hlf.
  - apply not_in_take, Hcr.
  - cbn [length]. rewrite length_take. unfold LINE_SIZE. lia.
Qed.

End ClientFacts.

(** [send_command] always writes one line: at most 2047 bytes, the last
    one the only newline when the text has none; and the server's
    [read_line] gets back the text, cut to 2046 bytes, with nothing left
    over, so that a command of the client is never split in two by the
    server's buffer. *)
Theorem client_line_reaches_server (msg more : text) (cl : closed) :
  LF ∉ msg -> CR ∉ msg ->
  (length (send_command msg) <= 2047)%nat
  /\ send_command msg = take 2046 msg ++ [LF]
  /\ read_line (Stream (send_command msg ++ more) cl) Server.LINE_SIZE =
     (Z.of_nat (length (take 2046 msg)), take 2046 msg, Stream more cl).
Proof.
  intros Hlf Hcr. split; [|split].
  - rewrite send_command_cut, length_app, length_take. cbn [length]. lia.
  - apply send_command_cut.
  - apply server_reads_command; assumption.
Qed.
Section ClientCommands.

Context `{SqlEngine}.

Local Arguments Ascii.eqb : simpl never.

Lemma not_in_app3 (c : char) (a b : text) (x : char) :
  c ∉ a -> c <> x -> c ∉ b -> c ∉ a ++ x :: b.
Proof.
  intros Ha Hx Hb. rewrite elem_of_app, elem_of_cons. intros [?|[?|?]]; tauto.
Qed.

Lemma client_sendmessage target message :
  NUL ∉ target -> SP ∉ target -> NUL ∉ message ->
  client_command (lit "sendmessage " ++ target ++ SP :: message ++ [LF])
  = Command (send_command (lit "SEND " ++ target ++ SP :: message)).
Proof.
  intros Hnt Hsp Hnm. unfold client_command.
  replace (lit "sendmessage " ++ target ++ SP :: message ++ [LF])
    with ((lit "sendmessage " ++ target ++ SP :: message) ++ [LF])
    by (rewrite <- !app_assoc; reflexivity).
  rewrite chomp_line. cbv zeta.
  change (strncmp_eq (lit "sendmessage " ++ target ++ SP :: message) (lit "sendmessage ") 12)
    with true. cbv iota.
  change (drop 12 (lit "sendmessage " ++ target ++ SP :: message))
    with (target ++ SP :: message).
  rewrite strchr_first by (assumption || discriminate).
  rewrite take_app_length.
  replace (drop (S (length target)) (target ++ SP :: message)) with message
    by (change (target ++ SP :: message) with (target ++ [SP] ++ message);
        rewrite app_assoc, drop_app_length'; [reflexivity | rewrite length_app; simpl; lia]).
  rewrite c_str_id by assumption. reflexivity.
Qed.

Lemma client_getmessages user :
  NUL ∉ user ->
  client_command (lit "getmessages " ++ user ++ [LF])
  = Command (send_command (lit "GET " ++ user)).
Proof.
  intros Hnu. unfold client_command.
  replace (lit "getmessages " ++ user ++ [LF]) with ((lit "getmessages " ++ user) ++ [LF])
    by (rewrite <- !app_assoc; reflexivity).
  rewrite chomp_line. cbv zeta.
  change (strncmp_eq (lit "getmessages " ++ user) (lit "sendmessage ") 12) with false.
  cbv iota.
  change (strncmp_eq (lit "getmessages " ++ user) (lit "getmessages ") 12) with true.
  cbv iota.
  change (drop 12 (lit "getmessages " ++ user)) with user.
  rewrite c_str_id by assumption. reflexivity.
Qed.

Lemma client_deletemessages user :
  NUL ∉ user ->
  client_command (lit "deletemessages " ++ user ++ [LF])
  = Command (send_command (lit "DELETE " ++ user)).
Proof.
  intros Hnu. unfold client_command.
  replace (lit "deletemessages " ++ user ++ [LF])
    with ((lit "deletemessages " ++ user) ++ [LF])
    by (rewrite <- !app_assoc; reflexivity).
  rewrite chomp_line. cbv zeta.
  change (strncmp_eq (lit "deletemessages " ++ user) (lit "sendmessage ") 12) with false.
  cbv iota.
  change (strncmp_eq (lit "deletemessages " ++ user) (lit "getmessages ") 12) with false.
  cbv iota.
  change (strncmp_eq (lit "deletemessages " ++ user) (lit "deletemessages ") 15) with true.
  cbv iota.
  change (drop 15 (lit "deletemessages " ++ user)) with user.
  rewrite c_str_id by assumption. reflexivity.
Qed.

Lemma server_reads_short msg more cl :
  LF ∉ msg -> CR ∉ msg -> (length msg <= 2046)%nat ->
  read_line (Stream (send_command msg ++ more) cl) LINE_SIZE =
  (Z.of_nat (length msg), msg, Stream more cl).
Proof.
  intros Hlf Hcr Hlen. rewrite server_reads_command by assumption.
  rewrite take_ge by lia. reflexivity.
Qed.

End ClientCommands.

(** What the user types arrives at the server as the protocol line meant:
    for each command of the client, the bytes [send_command] writes are
    read by the server's [read_line] as exactly one line, SEND, GET,
    DELETE, USERS or QUIT with the arguments typed, and nothing is left
    over. *)
Theorem client_commands_arrive (target message user more : text) (cl : closed) :
  NUL ∉ target -> SP ∉ target -> LF ∉ target -> CR ∉ target ->
  NUL ∉ message -> LF ∉ message -> CR ∉ message ->
  (length target + length message <= 2040)%nat ->
  NUL ∉ user -> LF ∉ user -> CR ∉ user -> (length user <= 2039)%nat ->
  let arrives (input line : text) :=
    read_line (Stream (wire_of (client_command input) ++ more) cl) Server.LINE_SIZE
    = (Z.of_nat (length line), line, Stream more cl) in
  arrives (lit "sendmessage " ++ target ++ SP :: message ++ [LF])
          (lit "SEND " ++ target ++ SP :: message)
  /\ arrives (lit "getmessages " ++ user ++ [LF]) (lit "GET " ++ user)
  /\ arrives (lit "deletemessages " ++ user ++ [LF]) (lit "DELETE " ++ user)
  /\ arrives (lit "getuserlist" ++ [LF]) (lit "USERS")
  /\ arrives (lit "quit" ++ [LF]) (lit "QUIT").
Proof.
  intros Hnt Hst Hlt Hct Hnm Hlm Hcm Hlen Hnu Hlu Hcu Hlenu arrives. subst arrives.
  cbv beta.
  assert (Hlit : forall (c : char) (p : string) (s : text),
            c ∉ lit p -> c ∉ s -> c ∉ lit p ++ s).
  { intros c p s Hp Hs. rewrite elem_of_app. tauto. }
  split; [|split; [|split; [|split]]].
  - rewrite client_sendmessage by assumption. cbn [wire_of].
    apply server_reads_short.
    + apply Hlit; [compute_done|]. apply not_in_app3; [assumption | discriminate | assumption].
    + apply Hlit; [compute_done|]. apply not_in_app3; [assumption | discriminate | assumption].
    + rewrite !length_app. cbn [length]. change (length (lit "SEND ")) with 5%nat. lia.
  - rewrite client_getmessages by assumption. cbn [wire_of].
    apply server_reads_short; [apply Hlit; [compute_done | assumption]..|].
    rewrite length_app. change (length (lit "GET ")) with 4%nat. lia.
  - rewrite client_deletemessages by assumption. cbn [wire_of].
    apply server_reads_short; [apply Hlit; [compute_done | assumption]..|].
    rewrite length_app. change (length (lit "DELETE ")) with 7%nat. lia.
  - reflexivity.
  - reflexivity.
Qed.
Section ClientDisplay.

Context `{SqlEngine}.

Local Arguments Ascii.eqb : simpl never.

Lemma c_str_app_nul s rest : NUL ∉ s -> c_str (s ++ NUL :: rest) = s.
Proof.
  induction s as [|c s IH]; intros Hs; [reflexivity|].
  apply not_elem_of_cons in Hs as [Hc Hs]. cbn [app c_str]. unfold is_nul.
  assert (Ascii.eqb c NUL = false) as -> by (apply Ascii.eqb_neq; congruence).
  rewrite IH by assumption. reflexivity.
Qed.

Lemma display_message old who rest :
  NUL ∉ who -> SP ∉ who -> NUL ∉ rest ->
  handle_server_line (store_line old (lit "MESSAGE " ++ who ++ SP :: rest))
  = Reaction (lit "Message from "
              ++ (if (Client.MAX_USERNAME <=? length who)%nat
                  then take (Client.MAX_USERNAME - 1) who else who)
              ++ lit ": " ++ rest ++ [LF]) false.
Proof.
  intros Hnw Hsw Hnr. unfold store_line, handle_server_line.
  set (stale := drop _ old).
  change (strncmp_eq ((lit "MESSAGE " ++ who ++ SP :: rest) ++ NUL :: stale)
            (lit "MESSAGE ") 8) with true. cbv iota.
  change (drop 8 ((lit "MESSAGE " ++ who ++ SP :: rest) ++ NUL :: stale))
    with ((who ++ SP :: rest) ++ NUL :: stale).
  cbv zeta. rewrite <- app_assoc. cbn [app].
  rewrite strchr_first by (assumption || discriminate).
  replace (drop (S (length who)) (who ++ SP :: rest ++ NUL :: stale))
    with (rest ++ NUL :: stale)
    by (change (who ++ SP :: rest ++ NUL :: stale)
          with (who ++ [SP] ++ rest ++ NUL :: stale);
        rewrite app_assoc, drop_app_length'; [reflexivity | rewrite length_app; simpl; lia]).
  rewrite c_str_app_nul by assumption.
  destruct (Client.MAX_USERNAME <=? length who)%nat eqn:Hlong.
  - apply Nat.leb_le in Hlong. unfold Client.MAX_USERNAME in *.
    rewrite take_app_le by lia. reflexivity.
  - rewrite take_app_length. reflexivity.
Qed.

End ClientDisplay.

(** How the client shows a pushed message: the text after [MESSAGE ] is
    split at its first space, what is before it is shown as the sender (cut
    to 31 bytes) and the rest as the message. A sender whose name has no
    space is shown in full; of a name with a space, which AUTH accepts,
    only the first word is shown as the sender and the rest runs into the
    message. *)
Theorem message_is_shown_split_at_first_space
    (old who rest : text) :
  NUL ∉ who -> SP ∉ who -> NUL ∉ rest ->
  handle_server_line (store_line old (lit "MESSAGE " ++ who ++ SP :: rest))
  = Reaction (lit "Message from "
              ++ (if (Client.MAX_USERNAME <=? length who)%nat
                  then take (Client.MAX_USERNAME - 1) who else who)
              ++ lit ": " ++ rest ++ [LF]) false.
Proof. apply @display_message. Qed.

(** Only BYE and SHUTDOWN make the client stop: whatever else the server
    sends (a message, a history line, an error), the receiver goes on. *)
Theorem only_bye_and_shutdown_stop_the_client (line : text) :
  stops (handle_server_line line)
  = strncmp_eq line (lit "BYE") 3 || strncmp_eq line (lit "SHUTDOWN") 8.
Proof.
  unfold handle_server_line.
  repeat match goal with
  | |- stops (if strncmp_eq line (lit "BYE") 3 then _ else _) = _ => fail 1
  | |- stops (if strncmp_eq line (lit ?q) ?n then _ else _) = _ =>
      let E := fresh "E" in
      destruct (strncmp_eq line (lit q) n) eqn:E;
      [ let Hl := fresh "Hl" in
        pose proof (strncmp_literal_prefix (lit q) line ltac:(compute_done) E) as Hl;
        generalize dependent (drop (length (lit q)) line); intros rest Hl; subst line;
        try destruct (strchr _ _); reflexivity
      | ]
  end.
  destruct (strncmp_eq line (lit "BYE") 3); [reflexivity|].
  destruct (strncmp_eq line (lit "SHUTDOWN") 8); [reflexivity|].
  destruct (strncmp_eq line (lit "WELCOME") 7); reflexivity.
Qed.


End ClientTheory.

Import Shutdown.

(** ** Shutdown *)

Section ShutdownFacts.

Context `{SqlEngine}.


Lemma closes_sending session msg : closes (sending session msg) = [].
Proof. reflexivity. Qed.





End ShutdownFacts.


(** ** The log file backend *)

Section LogFile.

Import FlatFile.

Section GetlineFacts.

Local Arguments Ascii.eqb : simpl never.

Lemma cast_int_small z : 0 <= z < 2 ^ 31 -> cast_int z = z.
Proof.
  intros Hz. unfold cast_int. rewrite Z.mod_small by lia. lia.
Qed.

Lemma fgets_read_line line rest : forall k,
  LF ∉ line ->
  fgets_read k (line ++ LF :: rest) =
  if (length line <? k)%nat then (line ++ [LF], rest)
  else (take k line, drop k line ++ LF :: rest).
Proof.
  induction line as [|c line IH]; intros k Hlf.
  - destruct k; cbn; [reflexivity|].
    change (Ascii.eqb LF LF) with true. reflexivity.
  - apply not_elem_of_cons in Hlf as [Hc Hlf].
    destruct k as [|k]; [reflexivity|].
    cbn [app fgets_read length take drop].
    assert (Ascii.eqb c LF = false) as -> by (apply Ascii.eqb_neq; congruence).
    rewrite IH by assumption.
    change (S (length line) <? S k)%nat with (length line <? k)%nat.
    destruct (length line <? k)%nat; reflexivity.
Qed.

Lemma fgets_read_eof line : forall k,
  LF ∉ line -> fgets_read k line = (take k line, drop k line).
Proof.
  induction line as [|c line IH]; intros k Hlf; [destruct k; reflexivity|].
  apply not_elem_of_cons in Hlf as [Hc Hlf].
  destruct k as [|k]; [reflexivity|].
  cbn [fgets_read take drop].
  assert (Ascii.eqb c LF = false) as -> by (apply Ascii.eqb_neq; congruence).
  rewrite IH by assumption. reflexivity.
Qed.

Lemma last_not_lf (acc data : text) :
  data <> [] -> LF ∉ data -> Ascii.eqb (List.last (acc ++ data) NUL) LF = false.
Proof.
  intros Hne Hlf. apply Ascii.eqb_neq. intros Heq.
  destruct (exists_last Hne) as (front & x & ->).
  rewrite app_assoc, last_last in Heq. subst x.
  apply Hlf. rewrite elem_of_app, list_elem_of_singleton. auto.
Qed.

(** The loop on a line that is there with its newline. *)
Lemma getline_loop_line rest : forall fuel line acc n,
  (length line < fuel)%nat -> NUL ∉ line -> LF ∉ line ->
  (length acc + 2 <= n)%nat -> Z.of_nat n < 2 ^ 31 ->
  2 * (Z.of_nat (length acc + length line) + 1) < 2 ^ 31 ->
  exists n',
    getline_loop fuel n acc (line ++ LF :: rest) = Some (acc ++ line ++ [LF], n', rest)
    /\ (n <= n')%nat
    /\ Z.of_nat n' <= Z.max (Z.of_nat n) (2 * (Z.of_nat (length acc + length line) + 1)).
Proof.
  induction fuel as [|fuel IH]; intros line acc n Hfuel Hnul Hlf Hn Hmax Hsize; [lia|].
  cbn [getline_loop].
  rewrite cast_int_small by lia. unfold fgets.
  replace (Z.of_nat (n - length acc) <=? 0) with false by (symmetry; apply Z.leb_gt; lia).
  replace (Z.of_nat (n - length acc) =? 1) with false by (symmetry; apply Z.eqb_neq; lia).
  destruct (line ++ LF :: rest) as [|c0 input0] eqn:Hinput;
    [destruct line; discriminate|]. rewrite <- Hinput. clear c0 input0 Hinput.
  rewrite fgets_read_line by assumption.
  replace (Z.to_nat (Z.of_nat (n - length acc) - 1)) with (n - length acc - 1)%nat by lia.
  destruct (length line <? n - length acc - 1)%nat eqn:Hshort.
  - (* the line fits *)
    cbv zeta.
    rewrite c_str_id
      by (rewrite elem_of_app, list_elem_of_singleton; intros [?|?]; [tauto | discriminate]).
    rewrite app_assoc, last_last. change (Ascii.eqb LF LF) with true.
    replace (0 <? length ((acc ++ line) ++ [LF]))%nat with true
      by (symmetry; apply Nat.ltb_lt; rewrite length_app; cbn [length]; lia).
    cbn [andb]. exists n. rewrite <- app_assoc. split; [reflexivity|]. lia.
  - (* the buffer is full: it is doubled *)
    apply Nat.ltb_ge in Hshort. cbv zeta.
    set (k := (n - length acc - 1)%nat) in *.
    assert (Hk : (1 <= k)%nat) by (unfold k; lia).
    rewrite c_str_id by (apply not_in_take; assumption).
    assert (Htake : take k line <> []).
    { intros Hnil. apply (f_equal length) in Hnil. rewrite length_take in Hnil.
      cbn [length] in Hnil. lia. }
    rewrite last_not_lf by (try assumption; apply not_in_take; assumption).
    rewrite andb_false_r.
    assert (Hlen' : length (acc ++ take k line) = (n - 1)%nat).
    { rewrite length_app, length_take. unfold k. lia. }
    destruct (IH (drop k line) (acc ++ take k line) (n * 2)%nat) as (n' & Hrun & Hn' & Hbound).
    + rewrite length_drop. lia.
    + intros Hin. apply Hnul. eapply subseteq_drop; eassumption.
    + intros Hin. apply Hlf. eapply subseteq_drop; eassumption.
    + lia.
    + unfold k in *. lia.
    + rewrite length_app, length_take, length_drop. lia.
    + exists n'. rewrite Hrun. rewrite <- !app_assoc, (app_assoc (take k line)), take_drop.
      split; [reflexivity|].
      rewrite length_app, length_take, length_drop in Hbound.
      replace (length acc + k `min` length line + (length line - k))%nat
        with (length acc + length line)%nat in Hbound by lia.
      lia.
Qed.

(** The loop at the end of the file. *)
Lemma getline_loop_end n : forall fuel, (0 < fuel)%nat ->
  (2 <= n)%nat -> Z.of_nat n < 2 ^ 31 -> getline_loop fuel n [] [] = None.
Proof.
  intros [|fuel] Hfuel Hn Hmax; [lia|]. cbn [getline_loop length].
  rewrite Nat.sub_0_r, cast_int_small by lia. unfold fgets.
  replace (Z.of_nat n <=? 0) with false by (symmetry; apply Z.leb_gt; lia).
  replace (Z.of_nat n =? 1) with false by (symmetry; apply Z.eqb_neq; lia).
  reflexivity.
Qed.

Lemma portable_getline_line (n : nat) (line rest : list char) :
  NUL ∉ line -> LF ∉ line ->
  (n = 0%nat \/ 2 <= n)%nat -> Z.of_nat n < 2 ^ 31 ->
  2 * (Z.of_nat (length line) + 1) < 2 ^ 31 ->
  (exists n',
     portable_getline n (line ++ LF :: rest) = Some (line ++ [LF], n', rest)
     /\ (2 <= n')%nat /\ (n <= n')%nat
     /\ Z.of_nat n' <= Z.max (Z.max 256 (Z.of_nat n)) (2 * (Z.of_nat (length line) + 1)))
  /\ portable_getline n [] = None.
Proof.
  intros Hnul Hlf Hn Hmax Hsize. unfold portable_getline.
  set (n0 := if (n =? 0)%nat then 256%nat else n).
  assert (Hn0 : (2 <= n0)%nat /\ (n <= n0)%nat /\ Z.of_nat n0 < 2 ^ 31
                /\ Z.of_nat n0 <= Z.max 256 (Z.of_nat n)).
  { unfold n0. destruct Hn as [-> | Hn].
    - change (0 =? 0)%nat with true. cbv iota. change (Z.of_nat 256) with 256.
      change (Z.of_nat 0) with 0. split; [|split; [|split]]; lia.
    - replace (n =? 0)%nat with false by (symmetry; apply Nat.eqb_neq; lia).
      split; [|split; [|split]]; lia. }
  destruct Hn0 as (H2 & Hle & Hlt & Hub). split.
  - destruct (getline_loop_line rest (S (length (line ++ LF :: rest))) line [] n0)
      as (n' & Hrun & Hn' & Hbound); try assumption.
    + rewrite length_app. cbn [length]. lia.
    + exists n'. rewrite Hrun. cbn [length] in Hbound. cbn [app].
      split; [reflexivity|]. lia.
  - apply getline_loop_end; [cbn [length]; lia | assumption | assumption].
Qed.

End GetlineFacts.

(** [portable_getline] returns whole lines, however long, whatever the
    size of the buffer it is given: for a file that starts with a line of
    any length it returns the line with its newline and leaves the rest
    of the file, having grown the buffer as needed; at the end of the
    file it returns -1. *)
Theorem portable_getline_returns_the_line (n : nat) (line rest : list char) :
  NUL ∉ line -> LF ∉ line ->
  (n = 0%nat \/ 2 <= n)%nat -> Z.of_nat n < 2 ^ 31 ->
  2 * (Z.of_nat (length line) + 1) < 2 ^ 31 ->
  (exists n',
     portable_getline n (line ++ LF :: rest) = Some (line ++ [LF], n', rest)
     /\ (2 <= n')%nat /\ (n <= n')%nat
     /\ Z.of_nat n' <= Z.max (Z.max 256 (Z.of_nat n)) (2 * (Z.of_nat (length line) + 1)))
  /\ portable_getline n [] = None.
Proof. apply portable_getline_line. Qed.

Section LogFacts.

Local Arguments Ascii.eqb : simpl never.

Lemma token_end_field (d : char) tok rest :
  d ∉ tok -> token_end [d] (tok ++ d :: rest) = (tok, rest).
Proof.
  induction tok as [|c tok IH]; intros Hd; cbn [app token_end].
  - rewrite bool_decide_eq_true_2 by (apply list_elem_of_singleton; reflexivity). reflexivity.
  - apply not_elem_of_cons in Hd as [Hc Hd].
    rewrite bool_decide_eq_false_2 by (rewrite list_elem_of_singleton; congruence).
    rewrite IH by assumption. reflexivity.
Qed.

Lemma skip_delims_start (d c : char) s :
  c <> d -> skip_delims [d] (c :: s) = c :: s.
Proof.
  intros Hc. cbn [skip_delims].
  rewrite bool_decide_eq_false_2 by (rewrite list_elem_of_singleton; congruence).
  reflexivity.
Qed.

Lemma strtok_field (d : char) tok rest :
  tok <> [] -> d ∉ tok -> NUL ∉ tok ++ d :: rest ->
  strtok (tok ++ d :: rest) [d] = Some (tok, rest).
Proof.
  intros Hne Hd Hnul. unfold strtok. rewrite c_str_id by assumption.
  destruct tok as [|c tok]; [congruence|].
  apply not_elem_of_cons in Hd as [Hc Hd].
  cbn [app]. rewrite skip_delims_start by congruence.
  change (c :: tok ++ d :: rest) with ((c :: tok) ++ d :: rest).
  rewrite token_end_field; [reflexivity|].
  apply not_elem_of_cons. auto.
Qed.

Lemma strcmp_eq_refl s : NUL ∉ s -> strcmp_eq s s = true.
Proof.
  induction s as [|c s IH]; intros Hs; [reflexivity|].
  apply not_elem_of_cons in Hs as [Hc Hs]. cbn [strcmp_eq].
  rewrite Ascii.eqb_refl. unfold is_nul.
  assert (Ascii.eqb c NUL = false) as -> by (apply Ascii.eqb_neq; congruence).
  apply IH, Hs.
Qed.

Lemma parse_line_entry ts sender receiver body :
  ts <> [] -> sender <> [] -> receiver <> [] -> body <> [] ->
  BAR ∉ ts -> BAR ∉ sender -> BAR ∉ receiver -> LF ∉ body ->
  NUL ∉ ts -> NUL ∉ sender -> NUL ∉ receiver -> NUL ∉ body ->
  parse_line (ts ++ [BAR] ++ sender ++ [BAR] ++ receiver ++ [BAR] ++ body ++ [LF])
  = Some (ts, sender, receiver, body).
Proof.
  intros Hts Hs Hr Hb Bts Bs Br Lb Nts Ns Nr Nb. unfold parse_line. cbn [app].
  assert (N4 : NUL ∉ body ++ [LF]).
  { rewrite elem_of_app, list_elem_of_singleton. intros [?|?]; [tauto | discriminate]. }
  assert (N3 : NUL ∉ receiver ++ BAR :: body ++ [LF])
    by (apply not_in_app3; [assumption | discriminate | assumption]).
  assert (N2 : NUL ∉ sender ++ BAR :: receiver ++ BAR :: body ++ [LF])
    by (apply not_in_app3; [assumption | discriminate | assumption]).
  assert (N1 : NUL ∉ ts ++ BAR :: sender ++ BAR :: receiver ++ BAR :: body ++ [LF])
    by (apply not_in_app3; [assumption | discriminate | assumption]).
  rewrite !strtok_field by assumption. reflexivity.
Qed.

Lemma pair_matches_sym a b s r : pair_matches a b s r = pair_matches b a s r.
Proof. unfold pair_matches. apply orb_comm. Qed.

Lemma wanted_is_deleted a b line :
  wanted a b line <> [] -> delete_matches a b line = true.
Proof.
  unfold wanted, parse_line, delete_matches.
  destruct (strtok line [BAR]) as [[ts s1]|]; [|congruence].
  destruct (strtok s1 [BAR]) as [[sender s2]|]; [|congruence].
  destruct (strtok s2 [BAR]) as [[receiver s3]|]; [|congruence].
  destruct (strtok s3 [LF]) as [[body s4]|]; [|congruence].
  destruct (pair_matches a b sender receiver); congruence.
Qed.

Lemma file_of_cons l lines : file_of (l :: lines) = l ++ LF :: file_of lines.
Proof. unfold file_of. cbn [map concat]. rewrite <- app_assoc. reflexivity. Qed.

Lemma file_of_app l1 l2 : file_of (l1 ++ l2) = file_of l1 ++ file_of l2.
Proof. unfold file_of. rewrite map_app, concat_app. reflexivity. Qed.

Lemma file_of_length lines : (length lines <= length (file_of lines))%nat.
Proof.
  induction lines as [|l lines IH]; [cbn; lia|].
  rewrite file_of_cons, length_app. cbn [length]. lia.
Qed.

Variable longest : nat.

Hypothesis longest_fits : 2 * (Z.of_nat longest + 1) < 2 ^ 31.

Local Abbreviation sized := (FlatFile.sized longest).
Local Abbreviation well_formed := (FlatFile.well_formed longest).

Lemma getline_next n l rest :
  sized n -> NUL ∉ l -> LF ∉ l -> (length l <= longest)%nat ->
  exists n', portable_getline n (l ++ LF :: rest) = Some (l ++ [LF], n', rest) /\ sized n'.
Proof.
  intros [Hn Hub] Hnul Hlf Hlen.
  destruct (portable_getline_line n l rest Hnul Hlf Hn) as [(n' & Hrun & H2 & Hle & Hb) _];
    [lia | lia|].
  exists n'. split; [exact Hrun|]. split; [right; exact H2 | lia].
Qed.

Lemma getline_eof n : sized n -> portable_getline n [] = None.
Proof.
  intros [Hn Hub].
  destruct (portable_getline_line n [] [] ltac:(apply not_elem_of_nil)
              ltac:(apply not_elem_of_nil) Hn) as [_ Hend]; [lia | cbn [length]; lia|].
  exact Hend.
Qed.

Lemma fetch_loop_lines a b : forall lines fuel n,
  well_formed lines -> sized n -> (length lines < fuel)%nat ->
  fetch_loop fuel n a b (file_of lines)
  = concat (map (fun l => wanted a b (l ++ [LF])) lines).
Proof.
  induction lines as [|l lines IH]; intros fuel n Hwf Hn Hfuel;
    (destruct fuel as [|fuel]; [cbn [length] in Hfuel; lia|]); cbn [fetch_loop].
  - change (file_of []) with (@nil char). rewrite getline_eof by assumption. reflexivity.
  - inversion Hwf as [|? ? (Hnul & Hlf & Hlen) Hwf']; subst.
    rewrite file_of_cons.
    destruct (getline_next n l (file_of lines) Hn Hnul Hlf Hlen) as (n' & -> & Hn').
    cbn [map concat length] in *. rewrite (IH fuel n' Hwf' Hn') by lia.
    unfold wanted.
    destruct (parse_line (l ++ [LF])) as [[[[ts s] r] bd]|]; [|reflexivity].
    destruct (pair_matches a b s r); reflexivity.
Qed.

Lemma delete_loop_lines a b : forall lines fuel n,
  well_formed lines -> sized n -> (length lines < fuel)%nat ->
  delete_loop fuel n a b (file_of lines)
  = file_of (List.filter (fun l => negb (delete_matches a b (l ++ [LF]))) lines).
Proof.
  induction lines as [|l lines IH]; intros fuel n Hwf Hn Hfuel;
    (destruct fuel as [|fuel]; [cbn [length] in Hfuel; lia|]); cbn [delete_loop].
  - change (file_of []) with (@nil char). rewrite getline_eof by assumption. reflexivity.
  - inversion Hwf as [|? ? (Hnul & Hlf & Hlen) Hwf']; subst.
    rewrite file_of_cons.
    destruct (getline_next n l (file_of lines) Hn Hnul Hlf Hlen) as (n' & -> & Hn').
    cbn [List.filter length] in *. rewrite (IH fuel n' Hwf' Hn') by lia.
    destruct (delete_matches a b (l ++ [LF])); cbn [negb]; [reflexivity|].
    rewrite file_of_cons, <- app_assoc. reflexivity.
Qed.

Lemma sized_start : sized 0.
Proof. split; [left; reflexivity | lia]. Qed.

Lemma well_formed_filter f lines : well_formed lines -> well_formed (List.filter f lines).
Proof.
  unfold FlatFile.well_formed. rewrite !Forall_forall. intros Hwf l Hl.
  apply Hwf. apply list_elem_of_In. apply list_elem_of_In in Hl.
  apply List.filter_In in Hl. tauto.
Qed.

End LogFacts.

Section LogTheorems.

Local Arguments Ascii.eqb : simpl never.

Lemma wanted_sym a b line : wanted a b line = wanted b a line.
Proof.
  unfold wanted. destruct (parse_line line) as [[[[ts s] r] bd]|]; [|reflexivity].
  rewrite pair_matches_sym. reflexivity.
Qed.

Lemma nothing_wanted a b lines :
  concat (map (fun l => wanted a b (l ++ [LF]))
              (List.filter (fun l => negb (delete_matches a b (l ++ [LF]))) lines)) = [].
Proof.
  induction lines as [|l lines IH]; [reflexivity|]. cbn [List.filter].
  destruct (delete_matches a b (l ++ [LF])) eqn:Hdel; cbn [negb]; [exact IH|].
  cbn [map concat]. rewrite IH, app_nil_r.
  destruct (wanted a b (l ++ [LF])) eqn:Hw; [reflexivity|].
  rewrite wanted_is_deleted in Hdel by (rewrite Hw; discriminate). discriminate.
Qed.

End LogTheorems.

(** The log file backend, append then fetch: on a log of complete lines,
    after a message is appended, a fetch for the two users, either way
    round, calls the callback for what it found before and then once more
    with the timestamp, the sender and the body of the new message. The
    timestamp and the names must be non-empty and free of the field
    separator; the body must be non-empty and may contain it. *)
Theorem log_file_round_trip (longest : nat) (d : disk) (lines : list text)
    (ts sender receiver body : text) :
  2 * (Z.of_nat longest + 1) < 2 ^ 31 ->
  log d = file_of lines -> well_formed longest lines -> log_opens d = true ->
  ts <> [] -> sender <> [] -> receiver <> [] -> body <> [] ->
  BAR ∉ ts -> BAR ∉ sender -> BAR ∉ receiver ->
  LF ∉ ts -> LF ∉ sender -> LF ∉ receiver -> LF ∉ body ->
  NUL ∉ ts -> NUL ∉ sender -> NUL ∉ receiver -> NUL ∉ body ->
  let entry := ts ++ [BAR] ++ sender ++ [BAR] ++ receiver ++ [BAR] ++ body in
  (length entry <= longest)%nat ->
  let '(rc, d1) := FlatFile.storage_store_message ts d sender receiver body in
  rc = 0
  /\ log d1 = file_of (lines ++ [entry])
  /\ forall x y, (x = sender /\ y = receiver) \/ (x = receiver /\ y = sender) ->
       (FlatFile.storage_fetch_conversation d1 x y).1
       = (0, (FlatFile.storage_fetch_conversation d x y).1.2 ++ [(ts, sender, body)]).
Proof.
  intros Hfit Hlog Hwf Hopen Hts Hs Hr Hb Bts Bs Br Lts Ls Lr Lb Nts Ns Nr Nb entry Hlen.
  unfold FlatFile.storage_store_message. rewrite Hopen.
  rewrite !c_str_id by assumption.
  split; [reflexivity|].
  assert (Hlog1 : log d ++ ts ++ [BAR] ++ sender ++ [BAR] ++ receiver ++ [BAR] ++ body ++ [LF]
                  = file_of (lines ++ [entry])).
  { rewrite file_of_app, Hlog. f_equal. unfold file_of, entry. cbn [map concat].
    rewrite app_nil_r, <- !app_assoc. reflexivity. }
  split; [exact Hlog1|].
  assert (Hnew : (NUL ∉ entry) /\ (LF ∉ entry)).
  { unfold entry. cbn [app]. split;
      repeat (apply not_in_app3; [assumption | discriminate |]); assumption. }
  assert (Hwf1 : well_formed longest (lines ++ [entry])).
  { apply Forall_app. split; [exact Hwf|]. constructor; [|constructor]. tauto. }
  intros x y Hxy. unfold FlatFile.storage_fetch_conversation.
  cbn [log_opens with_log log]. rewrite Hopen. cbn [fst snd].
  rewrite Hlog1, Hlog.
  rewrite (fetch_loop_lines longest Hfit (c_str x) (c_str y) (lines ++ [entry]));
    [|assumption | apply sized_start
     |pose proof (file_of_length (lines ++ [entry])); lia].
  rewrite (fetch_loop_lines longest Hfit (c_str x) (c_str y) lines);
    [|assumption | apply sized_start | pose proof (file_of_length lines); lia].
  rewrite map_app, concat_app. cbn [map concat]. rewrite app_nil_r.
  do 2 f_equal. unfold wanted, entry. rewrite <- !app_assoc.
  rewrite parse_line_entry by assumption.
  assert (Hm : pair_matches (c_str x) (c_str y) sender receiver = true).
  { unfold pair_matches. apply orb_true_iff.
    destruct Hxy as [[-> ->] | [-> ->]]; [left | right];
      rewrite !c_str_id, !strcmp_eq_refl by assumption; reflexivity. }
  rewrite Hm. reflexivity.
Qed.

(** The log file backend, delete: on a log of complete lines, with the
    files to be had, the new log is the old one without the lines whose
    second and third fields are the two users, in either order, every
    other line kept as it was and in its place; a fetch for the two users
    then finds nothing, either way round. *)
Theorem log_file_delete (longest : nat) (d : disk) (lines : list text) (a b : text) :
  2 * (Z.of_nat longest + 1) < 2 ^ 31 ->
  log d = file_of lines -> well_formed longest lines ->
  log_opens d = true -> tmp_opens d = true -> rename_works d = true ->
  let '(rc, d1) := FlatFile.storage_delete_conversation d a b in
  rc = 0
  /\ log d1 = file_of (List.filter
                         (fun l => negb (delete_matches (c_str a) (c_str b) (l ++ [LF])))
                         lines)
  /\ (FlatFile.storage_fetch_conversation d1 a b).1 = (0, [])
  /\ (FlatFile.storage_fetch_conversation d1 b a).1 = (0, []).
Proof.
  intros Hfit Hlog Hwf Hopen Htmp Hren.
  unfold FlatFile.storage_delete_conversation. rewrite Hopen, Htmp, Hren. cbn [negb].
  rewrite Hlog.
  rewrite (delete_loop_lines longest Hfit);
    [|assumption | apply sized_start | pose proof (file_of_length lines); lia].
  set (kept := List.filter (fun l => negb (delete_matches (c_str a) (c_str b) (l ++ [LF]))) lines).
  assert (Hwfk : well_formed longest kept) by (apply well_formed_filter; assumption).
  split; [reflexivity|]. split; [reflexivity|].
  unfold FlatFile.storage_fetch_conversation. cbn [log_opens with_log log]. rewrite Hopen.
  cbn [fst snd].
  rewrite (fetch_loop_lines longest Hfit (c_str a) (c_str b) kept);
    [|assumption | apply sized_start | pose proof (file_of_length kept); lia].
  rewrite (fetch_loop_lines longest Hfit (c_str b) (c_str a) kept);
    [|assumption | apply sized_start | pose proof (file_of_length kept); lia].
  split; f_equal.
  - apply nothing_wanted.
  - unfold kept. erewrite map_ext by (intros; apply wanted_sym). apply nothing_wanted.
Qed.

End LogFile.

(** * Worked instances *)

Section WorkedInstances.

#[local] Existing Instance table_order_engine.

Lemma history_round_trip_witness :
  (storage_store_message working_store alice bob hello).1 = 0
  /\ exists m : message,
       sender m = alice /\ body m = hello
       /\ In m (@storage_fetch_conversation table_order_engine
                  (storage_store_message working_store alice bob hello).2 bob alice).1.2.
Proof.
  split; [reflexivity|].
  destruct (@history_round_trip table_order_engine working_store alice bob hello eq_refl)
    as [m (_ & Hs & _ & Hb & Hfetch & _)].
  exists m. split; [exact Hs|]. split; [exact Hb|].
  specialize (Hfetch bob alice (or_intror (conj eq_refl eq_refl))).
  destruct (storage_fetch_conversation _ bob alice) as [[rc rows] st'].
  exact (proj1 (proj2 Hfetch)).
Defined.

Lemma auth_keeps_interior_spaces_witness :
  let '(_, st', tr) := run (handle_line 0%nat (lit "AUTH a b ")) lobby in
  c_str (username (deref st' 0%nat)) = lit "a b"
  /\ sends tr = [(0%nat, lit "OK Authenticated as a b" ++ [LF])].
Proof.
  assert (Hnul : NUL ∉ (lit "a" ++ SP :: []) ++ "b"%char :: [SP]).
  { intros Hn. repeat (apply elem_of_cons in Hn as [Hn | Hn]; [discriminate|]).
    inversion Hn. }
  assert (Hlen : (length ((lit "a" ++ SP :: []) ++ ["b"%char]) < MAX_USERNAME)%nat)
    by (vm_compute; lia).
  pose proof (auth_keeps_interior_spaces lobby 0%nat (lit "a") [] "b"%char [SP]
                Hnul eq_refl ltac:(repeat constructor) Hlen
                (or_introl eq_refl) eq_refl eq_refl) as W.
  change (lit "AUTH " ++ ((lit "a" ++ [SP]) ++ ["b"%char]) ++ [SP])
    with (lit "AUTH a b ") in W.
  destruct (run (handle_line 0%nat (lit "AUTH a b ")) lobby) as [[fl st'] tr].
  destruct W as (_ & _ & Hname & _ & Htr).
  split; [exact Hname|]. rewrite Htr. reflexivity.
Defined.

(** [AUTH bob] ended by CR LF and by LF alone, on an accepted connection. *)
Lemma read_line_ignores_carriage_returns_witness :
  let crlf := Stream (lit "AUTH bob" ++ [CR; LF]) EndOfStream in
  let lf := Stream (lit "AUTH bob" ++ [LF]) EndOfStream in
  strip_cr_stream crlf = strip_cr_stream lf
  /\ (read_line crlf LINE_SIZE).1 = (8, lit "AUTH bob")
  /\ (read_line lf LINE_SIZE).1 = (8, lit "AUTH bob")
  /\ (client_worker 0%nat crlf lobby).1 = (client_worker 0%nat lf lobby).1.
Proof.
  cbv zeta.
  pose proof (read_line_ignores_carriage_returns
                (Stream (lit "AUTH bob" ++ [CR; LF]) EndOfStream)
                (Stream (lit "AUTH bob" ++ [LF]) EndOfStream)
                0%nat lobby eq_refl) as (_ & Hline & _ & Hrun).
  split; [reflexivity|]. split; [reflexivity|]. split; [reflexivity | exact Hrun].
Defined.

(** alice sends to bob, both connected, while the store cannot write. *)
Lemma store_failure_is_logged_not_reported_witness :
  status (storage (chat failing_store)) = StepError 0
  /\ let '(fl, st', tr) :=
       run (handle_line 0%nat (lit "SEND bob Hello")) (chat failing_store) in
     fl = Continue
     /\ table (storage st') = empty_db
     /\ sends tr = [(1%nat, lit "MESSAGE alice Hello" ++ [LF]);
                    (0%nat, lit "OK Message queued" ++ [LF])].
Proof.
  split; [reflexivity|].
  assert (Hnul : NUL ∉ bob ++ hello) by compute_done.
  assert (Hsp : SP ∉ bob) by compute_done.
  assert (Hmsg : hello <> []) by discriminate.
  assert (Hbad : status (storage (chat failing_store)) <> Healthy) by discriminate.
  pose proof (store_failure_is_logged_not_reported (chat failing_store) 0%nat bob hello
                eq_refl Hnul Hsp Hmsg Hbad) as W.
  cbv zeta in W.
  change (lit "SEND " ++ bob ++ SP :: hello) with (lit "SEND bob Hello") in W.
  destruct (run (handle_line 0%nat (lit "SEND bob Hello")) (chat failing_store))
    as [[fl st'] tr].
  destruct W as (Hfl & Htable & _ & _ & Htr).
  split; [exact Hfl|]. split; [exact Htable|]. rewrite Htr. reflexivity.
Defined.

(** alice sends to carol, who is not connected; the store works. *)
Lemma offline_send_is_stored_not_pushed_witness :
  find_client_by_name (chat working_store) carol = None
  /\ let '(_, st', tr) :=
       run (handle_line 0%nat (lit "SEND carol Hello")) (chat working_store) in
     sends tr = [(0%nat, lit "OK Message queued" ++ [LF])]
     /\ exists m, messages (table (storage st')) = [m]
          /\ In m (storage_fetch_conversation (storage st') carol alice).1.2.
Proof.
  split; [reflexivity|].
  assert (Hnul : NUL ∉ carol ++ hello) by compute_done.
  assert (Hsp : SP ∉ carol) by compute_done.
  assert (Hmsg : hello <> []) by discriminate.
  pose proof (offline_send_is_stored_not_pushed (chat working_store) 0%nat carol hello
                eq_refl Hnul Hsp Hmsg eq_refl eq_refl) as W.
  cbv zeta in W.
  change (lit "SEND " ++ carol ++ SP :: hello) with (lit "SEND carol Hello") in W.
  change (c_str (username (deref (chat working_store) 0%nat))) with alice in W.
  destruct (run (handle_line 0%nat (lit "SEND carol Hello")) (chat working_store))
    as [[fl st'] tr].
  destruct W as (_ & Hsends & m & Hm & _ & _ & _ & _ & Hfetch).
  split; [exact Hsends|]. exists m. split; [exact Hm | exact Hfetch].
Defined.

(** Two workers race for the name carol, scheduled in turn. *)
Lemma concurrent_auth_exactly_one_succeeds_witness :
  let c := run_schedule alternating (start two_waiting carol [0%nat; 1%nat]) in
  all_finished c = true
  /\ registry_ok (shared c)
  /\ exists w, In w [0%nat; 1%nat]
       /\ sent_to w (trace c) = [frame (lit "OK Authenticated as " ++ carol)]
       /\ forall s, In s [0%nat; 1%nat] -> s <> w ->
            sent_to s (trace c) = [frame (lit "ERROR Username taken")]
            /\ authenticated (deref (shared c) s) = false.
Proof.
  assert (Hst : two_waiting = after empty_db [Accept 4; Accept 5]) by reflexivity.
  assert (Hreg : registry_ok two_waiting)
    by (rewrite Hst; apply registry_ok_after).
  assert (Hlen : (0 < length carol < MAX_USERNAME)%nat) by (vm_compute; lia).
  assert (Hnd : NoDup [0%nat; 1%nat]) by compute_done.
  assert (Hne : [0%nat; 1%nat] <> []) by discriminate.
  assert (Hlisted : forall s, In s [0%nat; 1%nat] ->
            In s (clients_head two_waiting) /\ authenticated (deref two_waiting s) = false).
  { intros s [<- | [<- | []]]; split; try reflexivity.
    - right. left. reflexivity.
    - left. reflexivity. }
  pose proof (concurrent_auth_exactly_one_succeeds two_waiting carol [0%nat; 1%nat]
                alternating Hreg
                eq_refl Hlen Hnd Hne Hlisted eq_refl) as W.
  cbv zeta in W |- *.
  destruct W as (Hok & _ & Hfin & _).
  assert (Hdone : all_finished (run_schedule alternating
                                  (start two_waiting carol [0%nat; 1%nat])) = true)
    by (vm_compute; reflexivity).
  split; [exact Hdone|]. split; [exact Hok|].
  destruct (Hfin Hdone) as (w & Hw & Hsent & _ & Hothers).
  exists w. auto.
Defined.

(** [AUTH bob] read into the worker's 2048-byte buffer. *)
Lemma read_line_stays_in_buffer_witness :
  let '(n, line, fd') :=
    read_line (Stream (lit "AUTH bob" ++ [LF]) EndOfStream) LINE_SIZE in
  Z.of_nat (length line) <= LINE_SIZE - 1 /\ (LF ∉ line) /\ (CR ∉ line).
Proof.
  pose proof (read_line_stays_in_buffer
                (Stream (lit "AUTH bob" ++ [LF]) EndOfStream) LINE_SIZE
                ltac:(unfold LINE_SIZE, size_max; lia)) as W.
  destruct (read_line (Stream (lit "AUTH bob" ++ [LF]) EndOfStream) LINE_SIZE)
    as [[n line] fd'].
  destruct W as (H1 & H2 & H3 & _). auto.
Defined.

(** A four-byte buffer and the bytes [abcde]: the line is [abc]. *)
Lemma read_line_cuts_long_lines_witness :
  read_line (Stream (lit "abc" ++ lit "de" ++ [LF]) EndOfStream) 4
  = (3, lit "abc", Stream (lit "de" ++ [LF]) EndOfStream).
Proof.
  apply (read_line_cuts_long_lines EndOfStream (lit "abc") (lit "de" ++ [LF]) 4).
  - unfold size_max. lia.
  - compute_done.
  - compute_done.
  - reflexivity.
Defined.

(** [AUTH bob] in full, then [QUIT] without its newline. *)
Lemma unfinished_line_is_dropped_witness :
  (client_worker 0%nat (Stream ((lit "AUTH bob" ++ [LF]) ++ lit "QUIT") EndOfStream) lobby).1 =
  (client_worker 0%nat (Stream (lit "AUTH bob" ++ [LF]) EndOfStream) lobby).1.
Proof.
  apply (unfinished_line_is_dropped 0%nat EndOfStream (lit "AUTH bob" ++ [LF]) (lit "QUIT") lobby).
  - right. exists (lit "AUTH bob"). reflexivity.
  - compute_done.
  - vm_compute. lia.
Defined.

(** alice asks for her conversation with bob, which has two messages. *)
Lemma get_lists_conversation_witness :
  exists rows,
    length rows = 2%nat
    /\ sends (run (handle_line 0%nat (lit "GET bob")) (chat same_second_store)).2
       = map (fun row => (0%nat, frame (history_line row))) rows
         ++ [(0%nat, lit "OK History end" ++ [LF])].
Proof.
  assert (Hnul : NUL ∉ bob) by compute_done.
  assert (Hne : bob <> []) by discriminate.
  destruct (get_lists_conversation (chat same_second_store) 0%nat bob
              eq_refl Hnul Hne eq_refl) as (rows & Hperm & _ & Hrun).
  exists rows. split.
  - rewrite (Permutation_length Hperm). reflexivity.
  - change (lit "GET " ++ bob) with (lit "GET bob") in Hrun. rewrite Hrun.
    cbn [snd app sends]. rewrite !sends_app, sends_concat_sending.
    destruct rows; [apply Permutation_length in Hperm; discriminate|].
    reflexivity.
Defined.

(** alice's GET and DELETE while the database is locked. *)
Lemma prepare_failure_replies_witness :
  let st := chat (Store empty_db [] PrepareError (lit "database is locked") 1000) in
  sends (run (handle_line 0%nat (lit "GET bob")) st).2
  = [(0%nat, lit "ERROR Failed to query history: Failed to query history: database is locked"
             ++ [LF])]
  /\ sends (run (handle_line 0%nat (lit "DELETE bob")) st).2
  = [(0%nat, lit "ERROR Failed to delete history: Failed to prepare delete: database is locked"
             ++ [LF])].
Proof.
  intros st.
  assert (Hnul : NUL ∉ bob) by compute_done.
  assert (Hne : bob <> []) by discriminate.
  destruct (prepare_failure_replies st 0%nat bob eq_refl Hnul Hne eq_refl) as [Wg Wd].
  change (lit "GET " ++ bob) with (lit "GET bob") in Wg.
  change (lit "DELETE " ++ bob) with (lit "DELETE bob") in Wd.
  destruct (run (handle_line 0%nat (lit "GET bob")) st) as [[fl1 st1] tr1].
  destruct (run (handle_line 0%nat (lit "DELETE bob")) st) as [[fl2 st2] tr2].
  cbn [snd]. destruct Wg as (_ & _ & ->). destruct Wd as (_ & _ & ->).
  split; reflexivity.
Defined.

(** The store fails after the first row of alice's conversation with bob. *)
Lemma step_failure_replies_witness :
  let st := chat (Store (table same_second_store) [] (StepError 1)
                        (lit "disk I/O error") 1000) in
  sends (run (handle_line 0%nat (lit "GET bob")) st).2
  = [(0%nat, frame (history_line (Message 1 alice bob hello 1000)));
     (0%nat, lit "OK History end" ++ [LF])]
  /\ sends (run (handle_line 0%nat (lit "DELETE bob")) st).2
  = [(0%nat, lit "ERROR Failed to delete history: Failed to delete history: disk I/O error"
             ++ [LF])].
Proof.
  intros st.
  assert (Hnul : NUL ∉ bob) by compute_done.
  assert (Hne : bob <> []) by discriminate.
  destruct (step_failure_replies st 0%nat bob 1 eq_refl Hnul Hne eq_refl) as [Wg Wd].
  change (lit "GET " ++ bob) with (lit "GET bob") in Wg.
  change (lit "DELETE " ++ bob) with (lit "DELETE bob") in Wd.
  destruct (run (handle_line 0%nat (lit "GET bob")) st) as [[fl1 st1] tr1].
  destruct (run (handle_line 0%nat (lit "DELETE bob")) st) as [[fl2 st2] tr2].
  cbn [snd]. destruct Wg as (_ & _ & ->). destruct Wd as (_ & _ & ->).
  split; reflexivity.
Defined.

(** Deleting alice and bob's conversation, then fetching alice and carol's. *)
Lemma delete_keeps_other_conversations_witness :
  (storage_fetch_conversation
     (storage_delete_conversation same_second_store alice bob).2 alice carol).1
  = (storage_fetch_conversation same_second_store alice carol).1.
Proof.
  apply (delete_keeps_other_conversations same_second_store alice bob alice carol eq_refl).
  intros [[_ E] | [E _]]; vm_compute in E; discriminate E.
Defined.

(** alice deletes her conversation with bob and asks for it. *)
Lemma delete_then_get_finds_nothing_witness :
  let '(_, st1, tr1) := run (handle_line 0%nat (lit "DELETE bob")) (chat same_second_store) in
  sends tr1 = [(0%nat, lit "OK Deleted history with bob" ++ [LF])]
  /\ sends (run (handle_line 0%nat (lit "GET bob")) st1).2
     = [(0%nat, lit "INFO No messages with bob" ++ [LF])].
Proof.
  assert (Hnul : NUL ∉ bob) by compute_done.
  assert (Hne : bob <> []) by discriminate.
  pose proof (delete_then_get_finds_nothing (chat same_second_store) 0%nat bob
                eq_refl Hnul Hne eq_refl) as W.
  cbv zeta in W.
  change (lit "GET " ++ bob) with (lit "GET bob") in W.
  change (lit "DELETE " ++ bob) with (lit "DELETE bob") in W.
  destruct (run (handle_line 0%nat (lit "DELETE bob")) (chat same_second_store))
    as [[fl1 st1] tr1].
  destruct W as (_ & -> & _ & _ & _ & ->). split; reflexivity.
Defined.

(** alice sends Hello to bob; bob asks for his conversation with alice. *)
Lemma send_then_get_round_trip_witness :
  let '(_, st1, _) := run (handle_line 0%nat (lit "SEND bob Hello")) (chat working_store) in
  let '(_, _, tr) := run (handle_line 1%nat (lit "GET alice")) st1 in
  In (1%nat, frame (lit "HISTORY " ++ datetime 1000 ++ lit " alice Hello")) (sends tr).
Proof.
  assert (Hnul : NUL ∉ bob ++ hello) by compute_done.
  assert (Hsp : SP ∉ bob) by compute_done.
  assert (Hmsg : hello <> []) by discriminate.
  assert (Hme : c_str (username (deref (chat working_store) 0%nat)) <> []) by discriminate.
  pose proof (send_then_get_round_trip (chat working_store) 0%nat 1%nat bob hello
                eq_refl eq_refl eq_refl Hme Hnul Hsp Hmsg eq_refl) as W.
  cbv zeta in W.
  change (lit "SEND " ++ bob ++ SP :: hello) with (lit "SEND bob Hello") in W.
  change (lit "GET " ++ c_str (username (deref (chat working_store) 0%nat)))
    with (lit "GET alice") in W.
  destruct (run (handle_line 0%nat (lit "SEND bob Hello")) (chat working_store))
    as [[fl1 st1] tr1].
  destruct (run (handle_line 1%nat (lit "GET alice")) st1) as [[fl2 st2] tr2].
  destruct W as (_ & Hin & _). exact Hin.
Defined.


Lemma chat_reached (sto : store) :
  chat sto =
  set_storage
    (after empty_db
       [Accept 4; Line 0%nat (lit "AUTH alice"); Accept 5; Line 1%nat (lit "AUTH bob");
        Accept 6])
    sto.
Proof. vm_compute. reflexivity. Qed.


Lemma registry_ok_chat (sto : store) : registry_ok (chat sto).
Proof.
  rewrite chat_reached. eapply registry_ok_same; [|apply registry_ok_after].
  split; reflexivity.
Qed.


(** bob's worker exits; alice's session stays as it is. *)
Lemma authenticated_session_is_never_changed_witness :
  heap (apply (chat working_store) (Exit 1%nat)) !! 0%nat
  = Some (Session 4 (strncpy alice MAX_USERNAME) true).
Proof.
  assert (Hlive : is_Some (heap (apply (chat working_store) (Exit 1%nat)) !! 0%nat))
    by (eexists; vm_compute; reflexivity).
  rewrite (authenticated_session_is_never_changed (chat working_store) (Exit 1%nat) 0%nat
             eq_refl Hlive).
  reflexivity.
Defined.

(** alice asks who is there: bob and herself; session 2 is not shown. *)
Lemma users_lists_each_name_once_witness :
  sends (run (handle_line 0%nat (lit "USERS")) (chat working_store)).2
  = [(0%nat, lit "USERS_BEGIN" ++ [LF]); (0%nat, lit "USER bob" ++ [LF]);
     (0%nat, lit "USER alice" ++ [LF]); (0%nat, lit "USERS_END" ++ [LF])].
Proof.
  pose proof (users_lists_each_name_once (chat working_store) 0%nat
                (registry_ok_chat working_store) eq_refl) as W.
  destruct (run (handle_line 0%nat (lit "USERS")) (chat working_store)) as [[fl st'] tr].
  cbn [snd]. destruct W as (_ & _ & -> & _). reflexivity.
Defined.

(** alice, authenticated, asks to become carol. *)
Lemma second_auth_is_unknown_command_witness :
  run (handle_line 0%nat (lit "AUTH carol")) (chat working_store)
  = (Continue, chat working_store, sending 0%nat (lit "ERROR Unknown command")).
Proof.
  exact (second_auth_is_unknown_command (chat working_store) 0%nat carol eq_refl).
Defined.

(** Session 2 asks for bob's name, and for no name at all. *)
Lemma failed_auth_changes_nothing_witness :
  run (handle_line 2%nat (lit "AUTH bob")) (chat working_store)
  = (Continue, chat working_store,
     [Locked clients_lock; Unlocked clients_lock]
     ++ sending 2%nat (lit "ERROR Username taken"))
  /\ run (handle_line 2%nat (lit "AUTH  ")) (chat working_store)
  = (Continue, chat working_store, sending 2%nat (lit "ERROR Invalid username length")).
Proof.
  split.
  - destruct (failed_auth_changes_nothing (chat working_store) 2%nat bob eq_refl)
      as [_ Htaken].
    apply (Htaken 1%nat); [discriminate | vm_compute; lia | reflexivity].
  - destruct (failed_auth_changes_nothing (chat working_store) 2%nat (lit " ") eq_refl)
      as [Hlength _].
    apply Hlength. left. reflexivity.
Defined.

(** bob's worker exits; session 2 then takes the name bob. *)
Lemma exit_releases_the_name_witness :
  let st' := (run (worker_exit 1%nat) (chat working_store)).1.2 in
  find_client_by_name st' bob = None
  /\ sends (run (handle_line 2%nat (lit "AUTH bob")) st').2
     = [(2%nat, lit "OK Authenticated as bob" ++ [LF])].
Proof.
  intros st'.
  assert (Hin : In 2%nat (clients_head (chat working_store))) by (left; reflexivity).
  pose proof (exit_releases_the_name (chat working_store) 1%nat 2%nat
                (registry_ok_chat working_store) eq_refl
                ltac:(discriminate) eq_refl ltac:(discriminate) Hin eq_refl) as [Hfree W].
  split; [exact Hfree|].
  change (lit "AUTH " ++ c_str (username (deref (chat working_store) 1%nat)))
    with (lit "AUTH bob") in W. fold st' in W.
  destruct (run (handle_line 2%nat (lit "AUTH bob")) st') as [[fl st2] tr].
  cbn [snd]. destruct W as [-> _]. reflexivity.
Defined.

(** alice sends Hello to bob, who is connected. *)
Lemma online_send_is_stored_and_pushed_witness :
  let '(_, st', tr) :=
    run (handle_line 0%nat (lit "SEND bob Hello")) (chat working_store) in
  sends tr = [(1%nat, lit "MESSAGE alice Hello" ++ [LF]);
              (0%nat, lit "OK Message queued" ++ [LF])]
  /\ messages (table (storage st')) = [Message 1 alice bob hello 1000].
Proof.
  assert (Hnul : NUL ∉ bob ++ hello) by compute_done.
  assert (Hsp : SP ∉ bob) by compute_done.
  assert (Hmsg : hello <> []) by discriminate.
  pose proof (online_send_is_stored_and_pushed (chat working_store) 0%nat 1%nat bob hello
                eq_refl Hnul Hsp Hmsg eq_refl eq_refl) as W.
  cbv zeta in W.
  change (lit "SEND " ++ bob ++ SP :: hello) with (lit "SEND bob Hello") in W.
  destruct (run (handle_line 0%nat (lit "SEND bob Hello")) (chat working_store))
    as [[fl st'] tr].
  destruct W as (_ & _ & -> & ->). split; reflexivity.
Defined.

(** alice sends to bob without a message. *)
Lemma malformed_send_is_refused_witness :
  run (handle_line 0%nat (lit "SEND bob")) (chat working_store)
  = (Continue, chat working_store,
     sending 0%nat (lit "ERROR Usage: SEND <user> <message>"))
  /\ run (handle_line 0%nat (lit "SEND bob ")) (chat working_store)
  = (Continue, chat working_store, sending 0%nat (lit "ERROR Message cannot be empty")).
Proof.
  assert (Hnul : NUL ∉ bob) by compute_done.
  assert (Hsp : SP ∉ bob) by compute_done.
  exact (malformed_send_is_refused (chat working_store) 0%nat bob eq_refl Hnul Hsp).
Defined.

(** The client sends USERS. *)
Lemma client_line_reaches_server_witness :
  Client.send_command (lit "USERS") = lit "USERS" ++ [LF]
  /\ read_line (Stream (Client.send_command (lit "USERS") ++ lit "QUIT") EndOfStream) LINE_SIZE
     = (5, lit "USERS", Stream (lit "QUIT") EndOfStream).
Proof.
  destruct (client_line_reaches_server (lit "USERS") (lit "QUIT") EndOfStream)
    as (_ & Hcut & Hread); [compute_done | compute_done |].
  split; [exact Hcut | exact Hread].
Defined.

(** The user types [getmessages bob]. *)
Lemma client_commands_arrive_witness :
  read_line (Stream (Client.wire_of (Client.client_command (lit "getmessages bob" ++ [LF]))) EndOfStream)
            LINE_SIZE
  = (7, lit "GET bob", Stream [] EndOfStream).
Proof.
  assert (Hlen : (length bob + length hello <= 2040)%nat) by (vm_compute; lia).
  assert (Hlenu : (length bob <= 2039)%nat) by (vm_compute; lia).
  destruct (client_commands_arrive bob hello bob [] EndOfStream
              ltac:(compute_done) ltac:(compute_done) ltac:(compute_done) ltac:(compute_done)
              ltac:(compute_done) ltac:(compute_done) ltac:(compute_done) Hlen
              ltac:(compute_done) ltac:(compute_done) ltac:(compute_done) Hlenu)
    as (_ & Hget & _).
  rewrite app_nil_r in Hget. exact Hget.
Defined.

(** A push from a user who authenticated as [ann lee]. *)
Lemma message_is_shown_split_at_first_space_witness :
  Client.handle_server_line (Client.store_line [] (lit "MESSAGE ann lee Hello"))
  = Client.Reaction (lit "Message from ann: lee Hello" ++ [LF]) false.
Proof.
  apply (message_is_shown_split_at_first_space [] (lit "ann") (lit "lee Hello"));
    compute_done.
Defined.


(** A line of eight bytes and a buffer of four. *)
Lemma portable_getline_returns_the_line_witness :
  exists n',
    FlatFile.portable_getline 4 (lit "abcdefgh" ++ LF :: lit "x")
    = Some (lit "abcdefgh" ++ [LF], n', lit "x").
Proof.
  destruct (portable_getline_returns_the_line 4 (lit "abcdefgh") (lit "x")
              ltac:(compute_done) ltac:(compute_done) ltac:(right; lia)
              ltac:(lia) ltac:(cbn; lia)) as [(n' & Hrun & _) _].
  exists n'. exact Hrun.
Defined.

(** A FlatFile.log with one message from bob to alice; alice answers, with a bar
    in her text. *)
Lemma log_file_round_trip_witness :
  let d := FlatFile.Disk (FlatFile.file_of [lit "2024-01-01 10:00:00|bob|alice|Hi"]) true true true [] [] in
  let d1 := (FlatFile.storage_store_message (lit "2024-01-01 10:00:05") d alice bob
               (lit "yes|no")).2 in
  (FlatFile.storage_fetch_conversation d1 bob alice).1
  = (0, [(lit "2024-01-01 10:00:00", bob, lit "Hi");
         (lit "2024-01-01 10:00:05", alice, lit "yes|no")]).
Proof.
  intros d d1.
  assert (Hwf : FlatFile.well_formed 100 [lit "2024-01-01 10:00:00|bob|alice|Hi"]).
  { constructor; [|constructor].
    split; [compute_done|]. split; [compute_done | vm_compute; lia]. }
  assert (Hlen : (length (lit "2024-01-01 10:00:05" ++ [FlatFile.BAR] ++ alice ++ [FlatFile.BAR] ++ bob
                          ++ [FlatFile.BAR] ++ lit "yes|no") <= 100)%nat) by (vm_compute; lia).
  pose proof (log_file_round_trip 100 d [lit "2024-01-01 10:00:00|bob|alice|Hi"]
                (lit "2024-01-01 10:00:05") alice bob (lit "yes|no")
                ltac:(lia) eq_refl Hwf eq_refl
                ltac:(discriminate) ltac:(discriminate) ltac:(discriminate)
                ltac:(discriminate)
                ltac:(compute_done) ltac:(compute_done) ltac:(compute_done)
                ltac:(compute_done) ltac:(compute_done) ltac:(compute_done)
                ltac:(compute_done)
                ltac:(compute_done) ltac:(compute_done) ltac:(compute_done)
                ltac:(compute_done) Hlen) as W.
  fold d1 in W.
  destruct (FlatFile.storage_store_message (lit "2024-01-01 10:00:05") d alice bob
              (lit "yes|no")) as [rc d2] eqn:Hstore.
  destruct W as (_ & _ & Hfetch). subst d1. cbn [snd].
  rewrite (Hfetch bob alice) by (right; split; reflexivity).
  reflexivity.
Defined.

(** A FlatFile.log with a message from bob to alice and one from carol to alice;
    alice deletes her conversation with bob. *)
Lemma log_file_delete_witness :
  let d := FlatFile.Disk (FlatFile.file_of [lit "2024-01-01 10:00:00|bob|alice|Hi";
                          lit "2024-01-01 10:00:02|carol|alice|Hello"])
                true true true [] [] in
  FlatFile.log (FlatFile.storage_delete_conversation d alice bob).2
  = FlatFile.file_of [lit "2024-01-01 10:00:02|carol|alice|Hello"].
Proof.
  intros d.
  assert (Hwf : FlatFile.well_formed 100 [lit "2024-01-01 10:00:00|bob|alice|Hi";
                                 lit "2024-01-01 10:00:02|carol|alice|Hello"]).
  { constructor; [|constructor; [|constructor]];
      (split; [compute_done|]; split; [compute_done | vm_compute; lia]). }
  pose proof (log_file_delete 100 d _ alice bob ltac:(lia) eq_refl Hwf
                eq_refl eq_refl eq_refl) as W.
  destruct (FlatFile.storage_delete_conversation d alice bob) as [rc d1].
  cbn [snd]. destruct W as (_ & -> & _). reflexivity.
Defined.

End WorkedInstances.
